(** * Sawyer interval maps and the symbolic x86 policy

    A shallow embedding of two parts of the ROSE sources:

    - [src/util/sawyer/IntervalMap.h]: the container whose keys are
      non-overlapping closed intervals, with its merge policy;
    - [src/midend/binaryAnalyses/instructionSemantics/SymbolicSemantics.h]:
      expression trees, memory cells and the policy's primitives.

    Scalars of the interval domain are values of an unsigned integral type of
    [nbits] bits: they are modelled as [Z] with the wrap-around written out.
    Iterators are positions in the node sequence; the end iterator of a map
    [m] is [length m].  A failed assertion aborts the program: operations
    that can reach one return an [outcome]. *)

From Stdlib Require Import ZArith List Bool Lia Arith.
Import ListNotations.
Open Scope Z_scope.

(** ** Calls that may abort *)

Inductive outcome (A : Type) : Type :=
| Ok (a : A)
| Fatal.
Arguments Ok {A} a.
Arguments Fatal {A}.

Definition bind {A B : Type} (x : outcome A) (f : A -> outcome B) : outcome B :=
  match x with
  | Ok a => f a
  | Fatal => Fatal
  end.

Notation "x <- e ;; k" := (bind e (fun x => k))
  (at level 61, e at next level, right associativity).

(** ** Intervals *)

Module Interval.

(** Modelled from the spec: [Sawyer::Container::Interval] (sawyer/Interval.h
    is not among the sources).  An interval is the distinguished empty
    interval or a closed range; [least] and [greatest] of the empty interval
    are those of its representation, the pair (1, 0). *)
Inductive Interval : Type :=
| Empty
| Range (lo hi : Z).

Definition isEmpty (i : Interval) : bool :=
  match i with
  | Empty => true
  | Range _ _ => false
  end.

Definition least (i : Interval) : Z :=
  match i with
  | Empty => 1
  | Range lo _ => lo
  end.

Definition greatest (i : Interval) : Z :=
  match i with
  | Empty => 0
  | Range _ hi => hi
  end.

(** [Interval(scalar)]: the singleton. *)
Definition singleton (scalar : Z) : Interval := Range scalar scalar.

Definition hull (a b : Z) : Interval := Range (Z.min a b) (Z.max a b).

Definition isOverlapping (a b : Interval) : bool :=
  match a, b with
  | Range l1 h1, Range l2 h2 => (l1 <=? h2) && (l2 <=? h1)
  | _, _ => false
  end.

Definition isContaining (a b : Interval) : bool :=
  match b with
  | Empty => true
  | Range l2 h2 =>
      match a with
      | Empty => false
      | Range l1 h1 => (l1 <=? l2) && (h2 <=? h1)
      end
  end.

Definition isLeftOf (a b : Interval) : bool :=
  isEmpty a || isEmpty b || (greatest a <? least b).

Section Domain.
(** Width in bits of [Interval::Value]. *)
Variable nbits : positive.

Definition modulus : Z := 2 ^ Z.pos nbits.

(** Arithmetic of the scalar type. *)
Definition wrap (z : Z) : Z := z mod modulus.

(** The number of scalars of the interval, in the scalar type: zero for
    the empty interval and, by overflow, for the whole domain. *)
Definition size (i : Interval) : Z :=
  match i with
  | Empty => 0
  | Range lo hi => wrap (hi - lo + 1)
  end.

Definition whole : Interval := Range 0 (modulus - 1).

(** The non-empty intervals the scalar type can express, and all of them. *)
Definition proper (i : Interval) : Prop :=
  match i with
  | Empty => False
  | Range lo hi => 0 <= lo <= hi /\ hi < modulus
  end.

Definition valid (i : Interval) : Prop :=
  match i with
  | Empty => True
  | Range _ _ => proper i
  end.
End Domain.

End Interval.

(** ** The underlying ordered map *)

Module Map.

(** Modelled from the spec: [Sawyer::Container::Map] (sawyer/Map.h is not
    among the sources), an ordered map kept as the sequence of its nodes in
    key order.  [less] is the comparator the map is instantiated with. *)
Section Map.
Variables K T : Type.
Variable less : K -> K -> bool.

Definition Node : Type := (K * T)%type.
Definition Map : Type := list Node.

Definition key (n : Node) : K := fst n.
Definition value (n : Node) : T := snd n.

(** First node whose key is not less than [k]. *)
Fixpoint lowerBound (m : Map) (k : K) : nat :=
  match m with
  | [] => O
  | n :: m' => if less (key n) k then S (lowerBound m' k) else O
  end.

(** Insert, or update the value of the node with an equivalent key. *)
Fixpoint insert (k : K) (v : T) (m : Map) : Map :=
  match m with
  | [] => [(k, v)]
  | n :: m' =>
      if less (key n) k then n :: insert k v m'
      else if less k (key n) then (k, v) :: n :: m'
      else (key n, v) :: m'
  end.

Definition insertMultiple (m : Map) (nodes : list Node) : Map :=
  fold_left (fun acc n => insert (key n) (value n) acc) nodes m.

Definition eraseAt (m : Map) (i : nat) : Map :=
  firstn i m ++ skipn (S i) m.

(** Erase the nodes at positions [b] up to, not including, [e]. *)
Definition eraseAtMultiple (m : Map) (b e : nat) : Map :=
  firstn b m ++ skipn e m.

Definition clear (m : Map) : Map := [].
End Map.

Arguments key {K T} n.
Arguments value {K T} n.
Arguments lowerBound {K T} less m k.
Arguments insert {K T} less k v m.
Arguments insertMultiple {K T} less m nodes.
Arguments eraseAt {K T} m i.
Arguments eraseAtMultiple {K T} m b e.
Arguments clear {K T} m.

End Map.

(** ** Interval maps *)

Module IntervalMap.
Import Interval.

Section Policy.
Variable T : Type.

(** The three operations of a merge policy.  [merge] returns the merged
    left value when the values can be joined and [None] (C++ [false], both
    values unchanged) when they cannot; [split] returns the left and the
    right value; [truncate] returns the left value. *)
Record Policy : Type := {
  merge : Interval -> T -> Interval -> T -> option T;
  split : Interval -> T -> Z -> T * T;
  truncate : Interval -> T -> Z -> T
}.

(** [MergePolicy], the default: values merge when they are equal. *)
Definition MergePolicy (eqb : T -> T -> bool) : Policy := {|
  merge := fun _ leftValue _ rightValue =>
             if eqb leftValue rightValue then Some leftValue else None;
  split := fun _ value _ => (value, value);
  truncate := fun _ value _ => value
|}.
End Policy.

Arguments merge {T} p _ _ _ _.
Arguments split {T} p _ _ _.
Arguments truncate {T} p _ _ _.
Arguments MergePolicy {T} eqb.

Section IntervalMap.
Variable nbits : positive.
Variable T : Type.
Variable policy_ : Policy T.

Abbreviation wrap := (Interval.wrap nbits).

Definition Node : Type := Map.Node Interval T.
Definition Map : Type := Map.Map Interval T.

Definition IntervalCompare (a b : Interval) : bool :=
  greatest a <? greatest b.

(** [nodes().end()] *)
Definition end_ (m : Map) : nat := length m.

Definition lowerBound (m : Map) (scalar : Z) : nat :=
  Map.lowerBound IntervalCompare m (singleton scalar).

Definition find (m : Map) (scalar : Z) : nat :=
  let found := lowerBound m scalar in
  match nth_error m found with
  | None => end_ m
  | Some n => if scalar <? least (Map.key n) then end_ m else found
  end.

Definition isLarge (interval : Interval) (size : Z) : bool :=
  negb (isEmpty interval) &&
  ((Interval.size nbits interval =? 0) || (Interval.size nbits interval >=? size)).

(** The loop of [firstFit], at position [iter] with [rest] still to visit. *)
Fixpoint firstFit_loop (m : Map) (size : Z) (rest : list Node) (iter : nat) : nat :=
  match rest with
  | [] => end_ m
  | n :: rest' =>
      if isLarge (Map.key n) size then iter
      else firstFit_loop m size rest' (S iter)
  end.

Definition firstFit (m : Map) (size : Z) (start : nat) : nat :=
  firstFit_loop m size (skipn start m) start.

(** [best->key().size()] for a position [best] of [m]. *)
Definition size_at (m : Map) (best : nat) : Z :=
  match nth_error m best with
  | Some n => Interval.size nbits (Map.key n)
  | None => 0
  end.

(** The loop of [bestFit]. *)
Fixpoint bestFit_loop (m : Map) (size : Z) (rest : list Node) (iter best : nat) : nat :=
  match rest with
  | [] => best
  | n :: rest' =>
      let sz := Interval.size nbits (Map.key n) in
      if (sz =? size) && negb (size =? 0) then iter
      else if (sz >? size) && ((best =? end_ m)%nat || (sz <? size_at m best))
           then bestFit_loop m size rest' (S iter) iter
           else bestFit_loop m size rest' (S iter) best
  end.

Definition bestFit (m : Map) (size : Z) (start : nat) : nat :=
  bestFit_loop m size (skipn start m) start (end_ m).

Definition clear (m : Map) : Map := Map.clear m.

Definition splitInterval (interval : Interval) (splitPoint : Z)
  : outcome (Interval * Interval) :=
  if isEmpty interval then Fatal
  else if (splitPoint >? least interval) && (splitPoint <=? greatest interval)
       then Ok (hull (least interval) (wrap (splitPoint - 1)),
                hull splitPoint (greatest interval))
       else Fatal.

(** The loop of [erase]: [iter] is the position of the head of [rest],
    [endIt] the end iterator.  It returns the position at which the loop
    stopped, [eraseBegin] and the insertions.  The policy updates the value
    [v] of the visited node in place; that node lies in the range from
    [eraseBegin] to the final [iter], which [erase] removes, so the update
    is kept in the local [v] only. *)
Fixpoint erase_loop (erasure : Interval) (rest : list Node) (iter endIt : nat)
         (eraseBegin : nat) (insertions : Map) : outcome (nat * nat * Map) :=
  match rest with
  | [] => Ok (iter, eraseBegin, insertions)
  | n :: rest' =>
      if isLeftOf erasure (Map.key n) then Ok (iter, eraseBegin, insertions)
      else
        let foundInterval := Map.key n in
        let v := Map.value n in
        if isContaining erasure foundInterval then
          erase_loop erasure rest' (S iter) endIt
                     (if (eraseBegin =? endIt)%nat then iter else eraseBegin)
                     insertions
        else if (least erasure >? least foundInterval)
                && (greatest erasure <? greatest foundInterval) then
          if (eraseBegin =? endIt)%nat then
            rt <- splitInterval foundInterval (wrap (greatest erasure + 1)) ;;
            let '(v1, rightValue) := split policy_ foundInterval v (least (snd rt)) in
            let insertions1 := Map.insert IntervalCompare (snd rt) rightValue insertions in
            lt <- splitInterval (fst rt) (least erasure) ;;
            let v2 := truncate policy_ (fst rt) v1 (least erasure) in
            let insertions2 := Map.insert IntervalCompare (fst lt) v2 insertions1 in
            erase_loop erasure rest' (S iter) endIt iter insertions2
          else Fatal
        else if least erasure >? least foundInterval then
          if (eraseBegin =? endIt)%nat then
            halves <- splitInterval foundInterval (least erasure) ;;
            let v1 := truncate policy_ foundInterval v (least erasure) in
            let insertions1 := Map.insert IntervalCompare (fst halves) v1 insertions in
            erase_loop erasure rest' (S iter) endIt iter insertions1
          else Fatal
        else if greatest erasure <? greatest foundInterval then
          halves <- splitInterval foundInterval (wrap (greatest erasure + 1)) ;;
          let '(_, rightValue) := split policy_ foundInterval v (least (snd halves)) in
          let insertions1 := Map.insert IntervalCompare (snd halves) rightValue insertions in
          erase_loop erasure rest' (S iter) endIt
                     (if (eraseBegin =? endIt)%nat then iter else eraseBegin)
                     insertions1
        else
          erase_loop erasure rest' (S iter) endIt eraseBegin insertions
  end.

Definition erase (m : Map) (erasure : Interval) : outcome Map :=
  if isEmpty erasure then Ok m
  else
    let lb := lowerBound m (least erasure) in
    r <- erase_loop erasure (skipn lb m) lb (end_ m) (end_ m) [] ;;
    let '(iter, eraseBegin, insertions) := r in
    let m1 := if (eraseBegin =? end_ m)%nat then m
              else Map.eraseAtMultiple m eraseBegin iter in
    Ok (Map.insertMultiple IntervalCompare m1 insertions).

(** The two merge attempts of [insert]; each returns the map, the key and
    the value as they are after it. *)
Definition merge_left (m : Map) (key : Interval) (value : T)
  : Map * Interval * T :=
  if wrap (least key - 1) <? least key then
    let left := find m (wrap (least key - 1)) in
    match nth_error m left with
    | Some l =>
        if wrap (greatest (Map.key l) + 1) =? least key then
          match merge policy_ (Map.key l) (Map.value l) key value with
          | Some merged =>
              (Map.eraseAt m left, hull (least (Map.key l)) (greatest key), merged)
          | None => (m, key, value)
          end
        else (m, key, value)
    | None => (m, key, value)
    end
  else (m, key, value).

Definition merge_right (m : Map) (key : Interval) (value : T)
  : Map * Interval * T :=
  if wrap (greatest key + 1) >? greatest key then
    let right := find m (wrap (greatest key + 1)) in
    match nth_error m right with
    | Some r =>
        if wrap (greatest key + 1) =? least (Map.key r) then
          match merge policy_ key value (Map.key r) (Map.value r) with
          | Some merged =>
              (Map.eraseAt m right, hull (least key) (greatest (Map.key r)), merged)
          | None => (m, key, value)
          end
        else (m, key, value)
    | None => (m, key, value)
    end
  else (m, key, value).

(** What [insert] does once the place of [key] is free. *)
Definition insert_merging (m : Map) (key : Interval) (value : T) : Map :=
  let '(m1, key1, value1) := merge_left m key value in
  let '(m2, key2, value2) := merge_right m1 key1 value1 in
  Map.insert IntervalCompare key2 value2 m2.

Definition insert (m : Map) (key : Interval) (value : T) (makeHole : bool)
  : outcome Map :=
  if isEmpty key then Ok m
  else if makeHole then
    m1 <- erase m key ;;
    Ok (insert_merging m1 key value)
  else
    let found := lowerBound m (least key) in
    match nth_error m found with
    | Some n =>
        if isOverlapping key (Map.key n) then Ok m
        else Ok (insert_merging m key value)
    | None => Ok (insert_merging m key value)
    end.

(** [eraseMultiple] and [insertMultiple] are handed another container.  Both
    begin with [ASSERT_forbid2(&other != this, ...)], which compares the
    addresses of the two objects: as written it forbids that they differ, so
    that the call aborts unless [other] is the container itself.  [This]
    stands for the container the member function is called on, [Another] for
    any other object, with the nodes it holds. *)
Inductive Other : Type :=
| This
| Another (nodes : list Node).

(** [&other == this] *)
Definition same_object (other : Other) : bool :=
  match other with
  | This => true
  | Another _ => false
  end.

(** [other.nodes()], for the container [m] the function is called on.  The
    loop visits the nodes that [other] holds when the call is made: handed
    the container itself, that is what the C++ loop does as long as its
    body leaves the map as it is. *)
Definition nodes_of (m : Map) (other : Other) : list Node :=
  match other with
  | This => m
  | Another nodes => nodes
  end.

Fixpoint eraseMultiple_loop (m : Map) (nodes : list Node) : outcome Map :=
  match nodes with
  | [] => Ok m
  | oi :: nodes' =>
      m1 <- erase m (Map.key oi) ;;
      eraseMultiple_loop m1 nodes'
  end.

Definition eraseMultiple (m : Map) (other : Other) : outcome Map :=
  if negb (same_object other) then Fatal
  else eraseMultiple_loop m (nodes_of m other).

Fixpoint insertMultiple_loop (m : Map) (nodes : list Node) (makeHole : bool)
  : outcome Map :=
  match nodes with
  | [] => Ok m
  | oi :: nodes' =>
      m1 <- insert m (Map.key oi) (Map.value oi) makeHole ;;
      insertMultiple_loop m1 nodes' makeHole
  end.

Definition insertMultiple (m : Map) (other : Other) (makeHole : bool)
  : outcome Map :=
  if negb (same_object other) then Fatal
  else insertMultiple_loop m (nodes_of m other) makeHole.

(** The loop of [contains], with [rest] the nodes from [found] on. *)
Fixpoint contains_loop (rest : list Node) (key : Interval) : outcome bool :=
  match rest with
  | [] => Ok false
  | n :: rest' =>
      if least key <? least (Map.key n) then Ok false
      else if negb (isOverlapping key (Map.key n)) then Fatal
      else if greatest key <=? greatest (Map.key n) then Ok true
      else
        halves <- splitInterval key (wrap (greatest (Map.key n) + 1)) ;;
        contains_loop rest' (snd halves)
  end.

Definition contains (m : Map) (key : Interval) : outcome bool :=
  if isEmpty key then Ok true
  else contains_loop (skipn (find m (least key)) m) key.

(** *** The invariants of the representation *)

(** The nodes are in key order and no two of them overlap. *)
Fixpoint ordered (m : Map) : Prop :=
  match m with
  | [] => True
  | n :: m' =>
      proper nbits (Map.key n)
      /\ (forall n', In n' m' -> greatest (Map.key n) < least (Map.key n'))
      /\ ordered m'
  end.

(** Would the policy merge a left value with a right value? *)
Definition mergeable_at (i1 : Interval) (v1 : T) (i2 : Interval) (v2 : T) : bool :=
  match merge policy_ i1 v1 i2 v2 with
  | Some _ => true
  | None => false
  end.

Definition mergeable (a b : Node) : bool :=
  mergeable_at (Map.key a) (Map.value a) (Map.key b) (Map.value b).

(** No two adjacent nodes would merge. *)
Definition compact (m : Map) : Prop :=
  forall a b, In a m -> In b m ->
    greatest (Map.key a) + 1 = least (Map.key b) -> mergeable a b = false.

(** A policy is stable when joining, splitting or truncating a value does
    not change whether the policy would merge it with a neighbour on the
    side that is left untouched. *)
Record stable : Prop := {
  stable_merge_left :
    forall i0 v0 i1 v1 i2 v2 merged,
      proper nbits i0 -> proper nbits i1 -> proper nbits i2 ->
      greatest i0 + 1 = least i1 -> greatest i1 + 1 = least i2 ->
      merge policy_ i1 v1 i2 v2 = Some merged ->
      mergeable_at i0 v0 (hull (least i1) (greatest i2)) merged
      = mergeable_at i0 v0 i1 v1;
  stable_merge_right :
    forall i1 v1 i2 v2 i3 v3 merged,
      proper nbits i1 -> proper nbits i2 -> proper nbits i3 ->
      greatest i1 + 1 = least i2 -> greatest i2 + 1 = least i3 ->
      merge policy_ i1 v1 i2 v2 = Some merged ->
      mergeable_at (hull (least i1) (greatest i2)) merged i3 v3
      = mergeable_at i2 v2 i3 v3;
  stable_split_left :
    forall i0 v0 i v p,
      proper nbits i0 -> proper nbits i ->
      greatest i0 + 1 = least i -> least i < p <= greatest i ->
      mergeable_at i0 v0 (hull (least i) (p - 1)) (fst (split policy_ i v p))
      = mergeable_at i0 v0 i v;
  stable_split_right :
    forall i v p i3 v3,
      proper nbits i -> proper nbits i3 ->
      greatest i + 1 = least i3 -> least i < p <= greatest i ->
      mergeable_at (hull p (greatest i)) (snd (split policy_ i v p)) i3 v3
      = mergeable_at i v i3 v3;
  stable_truncate :
    forall i0 v0 i v p,
      proper nbits i0 -> proper nbits i ->
      greatest i0 + 1 = least i -> least i < p <= greatest i ->
      mergeable_at i0 v0 (hull (least i) (p - 1)) (truncate policy_ i v p)
      = mergeable_at i0 v0 i v
}.

(** The values the remnants of node [n] get when [erasure] cuts it. *)
Definition left_value (erasure : Interval) (n : Node) : T :=
  if greatest erasure <? greatest (Map.key n) then
    truncate policy_
             (hull (least (Map.key n)) (greatest erasure))
             (fst (split policy_ (Map.key n) (Map.value n) (greatest erasure + 1)))
             (least erasure)
  else truncate policy_ (Map.key n) (Map.value n) (least erasure).

Definition right_value (erasure : Interval) (n : Node) : T :=
  snd (split policy_ (Map.key n) (Map.value n) (greatest erasure + 1)).

(** *** Notions used to state what the operations do *)

(** A node lies wholly to one side of an interval. *)
Definition apart (k : Interval) (n : Node) : Prop :=
  greatest (Map.key n) < least k \/ greatest k < least (Map.key n).

Definition left_remnant (e : Interval) (n : Node) : Node :=
  (Range (least (Map.key n)) (least e - 1), left_value e n).

Definition right_remnant (e : Interval) (n : Node) : Node :=
  (Range (greatest e + 1) (greatest (Map.key n)), right_value e n).

(** What [erase] inserts back: the part of a node to the left of the
    erasure, or the part to its right. *)
Definition from_erased (e : Interval) (m : Map) (x : Node) : Prop :=
  (exists n, In n m /\ least (Map.key n) < least e <= greatest (Map.key n)
             /\ x = left_remnant e n)
  \/ (exists n, In n m /\ least (Map.key n) <= greatest e < greatest (Map.key n)
                /\ x = right_remnant e n).

(** A node fits a request when its size, as the scalar type holds it, is
    not zero and is at least the size requested. *)
Definition fits (m : Map) (size : Z) (i : nat) : Prop :=
  size_at m i <> 0 /\ size <= size_at m i.

(** What the loop of [bestFit] has established before position [iter],
    having started at [start]. *)
Definition best_so_far (m : Map) (size : Z) (start iter best : nat) : Prop :=
  (best = end_ m
   /\ forall i, (start <= i < iter)%nat -> ~ fits m size i)
  \/ ((start <= best < iter)%nat /\ (best < length m)%nat
      /\ size < size_at m best
      /\ forall i, (start <= i < iter)%nat -> fits m size i ->
           size_at m best <= size_at m i
           /\ ((i < best)%nat -> size_at m best < size_at m i)).

(** The node [bestFit] returns: the first of the smallest nodes, from
    [start] on, that fit; the end iterator when none fits. *)
Definition best_fit (m : Map) (size : Z) (start r : nat) : Prop :=
  (r = end_ m
   /\ forall i, (start <= i < length m)%nat -> ~ fits m size i)
  \/ ((start <= r < length m)%nat
      /\ fits m size r
      /\ forall i, (start <= i < length m)%nat -> fits m size i ->
           size_at m r <= size_at m i
           /\ ((i < r)%nat -> size_at m r < size_at m i)).

(** A mutating operation of the container, and a run of them. *)
Inductive Op : Type :=
| OpInsert (key : Interval) (value : T) (makeHole : bool)
| OpErase (erasure : Interval)
| OpInsertMultiple (other : Other) (makeHole : bool)
| OpEraseMultiple (other : Other)
| OpClear.

Definition perform (m : Map) (op : Op) : outcome Map :=
  match op with
  | OpInsert key value makeHole => insert m key value makeHole
  | OpErase erasure => erase m erasure
  | OpInsertMultiple other makeHole => insertMultiple m other makeHole
  | OpEraseMultiple other => eraseMultiple m other
  | OpClear => Ok (clear m)
  end.

Fixpoint run (m : Map) (ops : list Op) : outcome Map :=
  match ops with
  | [] => Ok m
  | op :: ops' =>
      m1 <- perform m op ;;
      run m1 ops'
  end.

(** The container an operation is handed, if it is handed one. *)
Definition container_of (op : Op) : option Other :=
  match op with
  | OpInsertMultiple other _ => Some other
  | OpEraseMultiple other => Some other
  | _ => None
  end.

(** The operation is handed a container other than the one it works on. *)
Definition foreign (op : Op) : Prop :=
  exists nodes, container_of op = Some (Another nodes).

(** The keys of the nodes are intervals of the scalar type. *)
Definition valid_keys (nodes : list Node) : Prop :=
  Forall (fun n => valid nbits (Map.key n)) nodes.

(** The call is one whose behaviour is defined, on intervals of the scalar
    type.  Handed the container itself, [eraseMultiple], and [insertMultiple]
    with [makeHole], erase the node that the iterator of their own loop
    stands on, after which C++ leaves the loop undefined; of the calls that
    hand a container to its own member function, [insertMultiple] without
    [makeHole], which changes nothing, is the one that is defined. *)
Definition valid_op (op : Op) : Prop :=
  match op with
  | OpInsert key _ _ => valid nbits key
  | OpErase erasure => valid nbits erasure
  | OpInsertMultiple This makeHole => makeHole = false
  | OpInsertMultiple (Another nodes) _ => valid_keys nodes
  | OpEraseMultiple This => False
  | OpEraseMultiple (Another nodes) => valid_keys nodes
  | OpClear => True
  end.
End IntervalMap.

Arguments OpInsert {T} key value makeHole.
Arguments OpErase {T} erasure.
Arguments OpInsertMultiple {T} other makeHole.
Arguments OpEraseMultiple {T} other.
Arguments OpClear {T}.
Arguments end_ {T} m.
Arguments lowerBound {T} m scalar.
Arguments find {T} m scalar.
Arguments firstFit nbits {T} m size start.
Arguments bestFit nbits {T} m size start.
Arguments size_at nbits {T} m best.
Arguments erase nbits {T} policy_ m erasure.
Arguments erase_loop nbits {T} policy_ erasure rest iter endIt eraseBegin insertions.
Arguments merge_left nbits {T} policy_ m key value.
Arguments merge_right nbits {T} policy_ m key value.
Arguments insert_merging nbits {T} policy_ m key value.
Arguments insert nbits {T} policy_ m key value makeHole.
Arguments This {T}.
Arguments Another {T} nodes.
Arguments same_object {T} other.
Arguments nodes_of {T} m other.
Arguments insertMultiple_loop nbits {T} policy_ m nodes makeHole.
Arguments insertMultiple nbits {T} policy_ m other makeHole.
Arguments eraseMultiple_loop nbits {T} policy_ m nodes.
Arguments eraseMultiple nbits {T} policy_ m other.
Arguments contains_loop nbits {T} rest key.
Arguments contains nbits {T} m key.
Arguments clear {T} m.
Arguments perform nbits {T} policy_ m op.
Arguments run nbits {T} policy_ m ops.
Arguments ordered nbits {T} m.
Arguments mergeable_at {T} policy_ i1 v1 i2 v2.
Arguments mergeable {T} policy_ a b.
Arguments compact {T} policy_ m.
Arguments stable nbits {T} policy_.
Arguments left_value {T} policy_ erasure n.
Arguments right_value {T} policy_ erasure n.
Arguments valid_keys nbits {T} nodes.
Arguments container_of {T} op.
Arguments foreign {T} op.
Arguments valid_op nbits {T} op.
Arguments apart {T} k n.
Arguments left_remnant {T} policy_ e n.
Arguments right_remnant {T} policy_ e n.
Arguments from_erased {T} policy_ e m x.
Arguments fits nbits {T} m size i.
Arguments best_so_far nbits {T} m size start iter best.
Arguments best_fit nbits {T} m size start r.

(** A policy on integers that is not stable: two values merge when their
    sum is even, into the successor of the sum. *)
Definition parity_policy : Policy Z := {|
  merge := fun _ leftValue _ rightValue =>
             if Z.even (leftValue + rightValue)
             then Some (leftValue + rightValue + 1) else None;
  split := fun _ value _ => (value, value);
  truncate := fun _ value _ => value
|}.

End IntervalMap.

(** ** Interval maps: searching, accessors, capacity and predicates

    The methods of [IntervalMap] that leave the container as it is.  They
    keep the names of the source; several of them share a name with a method
    of [Interval], hence the module of their own. *)

Module Queries.
Import IntervalMap.

(** What [operator[]] gives: the value found, or the exception
    [std::domain_error]. *)
Inductive lookup (A : Type) : Type :=
| Found (a : A)
| domain_error.
Arguments Found {A} a.
Arguments domain_error {A}.

Section Queries.
Variable nbits : positive.
Variable T : Type.

Abbreviation Node := (IntervalMap.Node T).
Abbreviation Map := (IntervalMap.Map T).

(** *** Capacity *)

(** [map_.isEmpty()] and [map_.size()] of the underlying map. *)
Definition isEmpty (m : Map) : bool :=
  match m with
  | [] => true
  | _ :: _ => false
  end.

Definition nIntervals (m : Map) : nat := length m.

(** The sum of the sizes of the keys, accumulated in the scalar type. *)
Definition size (m : Map) : Z :=
  fold_left (fun sum n => Interval.wrap nbits (sum + Interval.size nbits (Map.key n)))
            m 0.

Definition least (m : Map) : outcome Z :=
  if isEmpty m then Fatal
  else match nth_error m 0 with
       | Some n => Ok (Interval.least (Map.key n))
       | None => Fatal
       end.

Definition greatest (m : Map) : outcome Z :=
  if isEmpty m then Fatal
  else match nth_error m (Nat.pred (end_ m)) with
       | Some last => Ok (Interval.greatest (Map.key last))
       | None => Fatal
       end.

Definition hull (m : Map) : outcome Interval.Interval :=
  if isEmpty m then Ok Interval.Empty
  else
    lo <- least m ;;
    hi <- greatest m ;;
    Ok (Interval.hull lo hi).

(** *** Searching *)

Definition findPrior (m : Map) (scalar : Z) : nat :=
  if isEmpty m then end_ m
  else
    let lb := lowerBound m scalar in
    let prior := if (lb =? 0)%nat then end_ m else Nat.pred lb in
    match nth_error m lb with
    | Some n => if Interval.least (Map.key n) <=? scalar then lb else prior
    | None => prior
    end.

Definition findFirstOverlap (m : Map) (interval : Interval.Interval) : nat :=
  let lb := lowerBound m (Interval.least interval) in
  match nth_error m lb with
  | Some n => if Interval.isOverlapping interval (Map.key n) then lb else end_ m
  | None => end_ m
  end.

(** The loop of the form of [findFirstOverlap] that walks two containers:
    [rest] and [otherRest] are the nodes from [thisIter] and from
    [otherIter] on, [endThis] and [endOther] the two end iterators. *)
Fixpoint findFirstOverlap_loop (T2 : Type) (endThis endOther : nat)
         (rest : list Node) (thisIter : nat) {struct rest}
  : list (IntervalMap.Node T2) -> nat -> nat * nat :=
  match rest with
  | [] => fun _ _ => (endThis, endOther)
  | a :: rest' =>
      fix other_loop (otherRest : list (IntervalMap.Node T2)) (otherIter : nat)
          {struct otherRest} : nat * nat :=
        match otherRest with
        | [] => (endThis, endOther)
        | b :: otherRest' =>
            if Interval.isOverlapping (Map.key a) (Map.key b) then (thisIter, otherIter)
            else if Interval.greatest (Map.key a) <? Interval.greatest (Map.key b)
                 then findFirstOverlap_loop T2 endThis endOther rest' (S thisIter)
                                            otherRest otherIter
                 else other_loop otherRest' (S otherIter)
        end
  end.

Definition findFirstOverlap_pair (T2 : Type) (m : Map) (thisIter : nat)
           (other : IntervalMap.Map T2) (otherIter : nat) : nat * nat :=
  findFirstOverlap_loop T2 (end_ m) (end_ other)
                        (skipn thisIter m) thisIter (skipn otherIter other) otherIter.

(** *** Accessors *)

(** [operator[]] *)
Definition index (m : Map) (scalar : Z) : lookup T :=
  match nth_error m (find m scalar) with
  | None => domain_error
  | Some found => Found (Map.value found)
  end.

Definition getOptional (m : Map) (scalar : Z) : option T :=
  match nth_error m (find m scalar) with
  | None => None
  | Some found => Some (Map.value found)
  end.

Definition getOrElse (m : Map) (scalar : Z) (dflt : T) : T :=
  match nth_error m (find m scalar) with
  | None => dflt
  | Some found => Map.value found
  end.

(** [dflt] is the default-constructed value of the source. *)
Definition getOrDefault (dflt : T) (m : Map) (scalar : Z) : T :=
  match nth_error m (find m scalar) with
  | None => dflt
  | Some found => Map.value found
  end.

(** *** Limited extremes *)

(** [least(lowerLimit)] *)
Definition least_limited (m : Map) (lowerLimit : Z) : option Z :=
  match nth_error m (lowerBound m lowerLimit) with
  | None => None
  | Some found => Some (Z.max lowerLimit (Interval.least (Map.key found)))
  end.

(** [greatest(upperLimit)] *)
Definition greatest_limited (m : Map) (upperLimit : Z) : option Z :=
  match nth_error m (findPrior m upperLimit) with
  | None => None
  | Some found => Some (Z.min upperLimit (Interval.greatest (Map.key found)))
  end.

(** The loop of [leastUnmapped], with [rest] the nodes from [iter] on. *)
Fixpoint leastUnmapped_loop (rest : list Node) (lowerLimit : Z) : option Z :=
  match rest with
  | [] => Some lowerLimit
  | n :: rest' =>
      if lowerLimit <? Interval.least (Map.key n) then Some lowerLimit
      else
        let lowerLimit' := Interval.wrap nbits (Interval.greatest (Map.key n) + 1) in
        if lowerLimit' <? Interval.greatest (Map.key n) then None
        else leastUnmapped_loop rest' lowerLimit'
  end.

Definition leastUnmapped (m : Map) (lowerLimit : Z) : option Z :=
  leastUnmapped_loop (skipn (lowerBound m lowerLimit) m) lowerLimit.

(** The loop of [greatestUnmapped], which walks towards the first node. *)
Fixpoint greatestUnmapped_loop (m : Map) (iter : nat) (upperLimit : Z) : option Z :=
  match nth_error m iter with
  | None => Some upperLimit
  | Some n =>
      if upperLimit >? Interval.greatest (Map.key n) then Some upperLimit
      else
        let upperLimit' := Interval.wrap nbits (Interval.least (Map.key n) - 1) in
        if upperLimit' >? Interval.least (Map.key n) then None
        else match iter with
             | O => Some upperLimit'
             | S iter' => greatestUnmapped_loop m iter' upperLimit'
             end
  end.

Definition greatestUnmapped (m : Map) (upperLimit : Z) : option Z :=
  greatestUnmapped_loop m (findPrior m upperLimit) upperLimit.

(** *** Predicates *)

Definition isOverlapping (m : Map) (interval : Interval.Interval) : bool :=
  negb (findFirstOverlap m interval =? end_ m)%nat.

Definition isDistinct (m : Map) (interval : Interval.Interval) : bool :=
  negb (isOverlapping m interval).

(** *** Notions used to state what the queries do *)

(** The scalar [s] lies in the key of node [n]. *)
Definition covers (n : Node) (s : Z) : Prop :=
  Interval.least (Map.key n) <= s <= Interval.greatest (Map.key n).

Definition mapped (m : Map) (s : Z) : Prop :=
  exists n, In n m /\ covers n s.

Definition maps_to (m : Map) (s : Z) (v : T) : Prop :=
  exists n, In n m /\ covers n s /\ Map.value n = v.

(** A policy is plain when it leaves the values as they are: the two parts
    of a split value and a truncated value are the value itself, and two
    values merge only when they are one value, which is the merged one. *)
Definition plain (policy_ : Policy T) : Prop :=
  (forall i v p, split policy_ i v p = (v, v))
  /\ (forall i v p, truncate policy_ i v p = v)
  /\ (forall i1 v1 i2 v2 merged,
        merge policy_ i1 v1 i2 v2 = Some merged -> v1 = v2 /\ merged = v1).

(** The number of scalars of a non-empty interval, and of a map. *)
Definition width (i : Interval.Interval) : Z :=
  Interval.greatest i - Interval.least i + 1.

Fixpoint count (m : Map) : Z :=
  match m with
  | [] => 0
  | n :: m' => width (Map.key n) + count m'
  end.
End Queries.

Arguments isEmpty {T} m.
Arguments nIntervals {T} m.
Arguments size nbits {T} m.
Arguments least {T} m.
Arguments greatest {T} m.
Arguments hull {T} m.
Arguments findPrior {T} m scalar.
Arguments findFirstOverlap {T} m interval.
Arguments findFirstOverlap_loop {T T2} endThis endOther rest thisIter _ _.
Arguments findFirstOverlap_pair {T T2} m thisIter other otherIter.
Arguments index {T} m scalar.
Arguments getOptional {T} m scalar.
Arguments getOrElse {T} m scalar dflt.
Arguments getOrDefault {T} dflt m scalar.
Arguments least_limited {T} m lowerLimit.
Arguments greatest_limited {T} m upperLimit.
Arguments leastUnmapped_loop nbits {T} rest lowerLimit.
Arguments leastUnmapped nbits {T} m lowerLimit.
Arguments greatestUnmapped_loop nbits {T} m iter upperLimit.
Arguments greatestUnmapped nbits {T} m upperLimit.
Arguments isOverlapping {T} m interval.
Arguments isDistinct {T} m interval.
Arguments covers {T} n s.
Arguments mapped {T} m s.
Arguments maps_to {T} m s v.
Arguments count {T} m.
Arguments plain {T} policy_.

End Queries.

(** ** Symbolic semantics: expression trees, memory cells, the policy *)

Module SymbolicSemantics.

Inductive Operator : Type :=
| OP_ADD | OP_AND | OP_ASR | OP_BV_AND | OP_BV_OR | OP_BV_XOR | OP_CONCAT
| OP_EQ | OP_EXTRACT | OP_INVERT | OP_ITE | OP_LSSB | OP_MSSB | OP_NE
| OP_NEGATE | OP_NOOP | OP_OR | OP_ROL | OP_ROR | OP_SDIV | OP_SEXTEND
| OP_SHL0 | OP_SHL1 | OP_SHR0 | OP_SHR1 | OP_SMOD | OP_SMUL | OP_UDIV
| OP_UEXTEND | OP_UMOD | OP_UMUL | OP_ZEROP.

Scheme Equality for Operator.

(** A leaf holds [ival] when [known] and the variable's [name] otherwise:
    the two share one field, as the union of the class does.  The induction
    principle that reaches the children is proved with the lemmas. *)
Unset Elimination Schemes.
Inductive TreeNode : Type :=
| InternalNode (nbits : Z) (op : Operator) (children : list TreeNode)
| LeafNode (nbits : Z) (known : bool) (ival : Z).
Set Elimination Schemes.

Definition get_nbits (e : TreeNode) : Z :=
  match e with
  | InternalNode nbits _ _ => nbits
  | LeafNode nbits _ _ => nbits
  end.

Definition is_known (e : TreeNode) : bool :=
  match e with
  | InternalNode _ _ _ => false
  | LeafNode _ known _ => known
  end.

(** [ValueType::value()]; the callers ask for it under [is_known] only. *)
Definition value (e : TreeNode) : Z :=
  match e with
  | InternalNode _ _ _ => 0
  | LeafNode _ _ ival => ival
  end.

(** Arithmetic of [uint64_t]. *)
Definition u64 (z : Z) : Z := z mod 2 ^ 64.

(** Modelled from the spec: [LeafNode::create_integer] (SymbolicSemantics.C
    is not among the sources): a known constant of width [nbits] whose bits
    above the width are zero. *)
Definition create_integer (nbits n : Z) : TreeNode :=
  LeafNode nbits true (n mod 2 ^ nbits).

(** Modelled from the spec: [TreeNode::equal_to] and its overriders
    (SymbolicSemantics.C): structural equality, same variant, same width,
    same operator, children equal in order; leaves equal when both are known
    with equal values or both unknown with equal names. *)
Fixpoint equal_to (a b : TreeNode) : bool :=
  match a, b with
  | LeafNode n1 k1 v1, LeafNode n2 k2 v2 =>
      (n1 =? n2) && Bool.eqb k1 k2 && (v1 =? v2)
  | InternalNode n1 o1 c1, InternalNode n2 o2 c2 =>
      (n1 =? n2) && Operator_beq o1 o2 &&
      (fix children_equal (l1 l2 : list TreeNode) : bool :=
         match l1, l2 with
         | [], [] => true
         | x :: l1', y :: l2' => equal_to x y && children_equal l1' l2'
         | _, _ => false
         end) c1 c2
  | _, _ => false
  end.

(** A value of [ValueType<nBits>] is a handle to a tree node of that width;
    the width, a template argument in the source, is passed explicitly. *)
Definition ValueType : Type := TreeNode.

(** [ValueType<nBits>(uint64_t n)] *)
Definition number (nBits n : Z) : ValueType := create_integer nBits n.

Definition true_ : ValueType := number 1 1.
Definition false_ : ValueType := number 1 0.

(** Modelled from the spec: [IntegerOps::GenMask<uint64_t, n>::value], the
    mask of the [n] low-order bits. *)
Definition GenMask (n : Z) : Z := Z.ones n.

Definition unsignedExtend (FromLen ToLen : Z) (a : ValueType) : ValueType :=
  if is_known a then number ToLen (Z.land (GenMask ToLen) (value a))
  else if FromLen =? ToLen then a
  else if FromLen >? ToLen then
    InternalNode ToLen OP_EXTRACT
                 [create_integer 32 0; create_integer 32 ToLen; a]
  else InternalNode ToLen OP_UEXTEND [create_integer 32 ToLen; a].

Definition extract (BeginAt EndAt Len : Z) (a : ValueType) : ValueType :=
  if 0 =? BeginAt then unsignedExtend Len (EndAt - BeginAt) a
  else if is_known a then number (EndAt - BeginAt) (value a)
  else InternalNode (EndAt - BeginAt) OP_EXTRACT
                    [create_integer 32 BeginAt; create_integer 32 EndAt; a].

Definition add (Len : Z) (a b : ValueType) : ValueType :=
  if is_known a then
    if is_known b then create_integer Len (u64 (value a + value b))
    else if 0 =? value a then b
    else InternalNode Len OP_ADD [a; b]
  else if is_known b && (0 =? value b) then a
  else InternalNode Len OP_ADD [a; b].

Definition xor_ (Len : Z) (a b : ValueType) : ValueType :=
  InternalNode Len OP_BV_XOR [a; b].

(** Returns the sum and, second, what the source stores in [carry_out]. *)
Definition addWithCarries (Len : Z) (a b c : ValueType) : ValueType * ValueType :=
  let aa := unsignedExtend Len (Len + 1) a in
  let bb := unsignedExtend Len (Len + 1) b in
  let cc := unsignedExtend 1 (Len + 1) c in
  let sumco := add (Len + 1) aa (add (Len + 1) bb cc) in
  let carry_out := extract 1 (Len + 1) (Len + 1)
                           (xor_ (Len + 1) aa (xor_ (Len + 1) bb sumco)) in
  (add Len a (add Len b (unsignedExtend 1 Len c)), carry_out).

(** What comes back from a cell that was written at width [Len]. *)
Definition read_back (Len : Z) (data : ValueType) : ValueType :=
  unsignedExtend 32 Len (unsignedExtend Len 32 data).

(** *** What an expression denotes

    The meaning of the operators that the primitives modelled here build,
    as the comments of [enum Operator] give it; an expression of width
    [nbits] denotes a number below 2^nbits.  [env] gives each variable its
    value.  [rest] gives the meaning of the remaining operators, and of the
    operators below on operands of another shape: every expression denotes
    a number, and what is proved of the primitives holds whatever the other
    operators mean. *)
Section Denotation.
Variable env : Z -> Z.
Variable rest : Operator -> Z -> list Z -> Z.

Definition eval_op (nbits : Z) (op : Operator) (children : list TreeNode)
           (args : list Z) : Z :=
  match op, args with
  | OP_ADD, x :: xs => fold_left Z.add xs x
  | OP_BV_AND, x :: xs => fold_left Z.land xs x
  | OP_BV_OR, x :: xs => fold_left Z.lor xs x
  | OP_BV_XOR, x :: xs => fold_left Z.lxor xs x
  | OP_EXTRACT, [lo; hi; x] =>
      match children with
      | [LeafNode _ true _; LeafNode _ true _; _] =>
          if nbits =? hi - lo then Z.shiftr x lo else rest op nbits args
      | _ => rest op nbits args
      end
  | OP_UEXTEND, [_; x] => x
  | _, _ => rest op nbits args
  end.

Fixpoint eval (e : TreeNode) : Z :=
  match e with
  | LeafNode nbits known ival => (if known then ival else env ival) mod 2 ^ nbits
  | InternalNode nbits op children =>
      eval_op nbits op children
              ((fix eval_all (l : list TreeNode) : list Z :=
                  match l with
                  | [] => []
                  | c :: l' => eval c :: eval_all l'
                  end) children)
      mod 2 ^ nbits
  end.
End Denotation.

(** A value of [ValueType<nBits>]: the node has that width and, when it is
    a known constant, its bits above the width are zero. *)
Definition valid_value (nBits : Z) (a : ValueType) : Prop :=
  get_nbits a = nBits /\ (is_known a = true -> 0 <= value a < 2 ^ nBits).

(** The height of an expression tree. *)
Fixpoint depth (e : TreeNode) : nat :=
  match e with
  | LeafNode _ _ _ => O
  | InternalNode _ _ children =>
      S ((fix max_depth (l : list TreeNode) : nat :=
            match l with
            | [] => O
            | c :: l' => Nat.max (depth c) (max_depth l')
            end) children)
  end.

(** *** Memory cells *)

Record MemoryCell : Type := mkCell {
  address : ValueType;
  data : ValueType;
  nbytes : Z;
  clobbered : bool;
  written : bool
}.

(** The constructor: neither clobbered nor written. *)
Definition new_MemoryCell (address data : ValueType) (nbytes : Z) : MemoryCell :=
  mkCell address data nbytes false false.

Definition set_clobbered (c : MemoryCell) : MemoryCell :=
  mkCell (address c) (data c) (nbytes c) true (written c).

Definition set_written (c : MemoryCell) : MemoryCell :=
  mkCell (address c) (data c) (nbytes c) (clobbered c) true.

(** Modelled from the spec: [MemoryCell::must_alias] (SymbolicSemantics.C):
    two cells must-alias iff their address expressions are structurally
    equal and their sizes are equal. *)
Definition must_alias (c other : MemoryCell) : bool :=
  equal_to (address c) (address other) && (nbytes c =? nbytes other).

Definition Memory : Type := list MemoryCell.

(** [c0] is the first cell of [cells] that must-aliases [probe]. *)
Definition first_alias (probe : MemoryCell) (cells : Memory) (c0 : MemoryCell) : Prop :=
  exists pre post,
    cells = pre ++ c0 :: post
    /\ (forall c, In c pre -> must_alias probe c = false)
    /\ must_alias probe c0 = true.

Record State : Type := mkState {
  ip : ValueType;
  gpr : list ValueType;
  segreg : list ValueType;
  flag : list ValueType;
  mem : Memory
}.

Definition set_mem (s : State) (m : Memory) : State :=
  mkState (ip s) (gpr s) (segreg s) (flag s) m.

(** The objects the primitives work on: the global [name_counter], the two
    states of the policy and its property, and one more state for calls
    that are handed a state of the caller's. *)
Record World : Type := mkWorld {
  name_counter : Z;
  orig_state : State;
  cur_state : State;
  other_state : State;
  p_discard_popped_memory : bool
}.

(** The [State&] argument of [mem_read] and [mem_write]: which object it
    refers to.  [&state != &orig_state] is [negb (is_orig r)]. *)
Inductive StateRef : Type := OrigState | CurState | OtherState.

Definition is_orig (r : StateRef) : bool :=
  match r with
  | OrigState => true
  | _ => false
  end.

Definition get_state (r : StateRef) (w : World) : State :=
  match r with
  | OrigState => orig_state w
  | CurState => cur_state w
  | OtherState => other_state w
  end.

Definition put_state (r : StateRef) (s : State) (w : World) : World :=
  match r with
  | OrigState =>
      mkWorld (name_counter w) s (cur_state w) (other_state w)
              (p_discard_popped_memory w)
  | CurState =>
      mkWorld (name_counter w) (orig_state w) s (other_state w)
              (p_discard_popped_memory w)
  | OtherState =>
      mkWorld (name_counter w) (orig_state w) (cur_state w) s
              (p_discard_popped_memory w)
  end.

(** [state.mem.push_back(c)] on the state [r] refers to. *)
Definition push_back (r : StateRef) (c : MemoryCell) (w : World) : World :=
  put_state r (set_mem (get_state r w) (mem (get_state r w) ++ [c])) w.

(** No cell of the original state is clobbered or written: what the
    assertions of [mem_read] ask of the cell they find there. *)
Definition orig_clean (w : World) : Prop :=
  forall c, In c (mem (orig_state w)) -> clobbered c = false /\ written c = false.

(** The state [r] holds [d] for the [n] bytes at [addr]: the first of its
    cells that must-aliases a cell of that address and size is not clobbered
    and has [d] for data. *)
Definition holds (r : StateRef) (addr : ValueType) (n : Z) (d : ValueType)
           (w : World) : Prop :=
  exists c0,
    first_alias (new_MemoryCell addr d n) (mem (get_state r w)) c0
    /\ clobbered c0 = false /\ data c0 = d.

(** Computations on the world that may abort. *)
Definition M (A : Type) : Type := World -> outcome (A * World).

Definition ret {A : Type} (a : A) : M A := fun w => Ok (a, w).

Definition mbind {A B : Type} (x : M A) (f : A -> M B) : M B :=
  fun w =>
    match x w with
    | Ok (a, w') => f a w'
    | Fatal => Fatal
    end.

Notation "x <~ e ;; k" := (mbind e (fun x => k))
  (at level 61, e at next level, right associativity).

Definition modify (f : World -> World) : M unit := fun w => Ok (tt, f w).
Definition gets {A : Type} (f : World -> A) : M A := fun w => Ok (f w, w).
Definition abort {A : Type} : M A := fun _ => Fatal.

(** Modelled from the spec: [LeafNode::create_variable]
    (SymbolicSemantics.C): an unknown whose identifier is drawn from the
    increasing counter. *)
Definition create_variable (nbits : Z) : M ValueType :=
  fun w =>
    Ok (LeafNode nbits false (name_counter w),
        mkWorld (u64 (name_counter w + 1)) (orig_state w) (cur_state w)
                (other_state w) (p_discard_popped_memory w)).

(** The variable [create_variable] hands out and the world it leaves. *)
Definition fresh (w : World) : ValueType := LeafNode 32 false (name_counter w).

Definition bump (w : World) : World :=
  mkWorld (u64 (name_counter w + 1)) (orig_state w) (cur_state w)
          (other_state w) (p_discard_popped_memory w).

Inductive MemRefType : Type := MRT_STACK_PTR | MRT_FRAME_PTR | MRT_OTHER_PTR.

Definition MemRefType_eqb (a b : MemRefType) : bool :=
  match a, b with
  | MRT_STACK_PTR, MRT_STACK_PTR => true
  | MRT_FRAME_PTR, MRT_FRAME_PTR => true
  | MRT_OTHER_PTR, MRT_OTHER_PTR => true
  | _, _ => false
  end.

Definition memory_reference_type (state : State) (addr : ValueType) : MemRefType :=
  MRT_OTHER_PTR.

Section Aliasing.
(** [MemoryCell::may_alias] is defined in SymbolicSemantics.C, which is not
    among the sources: the policy is modelled for any such predicate. *)
Variable may_alias : MemoryCell -> MemoryCell -> bool.

(** How the first loop of [mem_read] ends: it returns from the function
    with the data to extend and the memory as updated, or runs to the end. *)
Inductive Scan : Type :=
| Returned (d : ValueType) (mem' : Memory)
| Finished (aliased : bool).

Definition scan_cons (mi : MemoryCell) (s : Scan) : Scan :=
  match s with
  | Returned d mem' => Returned d (mi :: mem')
  | Finished aliased => Finished aliased
  end.

Fixpoint scan_state (new_cell : MemoryCell) (cells : Memory) (aliased : bool) : Scan :=
  match cells with
  | [] => Finished aliased
  | mi :: rest =>
      if must_alias new_cell mi then
        if clobbered mi then
          Returned (data new_cell)
                   (mkCell (address mi) (data new_cell) (nbytes mi) false (written mi)
                    :: rest)
        else Returned (data mi) (mi :: rest)
      else if may_alias new_cell mi && written mi then
        scan_cons mi (scan_state new_cell rest true)
      else scan_cons mi (scan_state new_cell rest aliased)
  end.

(** The loop over the original state's memory: the must-aliasing cell, if
    any; it is asserted to be neither clobbered nor written. *)
Fixpoint scan_orig (new_cell : MemoryCell) (cells : Memory) : outcome (option MemoryCell) :=
  match cells with
  | [] => Ok None
  | mi :: rest =>
      if must_alias new_cell mi then
        if clobbered mi then Fatal
        else if written mi then Fatal
        else Ok (Some mi)
      else scan_orig new_cell rest
  end.

Definition mem_read (Len : Z) (r : StateRef) (addr : ValueType) : M ValueType :=
  fresh <~ create_variable 32 ;;
  let new_cell := new_MemoryCell addr fresh (Len / 8) in
  cells <~ gets (fun w => mem (get_state r w)) ;;
  match scan_state new_cell cells false with
  | Returned d mem' =>
      _ <~ modify (fun w => put_state r (set_mem (get_state r w) mem') w) ;;
      ret (unsignedExtend 32 Len d)
  | Finished aliased =>
      if negb aliased && negb (is_orig r) then
        orig_cells <~ gets (fun w => mem (orig_state w)) ;;
        match scan_orig new_cell orig_cells with
        | Fatal => abort
        | Ok (Some mi) =>
            _ <~ modify (push_back r mi) ;;
            ret (unsignedExtend 32 Len (data mi))
        | Ok None =>
            _ <~ modify (push_back OrigState new_cell) ;;
            _ <~ modify (push_back r new_cell) ;;
            ret (unsignedExtend 32 Len (data new_cell))
        end
      else
        _ <~ modify (push_back r new_cell) ;;
        ret (unsignedExtend 32 Len (data new_cell))
  end.

(** The loop of [mem_write] over the cells of [state]; [saved] is threaded
    through it. *)
Fixpoint write_cells (discard : bool) (state : State) (new_mrt : MemRefType)
         (new_cell : MemoryCell) (cells : Memory) (saved : bool) : Memory * bool :=
  match cells with
  | [] => ([], saved)
  | mi :: rest =>
      if must_alias new_cell mi then
        let '(rest', saved') := write_cells discard state new_mrt new_cell rest true in
        (new_cell :: rest', saved')
      else if discard
              && negb (MemRefType_eqb new_mrt (memory_reference_type state (address mi)))
      then
        let '(rest', saved') := write_cells discard state new_mrt new_cell rest saved in
        (mi :: rest', saved')
      else if may_alias new_cell mi then
        let '(rest', saved') := write_cells discard state new_mrt new_cell rest saved in
        (set_clobbered mi :: rest', saved')
      else
        let '(rest', saved') := write_cells discard state new_mrt new_cell rest saved in
        (mi :: rest', saved')
  end.

Definition mem_write (Len : Z) (r : StateRef) (addr data : ValueType) : M unit :=
  if is_orig r then abort
  else
    let new_cell := set_written (new_MemoryCell addr (unsignedExtend Len 32 data) (Len / 8)) in
    state <~ gets (get_state r) ;;
    discard <~ gets p_discard_popped_memory ;;
    let new_mrt := memory_reference_type state addr in
    let '(cells, saved) := write_cells discard state new_mrt new_cell (mem state) false in
    _ <~ modify (fun w => put_state r (set_mem (get_state r w) cells) w) ;;
    if saved then ret tt
    else modify (push_back r new_cell).

(** [segreg] and [cond] are ignored by the source. *)
Definition readMemory (Len : Z) (segreg : Z) (addr cond : ValueType) : M ValueType :=
  mem_read Len CurState addr.

Definition writeMemory (Len : Z) (segreg : Z) (addr data cond : ValueType) : M unit :=
  mem_write Len CurState addr data.
End Aliasing.

(** [State()]: every register and flag a new variable, in the order of the
    members; no memory. *)
Fixpoint fresh_values (nbits : Z) (n : nat) : M (list ValueType) :=
  match n with
  | O => ret []
  | S n' =>
      v <~ create_variable nbits ;;
      vs <~ fresh_values nbits n' ;;
      ret (v :: vs)
  end.

Definition new_State : M State :=
  ip <~ create_variable 32 ;;
  gpr <~ fresh_values 32 8 ;;
  segreg <~ fresh_values 16 6 ;;
  flag <~ fresh_values 1 16 ;;
  ret (mkState ip gpr segreg flag []).

(** [Policy()]: the two states are constructed in the order of the
    members, then the original state is assigned the current one. *)
Definition new_Policy : M unit :=
  _ <~ new_State ;;
  cur <~ new_State ;;
  modify (fun w => mkWorld (name_counter w) cur cur (other_state w) false).

(** A world to run examples in: a policy just constructed and a state of
    the caller's, from a counter at zero. *)
Definition blank_state : State := mkState (LeafNode 32 true 0) [] [] [] [].

Definition start_world : World :=
  mkWorld 0 blank_state blank_state blank_state false.

Definition policy_world : World :=
  match (_ <~ new_Policy ;;
         other <~ new_State ;;
         modify (put_state OtherState other)) start_world with
  | Ok (_, w) => w
  | Fatal => start_world
  end.

(** A finer aliasing predicate: two cells may alias only when their address
    expressions are structurally equal. *)
Definition may_alias_same (c other : MemoryCell) : bool :=
  equal_to (address c) (address other).

(** The coarsest aliasing predicate: any two cells may alias. *)
Definition may_alias_any (c other : MemoryCell) : bool := true.

(** The world after [writeMemory<32>(0, number<32>(0x1000),
    number<32>(0xdead))] on the policy just constructed. *)
Definition written_world : World :=
  match writeMemory may_alias_any 32 0 (number 32 4096) (number 32 57005) true_
                    policy_world with
  | Ok (_, w) => w
  | Fatal => policy_world
  end.

(** *** More of the policy *)

(** One's complement: [~] is taken on [uint64_t]. *)
Definition invert (Len : Z) (a : ValueType) : ValueType :=
  if is_known a then create_integer Len (u64 (Z.lnot (value a)))
  else InternalNode Len OP_INVERT [a].

(** [interrupt]: the current state becomes a state just constructed. *)
Definition interrupt (num : Z) : M unit :=
  s <~ new_State ;;
  modify (put_state CurState s).

(** The policy with the members that [startInstruction] and
    [finishInstruction] work on: [cur_insn] is the address of the current
    instruction, if any, and [ninsns], of type [size_t], is taken to have 64
    bits. *)
Record Machine : Type := mkMachine {
  world : World;
  cur_insn : option Z;
  ninsns : Z
}.

Definition set_ip (s : State) (v : ValueType) : State :=
  mkState v (gpr s) (segreg s) (flag s) (mem s).

(** [insn] is what [insn->get_address()] returns. *)
Definition startInstruction (insn : Z) (p : Machine) : Machine :=
  let w1 := put_state CurState (set_ip (cur_state (world p)) (number 32 insn)) (world p) in
  let w2 := if 0 =? ninsns p then put_state OrigState (cur_state w1) w1 else w1 in
  mkMachine w2 (Some insn) (u64 (ninsns p + 1)).

(** [State::discard_popped_memory] does nothing. *)
Definition discard_popped_memory (s : State) : State := s.

Definition finishInstruction (insn : Z) (p : Machine) : Machine :=
  let w := world p in
  let w1 := if p_discard_popped_memory w
            then put_state CurState (discard_popped_memory (cur_state w)) w
            else w in
  mkMachine w1 None (ninsns p).

(** The cell that [mem_write] makes for [data] written at [addr]. *)
Definition written_cell (Len : Z) (addr data : ValueType) : MemoryCell :=
  set_written (new_MemoryCell addr (unsignedExtend Len 32 data) (Len / 8)).

(** A read or a write of memory, and a run of them. *)
Inductive MemOp : Type :=
| MemRead (Len : Z) (r : StateRef) (addr : ValueType)
| MemWrite (Len : Z) (r : StateRef) (addr data : ValueType).

(** The write names a state other than the original one. *)
Definition safe_op (op : MemOp) : Prop :=
  match op with
  | MemRead _ _ _ => True
  | MemWrite _ r _ _ => r <> OrigState
  end.

Section Runs.
Variable may_alias : MemoryCell -> MemoryCell -> bool.

Definition mem_op (op : MemOp) : M unit :=
  match op with
  | MemRead Len r addr =>
      _ <~ mem_read may_alias Len r addr ;;
      ret tt
  | MemWrite Len r addr data => mem_write may_alias Len r addr data
  end.

Fixpoint run_mem (ops : list MemOp) : M unit :=
  match ops with
  | [] => ret tt
  | op :: ops' =>
      _ <~ mem_op op ;;
      run_mem ops'
  end.

(** [op] is no write to an address that aliases the [n] bytes at [addr] of
    the state [r]: it is a read, or a write through another state, or a
    write whose cell neither must-aliases nor may alias a cell of that
    address and size. *)
Definition apart_from (r : StateRef) (addr : ValueType) (n : Z) (op : MemOp) : Prop :=
  match op with
  | MemRead _ _ _ => True
  | MemWrite Len r' addr' data' =>
      r' = r ->
      forall c, address c = addr -> nbytes c = n ->
        must_alias (written_cell Len addr' data') c = false
        /\ may_alias (written_cell Len addr' data') c = false
  end.
End Runs.


End SymbolicSemantics.

(** ** Facts about interval maps *)

Module IntervalMapFacts.
Import Interval IntervalMap.

Section Facts.
Variable nbits : positive.
Variable T : Type.
Variable policy_ : Policy T.

Abbreviation Node := (IntervalMap.Node T).
Abbreviation Map := (IntervalMap.Map T).
Abbreviation modulus := (Interval.modulus nbits).
Abbreviation wrap := (Interval.wrap nbits).
Abbreviation proper := (Interval.proper nbits).
Abbreviation ordered := (IntervalMap.ordered nbits).

(** *** Arithmetic of the scalar type *)

Lemma modulus_ge_2 : 2 <= modulus.
Proof.
  unfold Interval.modulus.
  change 2 with (2 ^ 1) at 1.
  apply Z.pow_le_mono_r; lia.
Qed.

Lemma wrap_small z : 0 <= z < modulus -> wrap z = z.
Proof. intros H. unfold Interval.wrap. now apply Z.mod_small. Qed.

Lemma wrap_pred z : 0 < z < modulus -> wrap (z - 1) = z - 1.
Proof. intros H. apply wrap_small. lia. Qed.

Lemma wrap_pred_zero : wrap (0 - 1) = modulus - 1.
Proof.
  unfold Interval.wrap.
  pose proof modulus_ge_2.
  replace (0 - 1) with (modulus - 1 + (-1) * modulus) by lia.
  rewrite Z.mod_add by lia. apply Z.mod_small. lia.
Qed.

Lemma wrap_succ z : 0 <= z -> z + 1 < modulus -> wrap (z + 1) = z + 1.
Proof. intros H1 H2. apply wrap_small. lia. Qed.

Lemma wrap_succ_max : wrap (modulus - 1 + 1) = 0.
Proof.
  unfold Interval.wrap. replace (modulus - 1 + 1) with modulus by lia.
  apply Z.mod_same. pose proof modulus_ge_2. lia.
Qed.

(** *** Proper intervals *)

Lemma proper_inv i :
  proper i -> exists lo hi, i = Range lo hi /\ 0 <= lo <= hi /\ hi < modulus.
Proof.
  destruct i as [|lo hi]; simpl; [tauto|]. intros H. exists lo, hi. tauto.
Qed.

Lemma proper_bounds i :
  proper i -> 0 <= least i <= greatest i /\ greatest i < modulus.
Proof. destruct i; simpl; tauto. Qed.

Lemma proper_range lo hi : 0 <= lo <= hi -> hi < modulus -> proper (Range lo hi).
Proof. simpl. tauto. Qed.

Lemma hull_range a b : a <= b -> hull a b = Range a b.
Proof. intros H. unfold hull. now rewrite Z.min_l, Z.max_r by lia. Qed.

Lemma range_eta i : proper i -> i = Range (least i) (greatest i).
Proof. destruct i; simpl; [tauto | reflexivity]. Qed.

(** *** Ordered node sequences *)

Lemma ordered_proper (m : Map) n : ordered m -> In n m -> proper (Map.key n).
Proof.
  induction m as [|a m IH]; simpl; [tauto|].
  intros (Ha & _ & Hm) [<-|Hin]; auto.
Qed.

Lemma ordered_app (a b : Map) :
  ordered (a ++ b) <->
  ordered a /\ ordered b /\
  (forall x y, In x a -> In y b -> greatest (Map.key x) < least (Map.key y)).
Proof.
  induction a as [|n a IH]; simpl.
  - intuition.
  - rewrite IH. split.
    + intros (Hn & Hlt & Ha & Hb & Hab). repeat split; auto.
      * intros n' Hn'. apply Hlt. apply in_or_app. now left.
      * intros x y [<-|Hx] Hy; [apply Hlt, in_or_app; now right | now apply Hab].
    + intros ((Hn & Hlt & Ha) & Hb & Hab). repeat split; auto.
      intros n' Hn'. apply in_app_or in Hn'. destruct Hn'; auto.
Qed.

Lemma ordered_nth_lt (m : Map) i j a b :
  ordered m -> (i < j)%nat ->
  nth_error m i = Some a -> nth_error m j = Some b ->
  greatest (Map.key a) < least (Map.key b).
Proof.
  revert i j. induction m as [|n m IH]; intros i j Hm Hij Ha Hb.
  - now destruct i.
  - destruct Hm as (_ & Hlt & Hm). destruct j as [|j]; [lia|].
    destruct i as [|i]; simpl in *.
    + injection Ha as <-. apply Hlt. eapply nth_error_In; eauto.
    + apply (IH i j); auto. lia.
Qed.

(** Two nodes of an ordered sequence that share a scalar are one node. *)
Lemma ordered_unique (m : Map) a b s :
  ordered m -> In a m -> In b m ->
  least (Map.key a) <= s <= greatest (Map.key a) ->
  least (Map.key b) <= s <= greatest (Map.key b) ->
  a = b.
Proof.
  induction m as [|n m IH]; simpl; [tauto|].
  intros (Hn & Hlt & Hm) [<-|Ha] [<-|Hb] Hsa Hsb; auto.
  - specialize (Hlt _ Hb). lia.
  - specialize (Hlt _ Ha). lia.
Qed.

(** *** The underlying map *)

Lemma compare_unfold a b : IntervalCompare a b = (greatest a <? greatest b).
Proof. reflexivity. Qed.

Lemma lowerBound_le (m : Map) s : (lowerBound m s <= length m)%nat.
Proof.
  unfold lowerBound. induction m as [|n m IH]; simpl; [lia|].
  destruct (IntervalCompare _ _); simpl; lia.
Qed.

Lemma lowerBound_prefix (m : Map) s x :
  In x (firstn (lowerBound m s) m) -> greatest (Map.key x) < s.
Proof.
  unfold lowerBound. induction m as [|n m IH]; simpl; [tauto|].
  rewrite compare_unfold. simpl.
  destruct (Z.ltb_spec (greatest (Map.key n)) s) as [Hlt|Hge]; simpl; [|tauto].
  intros [<-|Hin]; auto.
Qed.

Lemma lowerBound_suffix (m : Map) s x :
  ordered m -> In x (skipn (lowerBound m s) m) -> s <= greatest (Map.key x).
Proof.
  unfold lowerBound. induction m as [|n m IH]; simpl; [tauto|].
  rewrite compare_unfold. simpl.
  intros (Hn & Hlt & Hm).
  destruct (Z.ltb_spec (greatest (Map.key n)) s) as [Hl|Hge]; simpl; auto.
  intros [<-|Hin]; [lia|].
  specialize (Hlt _ Hin). pose proof (ordered_proper m x Hm Hin) as Hx.
  apply proper_bounds in Hx. lia.
Qed.

Lemma insert_In (m : Map) k v x :
  (forall n, In n m -> greatest (Map.key n) <> greatest k) ->
  In x (Map.insert IntervalCompare k v m) <-> x = (k, v) \/ In x m.
Proof.
  induction m as [|n m IH]; simpl; intros Hne.
  - intuition congruence.
  - rewrite !compare_unfold.
    destruct (Z.ltb_spec (greatest (Map.key n)) (greatest k)) as [H1|H1].
    + simpl. rewrite IH by auto. intuition congruence.
    + destruct (Z.ltb_spec (greatest k) (greatest (Map.key n))) as [H2|H2].
      * simpl. intuition congruence.
      * exfalso. apply (Hne n); auto. lia.
Qed.

Lemma insert_ordered (m : Map) k v :
  ordered m -> proper k -> (forall n, In n m -> apart k n) ->
  ordered (Map.insert IntervalCompare k v m).
Proof.
  intros Hm Hk. pose proof (proper_bounds _ Hk) as Hkb.
  induction m as [|n m IH]; simpl; intros Hap.
  - repeat split; auto. intros n' [].
  - destruct Hm as (Hn & Hlt & Hm). pose proof (proper_bounds _ Hn) as Hnb.
    rewrite !compare_unfold.
    destruct (Hap n (or_introl eq_refl)) as [Hl|Hr].
    + destruct (Z.ltb_spec (greatest (Map.key n)) (greatest k)) as [H1|H1]; [|lia].
      simpl. split; [exact Hn|]. split.
      * intros n' Hn'. apply insert_In in Hn'.
        -- destruct Hn' as [->|Hn']; simpl; auto.
        -- intros n0 Hn0 Heq. destruct (Hap n0 (or_intror Hn0)) as [Hx|Hx].
           ++ specialize (Hlt _ Hn0).
              pose proof (proper_bounds _ (ordered_proper m n0 Hm Hn0)). lia.
           ++ pose proof (proper_bounds _ (ordered_proper m n0 Hm Hn0)). lia.
      * apply IH; auto.
    + destruct (Z.ltb_spec (greatest (Map.key n)) (greatest k)) as [H1|H1]; [lia|].
      destruct (Z.ltb_spec (greatest k) (greatest (Map.key n))) as [H2|H2]; [|lia].
      simpl. repeat split; auto.
      intros n' [<-|Hn']; auto. specialize (Hlt _ Hn'). lia.
Qed.

Lemma apart_neq (k : Interval) (n : Node) :
  proper k -> proper (Map.key n) -> apart k n ->
  greatest (Map.key n) <> greatest k.
Proof.
  intros Hk Hn Hap. apply proper_bounds in Hk, Hn. unfold apart in Hap. lia.
Qed.

Lemma node_eta (x : Node) : (Map.key x, Map.value x) = x.
Proof. now destruct x. Qed.

Lemma insertMultiple_spec (ins base : Map) :
  ordered base -> ordered ins ->
  (forall x y, In x ins -> In y base -> apart (Map.key x) y) ->
  ordered (Map.insertMultiple IntervalCompare base ins)
  /\ (forall z, In z (Map.insertMultiple IntervalCompare base ins)
                <-> In z base \/ In z ins).
Proof.
  unfold Map.insertMultiple. revert base.
  induction ins as [|x ins IH]; simpl; intros base Hb Hi Hap.
  - split; [assumption | intuition].
  - destruct Hi as (Hx & Hlt & Hi).
    assert (Hne : forall n, In n base -> greatest (Map.key n) <> greatest (Map.key x)).
    { intros n Hn. apply apart_neq; [assumption | now apply (ordered_proper base) |].
      apply Hap; [now left | assumption]. }
    destruct (IH (Map.insert IntervalCompare (Map.key x) (Map.value x) base)) as [Ho Hin].
    + apply insert_ordered; auto.
    + assumption.
    + intros x' y Hx' Hy. apply insert_In in Hy; [|assumption].
      destruct Hy as [->|Hy]; [|now apply Hap; auto].
      left. simpl. now apply Hlt.
    + split; [assumption|]. intros z. rewrite Hin, insert_In by assumption.
      rewrite node_eta. intuition congruence.
Qed.

Lemma nth_error_split (m : Map) i n :
  nth_error m i = Some n -> m = firstn i m ++ n :: skipn (S i) m.
Proof.
  revert i. induction m as [|a m IH]; intros [|i] H; simpl in *; try discriminate.
  - now injection H as ->.
  - f_equal. now apply IH.
Qed.

Lemma skipn_nth_error (m : Map) i n :
  nth_error m i = Some n -> skipn i m = n :: skipn (S i) m.
Proof.
  revert i. induction m as [|a m IH]; intros [|i] H; simpl in *; try discriminate.
  - now injection H as ->.
  - now apply IH.
Qed.

Lemma skipn_head (m : Map) i n rest :
  skipn i m = n :: rest -> nth_error m i = Some n.
Proof.
  revert i. induction m as [|a m IH]; intros [|i] H; simpl in *; try discriminate.
  - now injection H as -> _.
  - now apply IH.
Qed.

Lemma in_firstn (m : Map) i x : In x (firstn i m) -> In x m.
Proof. intros H. rewrite <- (firstn_skipn i m). apply in_or_app. now left. Qed.

Lemma in_skipn (m : Map) i x : In x (skipn i m) -> In x m.
Proof. intros H. rewrite <- (firstn_skipn i m). apply in_or_app. now right. Qed.

Lemma nth_error_end (m : Map) : nth_error m (end_ m) = None.
Proof. apply nth_error_None. unfold end_. lia. Qed.

Lemma eraseAt_spec (m : Map) i n :
  ordered m -> nth_error m i = Some n ->
  ordered (Map.eraseAt m i)
  /\ (forall x, In x (Map.eraseAt m i) ->
        In x m /\ (greatest (Map.key x) < least (Map.key n)
                   \/ greatest (Map.key n) < least (Map.key x))).
Proof.
  intros Hm Hn. unfold Map.eraseAt.
  pose proof (nth_error_split m i n Hn) as Hs.
  rewrite Hs in Hm. apply ordered_app in Hm. destruct Hm as (Hpre & Hpost & Hlt).
  simpl in Hpost. destruct Hpost as (Hpn & Hgt & Hpost).
  split.
  - apply ordered_app. repeat split; auto.
    intros x y Hx Hy. apply Hlt; simpl; auto.
  - intros x Hx. apply in_app_or in Hx. destruct Hx as [Hx|Hx].
    + split; [eapply in_firstn; eauto | left; apply Hlt; simpl; auto].
    + split; [eapply in_skipn; eauto | right; auto].
Qed.

(** *** [find] *)

Lemma find_some (m : Map) s n :
  ordered m -> nth_error m (find m s) = Some n ->
  least (Map.key n) <= s <= greatest (Map.key n).
Proof.
  intros Hm. unfold find.
  destruct (nth_error m (lowerBound m s)) as [n0|] eqn:E.
  - destruct (Z.ltb_spec s (least (Map.key n0))) as [Hlt|Hge].
    + now rewrite nth_error_end.
    + rewrite E. intros [= <-]. split; [assumption|].
      apply (lowerBound_suffix m s n0 Hm).
      rewrite (skipn_nth_error _ _ _ E). now left.
  - now rewrite nth_error_end.
Qed.

Lemma find_complete (m : Map) s a :
  ordered m -> In a m ->
  least (Map.key a) <= s <= greatest (Map.key a) ->
  nth_error m (find m s) = Some a.
Proof.
  intros Hm Ha Hs. unfold find.
  pose proof (firstn_skipn (lowerBound m s) m) as Hsplit.
  assert (Hin : In a (skipn (lowerBound m s) m)).
  { rewrite <- Hsplit in Ha. apply in_app_or in Ha. destruct Ha as [Ha|Ha]; auto.
    apply lowerBound_prefix in Ha. lia. }
  destruct (skipn (lowerBound m s) m) as [|n0 rest] eqn:E; [contradiction|].
  pose proof (skipn_head _ _ _ _ E) as Hn0. rewrite Hn0.
  assert (Hs0 : s <= greatest (Map.key n0)).
  { apply (lowerBound_suffix m s n0 Hm). rewrite E. now left. }
  assert (a = n0) as ->.
  { destruct Hin as [<-|Hin]; [reflexivity|].
    rewrite <- Hsplit in Hm. apply ordered_app in Hm.
    destruct Hm as (_ & (_ & Hlt & _) & _). specialize (Hlt _ Hin). lia. }
  destruct (Z.ltb_spec s (least (Map.key n0))); [lia | assumption].
Qed.

Lemma find_none (m : Map) s a :
  ordered m -> nth_error m (find m s) = None -> In a m ->
  ~ (least (Map.key a) <= s <= greatest (Map.key a)).
Proof.
  intros Hm Hnone Ha Hs. rewrite (find_complete m s a Hm Ha Hs) in Hnone. discriminate.
Qed.

(** *** [splitInterval] *)

Lemma splitInterval_ok i p :
  proper i -> least i < p <= greatest i ->
  splitInterval nbits i p = Ok (Range (least i) (p - 1), Range p (greatest i)).
Proof.
  intros Hi Hp. pose proof (proper_bounds i Hi) as Hb.
  unfold splitInterval. destruct i as [|lo hi]; [contradiction|]. simpl in *.
  rewrite Z.gtb_ltb.
  destruct (Z.ltb_spec lo p); [|lia]. destruct (Z.leb_spec p hi); [|lia]. simpl.
  rewrite wrap_pred by lia. now rewrite !hull_range by lia.
Qed.

(** *** [erase] *)

Lemma isLeftOf_proper e k :
  proper e -> proper k -> isLeftOf e k = (greatest e <? least k).
Proof. destruct e, k; simpl; tauto. Qed.

Lemma isContaining_proper e k :
  proper e -> proper k ->
  isContaining e k = (least e <=? least k) && (greatest k <=? greatest e).
Proof. destruct e, k; simpl; tauto. Qed.

Lemma isOverlapping_proper e k :
  proper e -> proper k ->
  isOverlapping e k = (least e <=? greatest k) && (least k <=? greatest e).
Proof. destruct e, k; simpl; tauto. Qed.

(** The loop once it has passed the least scalar of the erasure: whole nodes
    are dropped, and the last one may leave its right part. *)
Lemma erase_loop_tail e :
  proper e ->
  forall (rest : Map) iter endIt eb ins,
    ordered rest ->
    (forall n, In n rest -> least e <= least (Map.key n)) ->
    (iter + length rest <= endIt)%nat ->
    exists k ins',
      erase_loop nbits policy_ e rest iter endIt eb ins
      = Ok ((iter + k)%nat,
            (if (k =? 0)%nat then eb else if (eb =? endIt)%nat then iter else eb),
            ins')
      /\ (k <= length rest)%nat
      /\ (forall n, In n (skipn k rest) -> greatest e < least (Map.key n))
      /\ (ins' = ins
          \/ exists n, In n rest
                       /\ least (Map.key n) <= greatest e < greatest (Map.key n)
                       /\ ins' = Map.insert IntervalCompare
                                            (Map.key (right_remnant policy_ e n))
                                            (Map.value (right_remnant policy_ e n)) ins).
Proof.
  intros He. pose proof (proper_bounds e He) as Heb.
  induction rest as [|n rest IH]; intros iter endIt eb ins Hord Hle Hlen.
  - exists O, ins. simpl. rewrite Nat.add_0_r. repeat split; auto. intros n [].
  - destruct Hord as (Hn & Hlt & Hord). pose proof (proper_bounds _ Hn) as Hnb.
    assert (Hiter : (iter < endIt)%nat) by (simpl in Hlen; lia).
    pose proof (Hle n (or_introl eq_refl)) as Hlen0.
    simpl erase_loop. rewrite isLeftOf_proper, isContaining_proper by assumption.
    destruct (Z.ltb_spec (greatest e) (least (Map.key n))) as [Hleft|Hover].
    + exists O, ins. rewrite Nat.add_0_r. simpl. repeat split; auto; try lia.
      intros x [<-|Hx]; [assumption|]. specialize (Hlt _ Hx). lia.
    + destruct (Z.leb_spec (least e) (least (Map.key n))) as [_|]; [|lia].
      destruct (Z.leb_spec (greatest (Map.key n)) (greatest e)) as [Hin|Hout]; simpl andb; cbv iota.
      * assert (Hlen' : (S iter + length rest <= endIt)%nat) by (simpl in Hlen; lia).
        destruct (IH (S iter) endIt (if (eb =? endIt)%nat then iter else eb) ins
                     Hord (fun x Hx => Hle x (or_intror Hx)) Hlen')
          as (k & ins' & Hloop & Hk & Hskip & Hins).
        exists (S k), ins'. rewrite Hloop. repeat split.
        -- f_equal. f_equal. f_equal; [lia|].
           simpl. destruct k; simpl; [reflexivity|].
           destruct (Nat.eqb_spec eb endIt).
           ++ destruct (Nat.eqb_spec iter endIt); [lia | reflexivity].
           ++ destruct (Nat.eqb_spec eb endIt); [lia | reflexivity].
        -- simpl. lia.
        -- exact Hskip.
        -- destruct Hins as [->|(x & Hx & Hxb & ->)]; [now left|].
           right. exists x. repeat split; auto; try lia. now right.
      * rewrite !Z.gtb_ltb.
        destruct (Z.ltb_spec (least (Map.key n)) (least e)); [lia|]. simpl andb. cbv iota.
        destruct (Z.ltb_spec (greatest e) (greatest (Map.key n))); [|lia].
        rewrite wrap_succ by lia. rewrite splitInterval_ok by (auto; lia).
        simpl bind. simpl snd. simpl least.
        destruct (split policy_ (Map.key n) (Map.value n) (greatest e + 1)) as [v1 rv] eqn:Esplit.
        assert (Hstop : forall eb' ins',
                   erase_loop nbits policy_ e rest (S iter) endIt eb' ins'
                   = Ok (S iter, eb', ins')).
        { intros eb' ins'. destruct rest as [|n2 rest2]; [reflexivity|].
          simpl erase_loop. destruct Hord as (Hn2 & _).
          rewrite isLeftOf_proper by assumption.
          specialize (Hlt n2 (or_introl eq_refl)).
          destruct (Z.ltb_spec (greatest e) (least (Map.key n2))); [reflexivity | lia]. }
        rewrite Hstop. exists 1%nat.
        eexists. repeat split.
        -- f_equal. f_equal. f_equal. lia.
        -- simpl. lia.
        -- simpl. intros x Hx. specialize (Hlt _ Hx). lia.
        -- right. exists n. repeat split; auto; try lia; [now left|].
           unfold right_remnant, right_value. rewrite Esplit. reflexivity.
Qed.

Lemma erase_loop_stop e (rest : Map) iter endIt eb ins :
  proper e -> ordered rest ->
  (forall x, In x rest -> greatest e < least (Map.key x)) ->
  erase_loop nbits policy_ e rest iter endIt eb ins = Ok (iter, eb, ins).
Proof.
  intros He Hord Hgt. destruct rest as [|n rest]; [reflexivity|].
  simpl erase_loop. destruct Hord as (Hn & _).
  rewrite isLeftOf_proper by assumption.
  specialize (Hgt n (or_introl eq_refl)).
  destruct (Z.ltb_spec (greatest e) (least (Map.key n))); [reflexivity | lia].
Qed.

Lemma ordered_one (x : Node) : proper (Map.key x) -> ordered [x].
Proof. intros H. simpl. repeat split; auto. intros n' []. Qed.

Lemma ordered_two (x y : Node) :
  proper (Map.key x) -> proper (Map.key y) ->
  greatest (Map.key x) < least (Map.key y) -> ordered [x; y].
Proof.
  intros Hx Hy Hlt. simpl. repeat split; auto.
  - intros n' [<-|[]]. assumption.
  - intros n' [].
Qed.

Lemma insert_after (x y : Node) :
  greatest (Map.key x) < greatest (Map.key y) ->
  Map.insert IntervalCompare (Map.key y) (Map.value y) [x] = [x; y].
Proof.
  intros H. simpl. rewrite compare_unfold.
  destruct (Z.ltb_spec (greatest (Map.key x)) (greatest (Map.key y))); [|lia].
  now rewrite node_eta.
Qed.

Lemma insert_before (x y : Node) :
  greatest (Map.key x) < greatest (Map.key y) ->
  Map.insert IntervalCompare (Map.key x) (Map.value x) [y] = [x; y].
Proof.
  intros H. simpl. rewrite !compare_unfold.
  destruct (Z.ltb_spec (greatest (Map.key y)) (greatest (Map.key x))); [lia|].
  destruct (Z.ltb_spec (greatest (Map.key x)) (greatest (Map.key y))); [|lia].
  now rewrite node_eta.
Qed.

Lemma erase_loop_spec e :
  proper e ->
  forall (rest : Map) iter endIt,
    ordered rest ->
    (forall n, In n rest -> least e <= greatest (Map.key n)) ->
    (iter + length rest <= endIt)%nat ->
    exists k ins',
      erase_loop nbits policy_ e rest iter endIt endIt []
      = Ok ((iter + k)%nat, (if (k =? 0)%nat then endIt else iter), ins')
      /\ (k <= length rest)%nat
      /\ (forall n, In n (skipn k rest) -> greatest e < least (Map.key n))
      /\ ordered ins'
      /\ (forall x, In x ins' -> from_erased policy_ e rest x).
Proof.
  intros He rest iter endIt Hord Hge Hlen.
  pose proof (proper_bounds e He) as Heb.
  destruct rest as [|n rest].
  { exists O, []. simpl. rewrite Nat.add_0_r. repeat split; auto; intros ? []. }
  pose proof Hord as (Hn & Hlt & Hord').
  pose proof (proper_bounds _ Hn) as Hnb.
  pose proof (Hge n (or_introl eq_refl)) as Hgn.
  assert (Hiter : (iter < endIt)%nat) by (simpl in Hlen; lia).
  assert (Hright : forall x, In x (n :: rest) ->
             least (Map.key x) <= greatest e < greatest (Map.key x) ->
             proper (Map.key (right_remnant policy_ e x))).
  { intros x Hx Hxb. pose proof (proper_bounds _ (ordered_proper _ x Hord Hx)).
    simpl. lia. }
  destruct (Z.le_gt_cases (least e) (least (Map.key n))) as [Hle|Hlo].
  - (* the erasure starts at or before the first node *)
    destruct (erase_loop_tail e He (n :: rest) iter endIt endIt [] Hord)
      as (k & ins' & Hloop & Hk & Hskip & Hins); auto.
    { intros x [<-|Hx]; [assumption|]. specialize (Hlt _ Hx). lia. }
    exists k, ins'. rewrite Hloop, Nat.eqb_refl. repeat split; auto.
    + destruct Hins as [->|(x & Hx & Hxb & ->)]; [exact I|].
      apply ordered_one. simpl Map.key at 1. now apply Hright.
    + destruct Hins as [->|(x & Hx & Hxb & ->)]; [intros ? []|].
      intros y [<-|[]]. right. exists x. repeat split; auto; lia.
  - (* the first node sticks out on the left *)
    simpl erase_loop. rewrite isLeftOf_proper, isContaining_proper by assumption.
    destruct (Z.ltb_spec (greatest e) (least (Map.key n))); [lia|].
    destruct (Z.leb_spec (least e) (least (Map.key n))); [lia|]. simpl andb. cbv iota.
    rewrite !Z.gtb_ltb.
    destruct (Z.ltb_spec (least (Map.key n)) (least e)); [|lia]. simpl andb.
    rewrite Nat.eqb_refl.
    assert (Hleft : proper (Map.key (left_remnant policy_ e n))) by (simpl; lia).
    destruct (Z.ltb_spec (greatest e) (greatest (Map.key n))) as [Hmid|Hend].
    + (* the erasure lies inside the node *)
      rewrite wrap_succ by lia. rewrite splitInterval_ok by (auto; lia).
      simpl bind. simpl snd. simpl fst. simpl least at 1.
      destruct (split policy_ (Map.key n) (Map.value n) (greatest e + 1)) as [v1 rv] eqn:Esplit.
      rewrite Z.add_simpl_r.
      rewrite splitInterval_ok by (simpl; lia).
      simpl bind. simpl fst. simpl least.
      rewrite erase_loop_stop; auto.
      2:{ intros x Hx. specialize (Hlt _ Hx). lia. }
      rewrite !compare_unfold. simpl greatest.
      destruct (Z.ltb_spec (greatest (Map.key n)) (least e - 1)); [lia|].
      destruct (Z.ltb_spec (least e - 1) (greatest (Map.key n))); [|lia].
      assert (HL : (Range (least (Map.key n)) (least e - 1),
                    truncate policy_ (Range (least (Map.key n)) (greatest e)) v1 (least e))
                   = left_remnant policy_ e n).
      { unfold left_remnant, left_value. rewrite Esplit. simpl fst.
        destruct (Z.ltb_spec (greatest e) (greatest (Map.key n))); [|lia].
        now rewrite hull_range by lia. }
      assert (HR : (Range (greatest e + 1) (greatest (Map.key n)), rv)
                   = right_remnant policy_ e n).
      { unfold right_remnant, right_value. now rewrite Esplit. }
      rewrite HL, HR.
      exists 1%nat, [left_remnant policy_ e n; right_remnant policy_ e n].
      split; [|split; [|split; [|split]]].
      * f_equal. f_equal. f_equal. lia.
      * simpl. lia.
      * simpl. intros x Hx. specialize (Hlt _ Hx). lia.
      * apply ordered_two; auto.
        -- apply Hright; [now left | lia].
        -- simpl. lia.
      * intros x [<-|[<-|[]]].
        -- left. exists n. repeat split; auto; try lia. now left.
        -- right. exists n. repeat split; auto; try lia. now left.
    + (* the erasure reaches the end of the node *)
      destruct (Z.ltb_spec (greatest e) (greatest (Map.key n))); [lia|]. simpl andb. cbv iota.
      rewrite splitInterval_ok by (auto; lia).
      simpl bind. simpl fst.
      assert (Hleftval : (Range (least (Map.key n)) (least e - 1),
                          truncate policy_ (Map.key n) (Map.value n) (least e))
                         = left_remnant policy_ e n).
      { unfold left_remnant, left_value.
        destruct (Z.ltb_spec (greatest e) (greatest (Map.key n))); [lia | reflexivity]. }
      simpl Map.insert. rewrite Hleftval.
      assert (Hlen' : (S iter + length rest <= endIt)%nat) by (simpl in Hlen; lia).
      destruct (erase_loop_tail e He rest (S iter) endIt iter [left_remnant policy_ e n] Hord')
        as (k & ins' & Hloop & Hk & Hskip & Hins); auto.
      { intros x Hx. specialize (Hlt _ Hx). lia. }
      exists (S k), ins'. split; [etransitivity; [exact Hloop|] |split; [|split; [|split]]].
      * f_equal. f_equal. f_equal; [lia|]. simpl.
        destruct k; simpl; [reflexivity|].
        destruct (Nat.eqb_spec iter endIt); [lia | reflexivity].
      * simpl. lia.
      * exact Hskip.
      * destruct Hins as [->|(x & Hx & Hxb & ->)]; [now apply ordered_one|].
        rewrite insert_after by (simpl; lia).
        apply ordered_two; auto.
        -- apply Hright; [now right | lia].
        -- simpl. lia.
      * destruct Hins as [->|(x & Hx & Hxb & ->)].
        -- intros y [<-|[]]. left. exists n. repeat split; auto; try lia. now left.
        -- rewrite insert_after by (simpl; lia).
           intros y [<-|[<-|[]]].
           ++ left. exists n. repeat split; auto; try lia. now left.
           ++ right. exists x. repeat split; auto; try lia. now right.
Qed.

Lemma ordered_cases (m : Map) a b :
  ordered m -> In a m -> In b m ->
  a = b \/ greatest (Map.key a) < least (Map.key b)
  \/ greatest (Map.key b) < least (Map.key a).
Proof.
  induction m as [|n m IH]; simpl; [tauto|].
  intros (Hn & Hlt & Hm) [<-|Ha] [<-|Hb]; auto.
Qed.

Lemma ordered_skipn (m : Map) k : ordered m -> ordered (skipn k m).
Proof.
  intros H. rewrite <- (firstn_skipn k m) in H. now apply ordered_app in H.
Qed.

Lemma ordered_firstn (m : Map) k : ordered m -> ordered (firstn k m).
Proof.
  intros H. rewrite <- (firstn_skipn k m) in H. now apply ordered_app in H.
Qed.

Lemma from_erased_apart e (m : Map) x :
  proper e -> from_erased policy_ e m x -> apart e x.
Proof.
  intros He [(n & _ & Hb & ->)|(n & _ & Hb & ->)]; unfold apart; simpl; lia.
Qed.

Lemma erase_spec (m : Map) e :
  ordered m -> proper e ->
  exists m',
    erase nbits policy_ m e = Ok m'
    /\ ordered m'
    /\ (forall x, In x m' -> apart e x /\ (In x m \/ from_erased policy_ e m x)).
Proof.
  intros Hm He. pose proof (proper_bounds e He) as Heb.
  unfold erase. destruct e as [|le ge] eqn:Ee; [contradiction|]. rewrite <- Ee in *.
  replace (isEmpty e) with false by now rewrite Ee.
  set (lb := lowerBound m (least e)).
  pose proof (lowerBound_le m (least e)) as Hlb. fold lb in Hlb.
  pose proof (firstn_skipn lb m) as Hsplit.
  assert (Hpre : forall x, In x (firstn lb m) -> greatest (Map.key x) < least e)
    by (intros x; apply lowerBound_prefix).
  assert (Hrest : forall x, In x (skipn lb m) -> least e <= greatest (Map.key x))
    by (intros x; now apply lowerBound_suffix).
  assert (Hlen : (lb + length (skipn lb m) <= end_ m)%nat).
  { rewrite length_skipn. unfold end_. lia. }
  destruct (erase_loop_spec e He (skipn lb m) lb (end_ m) (ordered_skipn m lb Hm) Hrest Hlen)
    as (k & ins & Hloop & Hk & Hskip & Hins & Hfrom).
  rewrite Hloop. simpl bind.
  set (m1 := if ((if (k =? 0)%nat then end_ m else lb) =? end_ m)%nat
             then m else Map.eraseAtMultiple m (if (k =? 0)%nat then end_ m else lb) (lb + k)).
  assert (Hm1 : m1 = firstn lb m ++ skipn k (skipn lb m)).
  { unfold m1. destruct k as [|k]; simpl Nat.eqb; cbv iota.
    - rewrite Nat.eqb_refl. simpl. now rewrite Hsplit.
    - rewrite length_skipn in Hk. unfold end_.
      destruct (Nat.eqb_spec lb (length m)); [lia|].
      unfold Map.eraseAtMultiple. rewrite skipn_skipn. f_equal. f_equal. lia. }
  assert (Hord1 : ordered m1).
  { rewrite Hm1. rewrite <- Hsplit in Hm. apply ordered_app in Hm.
    destruct Hm as (H1 & H2 & H3). apply ordered_app. repeat split; auto.
    - now apply ordered_skipn.
    - intros x y Hx Hy. apply H3; auto. eapply in_skipn; eauto. }
  assert (Hin1 : forall x, In x m1 -> In x m /\ apart e x).
  { intros x Hx. rewrite Hm1 in Hx. apply in_app_or in Hx. destruct Hx as [Hx|Hx].
    - split; [eapply in_firstn; eauto | left; auto].
    - split; [eapply in_skipn; eapply in_skipn; eauto | right; auto]. }
  assert (Hfrom' : forall x, In x ins -> from_erased policy_ e m x).
  { intros x Hx. destruct (Hfrom x Hx) as [(n & Hn & H)|(n & Hn & H)]; [left|right];
      exists n; (split; [eapply in_skipn; eauto | assumption]). }
  destruct (insertMultiple_spec ins m1 Hord1 Hins) as [Hord' Hin'].
  { intros x y Hx Hy. destruct (Hin1 y Hy) as [Hym Hya].
    pose proof (proper_bounds _ (ordered_proper m y Hm Hym)) as Hyb.
    destruct (Hfrom' x Hx) as [(n & Hn & Hb & ->)|(n & Hn & Hb & ->)];
      unfold apart in *; simpl.
    - destruct (ordered_cases m n y Hm Hn Hym) as [<-|[H|H]]; lia.
    - destruct (ordered_cases m n y Hm Hn Hym) as [<-|[H|H]]; lia. }
  eexists. split; [reflexivity|]. split; [exact Hord'|].
  intros x Hx. apply Hin' in Hx. destruct Hx as [Hx|Hx].
  - destruct (Hin1 x Hx). auto.
  - split; [eapply from_erased_apart; eauto | right; auto].
Qed.

(** *** [insert] *)

Abbreviation stable := (IntervalMap.stable nbits policy_).
Abbreviation compact := (IntervalMap.compact policy_).

Lemma compact_incl (m m' : Map) :
  (forall x, In x m' -> In x m) -> compact m -> compact m'.
Proof. intros Hincl Hc a b Ha Hb. apply Hc; auto. Qed.

Lemma merge_left_spec (m : Map) key value m' key' value' :
  ordered m -> proper key -> (forall n, In n m -> apart key n) ->
  merge_left nbits policy_ m key value = (m', key', value') ->
  ordered m' /\ proper key'
  /\ (forall n, In n m' -> In n m /\ apart key' n)
  /\ least key' <= least key /\ greatest key' = greatest key
  /\ (stable -> compact m ->
      forall a, In a m' -> greatest (Map.key a) + 1 = least key' ->
                mergeable_at policy_ (Map.key a) (Map.value a) key' value' = false).
Proof.
  intros Hm Hk Hap. pose proof (proper_bounds key Hk) as Hkb.
  pose proof modulus_ge_2 as Hmod.
  assert (Hsame : (m', key', value') = (m, key, value) ->
            (forall a, In a m -> greatest (Map.key a) + 1 = least key ->
                       mergeable_at policy_ (Map.key a) (Map.value a) key value = false) ->
            ordered m' /\ proper key'
            /\ (forall n, In n m' -> In n m /\ apart key' n)
            /\ least key' <= least key /\ greatest key' = greatest key
            /\ (stable -> compact m ->
                forall a, In a m' -> greatest (Map.key a) + 1 = least key' ->
                  mergeable_at policy_ (Map.key a) (Map.value a) key' value' = false)).
  { intros [= -> -> ->] Hadj. repeat split; auto; lia. }
  unfold merge_left.
  destruct (Z.eq_dec (least key) 0) as [H0|H0].
  - replace (wrap (least key - 1)) with (modulus - 1)
      by (rewrite H0; symmetry; apply wrap_pred_zero).
    destruct (Z.ltb_spec (modulus - 1) (least key)); [lia|].
    intros E. apply Hsame; [congruence|].
    intros a Ha Hadj. pose proof (proper_bounds _ (ordered_proper m a Hm Ha)). lia.
  - rewrite wrap_pred by lia.
    destruct (Z.ltb_spec (least key - 1) (least key)); [|lia].
    destruct (nth_error m (find m (least key - 1))) as [l|] eqn:El.
    + pose proof (find_some m _ l Hm El) as Hl.
      pose proof (nth_error_In _ _ El) as Hlin.
      pose proof (proper_bounds _ (ordered_proper m l Hm Hlin)) as Hlb.
      assert (Hgl : greatest (Map.key l) = least key - 1).
      { destruct (Hap l Hlin); lia. }
      rewrite wrap_succ by lia. rewrite Hgl, Z.sub_add, Z.eqb_refl.
      destruct (merge policy_ (Map.key l) (Map.value l) key value) as [merged|] eqn:Emerge.
      * intros [= <- <- <-].
        destruct (eraseAt_spec m _ l Hm El) as [Hord Hin].
        rewrite hull_range by lia.
        split; [assumption|]. split; [simpl; lia|]. split; [|split; [simpl; lia|split; [reflexivity|]]].
        -- intros n Hn. destruct (Hin n Hn) as [Hnm Hside]. split; [assumption|].
           pose proof (proper_bounds _ (ordered_proper m n Hm Hnm)).
           destruct (Hap n Hnm); unfold apart in *; simpl; lia.
        -- intros Hst Hc a Ha Hadj. destruct (Hin a Ha) as [Ham _]. simpl in Hadj.
           rewrite <- (hull_range (least (Map.key l)) (greatest key)) by lia.
           rewrite (stable_merge_left _ _ _ Hst) with (v1 := Map.value l) (v2 := value);
             [now apply (Hc a l) | ..];
             try assumption; try (apply (ordered_proper m); assumption); lia.
      * intros E. apply Hsame; [congruence|].
        intros a Ha Hadj.
        pose proof (proper_bounds _ (ordered_proper m a Hm Ha)).
        assert (a = l) as -> by (apply (ordered_unique m a l (least key - 1)); auto; lia).
        unfold mergeable_at. now rewrite Emerge.
    + intros E. apply Hsame; [congruence|].
      intros a Ha Hadj. exfalso.
      pose proof (proper_bounds _ (ordered_proper m a Hm Ha)).
      apply (find_none m (least key - 1) a Hm El Ha). lia.
Qed.

Lemma merge_right_spec (m : Map) key value m' key' value' :
  ordered m -> proper key -> (forall n, In n m -> apart key n) ->
  merge_right nbits policy_ m key value = (m', key', value') ->
  ordered m' /\ proper key'
  /\ (forall n, In n m' -> In n m /\ apart key' n)
  /\ least key' = least key /\ greatest key <= greatest key'
  /\ (stable -> compact m ->
      (forall a, In a m -> greatest (Map.key a) + 1 = least key ->
                 mergeable_at policy_ (Map.key a) (Map.value a) key value = false) ->
      (forall a, In a m' -> greatest (Map.key a) + 1 = least key' ->
                 mergeable_at policy_ (Map.key a) (Map.value a) key' value' = false)
      /\ (forall b, In b m' -> greatest key' + 1 = least (Map.key b) ->
                    mergeable_at policy_ key' value' (Map.key b) (Map.value b) = false)).
Proof.
  intros Hm Hk Hap. pose proof (proper_bounds key Hk) as Hkb.
  pose proof modulus_ge_2 as Hmod.
  assert (Hsame : (m', key', value') = (m, key, value) ->
            (forall b, In b m -> greatest key + 1 = least (Map.key b) ->
                       mergeable_at policy_ key value (Map.key b) (Map.value b) = false) ->
            ordered m' /\ proper key'
            /\ (forall n, In n m' -> In n m /\ apart key' n)
            /\ least key' = least key /\ greatest key <= greatest key'
            /\ (stable -> compact m ->
                (forall a, In a m -> greatest (Map.key a) + 1 = least key ->
                   mergeable_at policy_ (Map.key a) (Map.value a) key value = false) ->
                (forall a, In a m' -> greatest (Map.key a) + 1 = least key' ->
                   mergeable_at policy_ (Map.key a) (Map.value a) key' value' = false)
                /\ (forall b, In b m' -> greatest key' + 1 = least (Map.key b) ->
                      mergeable_at policy_ key' value' (Map.key b) (Map.value b) = false))).
  { intros [= -> -> ->] Hadj. repeat split; auto; lia. }
  unfold merge_right. rewrite Z.gtb_ltb.
  destruct (Z.eq_dec (greatest key) (modulus - 1)) as [Hmax|Hmax].
  - replace (wrap (greatest key + 1)) with 0
      by (rewrite Hmax; symmetry; apply wrap_succ_max).
    destruct (Z.ltb_spec (greatest key) 0); [lia|].
    intros E. apply Hsame; [congruence|].
    intros b Hb Hadj. pose proof (proper_bounds _ (ordered_proper m b Hm Hb)). lia.
  - rewrite wrap_succ by lia.
    destruct (Z.ltb_spec (greatest key) (greatest key + 1)); [|lia].
    destruct (nth_error m (find m (greatest key + 1))) as [r|] eqn:Er.
    + pose proof (find_some m _ r Hm Er) as Hr.
      pose proof (nth_error_In _ _ Er) as Hrin.
      pose proof (proper_bounds _ (ordered_proper m r Hm Hrin)) as Hrb.
      assert (Hlr : least (Map.key r) = greatest key + 1).
      { destruct (Hap r Hrin); lia. }
      rewrite Hlr, Z.eqb_refl.
      destruct (merge policy_ key value (Map.key r) (Map.value r)) as [merged|] eqn:Emerge.
      * intros [= <- <- <-].
        destruct (eraseAt_spec m _ r Hm Er) as [Hord Hin].
        rewrite hull_range by lia.
        split; [assumption|]. split; [simpl; lia|]. split; [|split; [reflexivity|split; [simpl; lia|]]].
        -- intros n Hn. destruct (Hin n Hn) as [Hnm Hside]. split; [assumption|].
           pose proof (proper_bounds _ (ordered_proper m n Hm Hnm)).
           destruct (Hap n Hnm); unfold apart in *; simpl; lia.
        -- intros Hst Hc Hleft.
           rewrite <- (hull_range (least key) (greatest (Map.key r))) by lia.
           split.
           ++ intros a Ha Hadj. destruct (Hin a Ha) as [Ham _]. simpl in Hadj.
              rewrite Z.min_l in Hadj by lia.
              rewrite (stable_merge_left _ _ _ Hst) with (v1 := value) (v2 := Map.value r);
                [now apply Hleft | ..];
                try assumption; try (apply (ordered_proper m); assumption); lia.
           ++ intros b Hb Hadj. destruct (Hin b Hb) as [Hbm _]. simpl in Hadj.
              rewrite Z.max_r in Hadj by lia.
              rewrite (stable_merge_right _ _ _ Hst) with (v1 := value) (v2 := Map.value r);
                [now apply (Hc r b) | ..];
                try assumption; try (apply (ordered_proper m); assumption); lia.
      * intros E. apply Hsame; [congruence|].
        intros b Hb Hadj.
        pose proof (proper_bounds _ (ordered_proper m b Hm Hb)).
        assert (b = r) as -> by (apply (ordered_unique m b r (greatest key + 1)); auto; lia).
        unfold mergeable_at. now rewrite Emerge.
    + intros E. apply Hsame; [congruence|].
      intros b Hb Hadj. exfalso.
      pose proof (proper_bounds _ (ordered_proper m b Hm Hb)).
      apply (find_none m (greatest key + 1) b Hm Er Hb). lia.
Qed.

Lemma insert_merging_spec (m : Map) key value :
  ordered m -> proper key -> (forall n, In n m -> apart key n) ->
  ordered (insert_merging nbits policy_ m key value)
  /\ (exists n, In n (insert_merging nbits policy_ m key value)
                /\ least (Map.key n) <= least key
                /\ greatest key <= greatest (Map.key n))
  /\ (stable -> compact m -> compact (insert_merging nbits policy_ m key value)).
Proof.
  intros Hm Hk Hap. unfold insert_merging.
  destruct (merge_left nbits policy_ m key value) as [[m1 key1] value1] eqn:E1.
  destruct (merge_left_spec _ _ _ _ _ _ Hm Hk Hap E1)
    as (Hm1 & Hk1 & Hin1 & Hl1 & Hg1 & Hadj1).
  destruct (merge_right nbits policy_ m1 key1 value1) as [[m2 key2] value2] eqn:E2.
  destruct (merge_right_spec _ _ _ _ _ _ Hm1 Hk1 (fun n Hn => proj2 (Hin1 n Hn)) E2)
    as (Hm2 & Hk2 & Hin2 & Hl2 & Hg2 & Hadj2).
  assert (Hne : forall n, In n m2 -> greatest (Map.key n) <> greatest key2).
  { intros n Hn. apply apart_neq; auto.
    - apply (ordered_proper m2); assumption.
    - now apply Hin2. }
  split; [|split].
  - apply insert_ordered; auto. intros n Hn. now apply Hin2.
  - exists (key2, value2). split; [apply insert_In; auto|]. simpl. lia.
  - intros Hst Hc.
    assert (Hc1 : compact m1) by (apply (compact_incl m); [apply Hin1 | assumption]).
    destruct (Hadj2 Hst Hc1 (Hadj1 Hst Hc)) as [Hleft Hright].
    pose proof (proper_bounds _ Hk2) as Hkb.
    intros a b Ha Hb Hadj. unfold mergeable.
    apply insert_In in Ha, Hb; auto.
    destruct Ha as [->|Ha], Hb as [->|Hb]; simpl in *.
    + lia.
    + now apply Hright.
    + now apply Hleft.
    + apply (Hc a b); auto; [apply Hin1 | apply Hin1]; now apply Hin2.
Qed.

(** The remnants of a node behave, for the policy, as the node did towards
    the neighbour on the side that was not cut. *)
Lemma left_remnant_stable e n a :
  stable -> proper e -> proper (Map.key n) -> proper (Map.key a) ->
  least (Map.key n) < least e <= greatest (Map.key n) ->
  greatest (Map.key a) + 1 = least (Map.key n) ->
  mergeable policy_ a (left_remnant policy_ e n) = mergeable policy_ a n.
Proof.
  intros Hst He Hn Ha Hb Hadj.
  pose proof (proper_bounds e He). pose proof (proper_bounds _ Hn).
  unfold mergeable, left_remnant, left_value. simpl Map.key. simpl Map.value.
  rewrite <- (hull_range (least (Map.key n)) (least e - 1)) by lia.
  destruct (Z.ltb_spec (greatest e) (greatest (Map.key n))).
  - rewrite hull_range with (b := greatest e) by lia.
    change (least (Map.key n)) with (least (Range (least (Map.key n)) (greatest e))) at 1.
    rewrite (stable_truncate _ _ _ Hst); simpl; auto; try lia.
    replace (Range (least (Map.key n)) (greatest e))
      with (hull (least (Map.key n)) (greatest e + 1 - 1))
      by (rewrite Z.add_simpl_r; apply hull_range; lia).
    rewrite (stable_split_left _ _ _ Hst); auto; lia.
  - rewrite (stable_truncate _ _ _ Hst); auto; lia.
Qed.

Lemma right_remnant_stable e n b :
  stable -> proper e -> proper (Map.key n) -> proper (Map.key b) ->
  least (Map.key n) <= greatest e < greatest (Map.key n) ->
  greatest (Map.key n) + 1 = least (Map.key b) ->
  mergeable policy_ (right_remnant policy_ e n) b = mergeable policy_ n b.
Proof.
  intros Hst He Hn Hb' Hb Hadj.
  pose proof (proper_bounds e He). pose proof (proper_bounds _ Hn).
  unfold mergeable, right_remnant, right_value. simpl Map.key. simpl Map.value.
  rewrite <- (hull_range (greatest e + 1) (greatest (Map.key n))) by lia.
  rewrite (stable_split_right _ _ _ Hst); auto; lia.
Qed.

Lemma erase_compact (m m' : Map) e :
  stable -> ordered m -> proper e -> compact m -> ordered m' ->
  (forall x, In x m' -> apart e x /\ (In x m \/ from_erased policy_ e m x)) ->
  compact m'.
Proof.
  intros Hst Hm He Hc Hm' Hin a b Ha Hb Hadj.
  pose proof (proper_bounds e He) as Heb.
  pose proof (ordered_proper m' a Hm' Ha) as Hpa.
  pose proof (ordered_proper m' b Hm' Hb) as Hpb.
  pose proof (proper_bounds _ Hpa) as Hab. pose proof (proper_bounds _ Hpb) as Hbb.
  destruct (Hin a Ha) as [Hea [Ham|Haf]], (Hin b Hb) as [Heb' [Hbm|Hbf]];
    unfold apart in Hea, Heb'.
  - now apply Hc.
  - destruct Hbf as [(n & Hn & Hnb & ->)|(n & Hn & Hnb & ->)]; simpl in *; [|lia].
    rewrite left_remnant_stable;
      [now apply Hc | try assumption; try (now apply (ordered_proper m)) ..].
  - destruct Haf as [(n & Hn & Hnb & ->)|(n & Hn & Hnb & ->)]; simpl in *; [lia|].
    rewrite right_remnant_stable;
      [now apply Hc | try assumption; try (now apply (ordered_proper m)) ..].
  - destruct Haf as [(n & Hn & Hnb & ->)|(n & Hn & Hnb & ->)],
             Hbf as [(n' & Hn' & Hnb' & ->)|(n' & Hn' & Hnb' & ->)]; simpl in *; lia.
Qed.

Lemma insert_spec (m : Map) key value makeHole :
  ordered m -> proper key ->
  exists m',
    insert nbits policy_ m key value makeHole = Ok m'
    /\ ordered m'
    /\ (stable -> compact m -> compact m')
    /\ (makeHole = true ->
        exists n, In n m' /\ least (Map.key n) <= least key
                  /\ greatest key <= greatest (Map.key n)).
Proof.
  intros Hm Hk. pose proof (proper_bounds key Hk) as Hkb.
  unfold insert. replace (isEmpty key) with false by (destruct key; [contradiction | reflexivity]).
  destruct makeHole.
  - destruct (erase_spec m key Hm Hk) as (m1 & -> & Hm1 & Hin1). simpl bind.
    destruct (insert_merging_spec m1 key value Hm1 Hk (fun n Hn => proj1 (Hin1 n Hn)))
      as (Ho & Hn & Hc).
    eexists. split; [reflexivity|]. split; [assumption|]. split; [|auto].
    intros Hst Hcm. apply Hc; [assumption|]. now apply (erase_compact m m1 key).
  - assert (Hfree : (forall n, In n m -> apart key n) ->
              exists m', Ok (insert_merging nbits policy_ m key value) = Ok m'
                         /\ ordered m' /\ (stable -> compact m -> compact m')
                         /\ (false = true -> exists n, In n m' /\ least (Map.key n) <= least key
                                                    /\ greatest key <= greatest (Map.key n))).
    { intros Hap. destruct (insert_merging_spec m key value Hm Hk Hap) as (Ho & _ & Hc).
      eexists. split; [reflexivity|]. repeat split; auto. discriminate. }
    pose proof (firstn_skipn (lowerBound m (least key)) m) as Hsplit.
    destruct (nth_error m (lowerBound m (least key))) as [n|] eqn:En.
    + pose proof (nth_error_In _ _ En) as Hn.
      rewrite isOverlapping_proper by (auto; now apply (ordered_proper m)).
      assert (Hgn : least key <= greatest (Map.key n)).
      { apply (lowerBound_suffix m _ n Hm). rewrite (skipn_nth_error _ _ _ En). now left. }
      destruct (Z.leb_spec (least key) (greatest (Map.key n))); [|lia]. simpl andb.
      destruct (Z.leb_spec (least (Map.key n)) (greatest key)).
      * exists m. repeat split; auto. discriminate.
      * apply Hfree. intros x Hx. rewrite <- Hsplit in Hx. apply in_app_or in Hx.
        destruct Hx as [Hx|Hx]; [left; now apply lowerBound_prefix in Hx|].
        right. rewrite (skipn_nth_error _ _ _ En) in Hx. destruct Hx as [<-|Hx]; [assumption|].
        pose proof (proper_bounds _ (ordered_proper m n Hm Hn)).
        pose proof Hm as Hm2.
        rewrite <- Hsplit, (skipn_nth_error _ _ _ En) in Hm2.
        apply ordered_app in Hm2. destruct Hm2 as (_ & (_ & Hlt & _) & _).
        specialize (Hlt _ Hx). lia.
    + apply Hfree. intros x Hx. left.
      apply nth_error_None in En. rewrite firstn_all2 in Hsplit by assumption.
      apply (lowerBound_prefix m). now rewrite firstn_all2.
Qed.

(** *** Runs of operations *)

Lemma erase_valid_spec (m : Map) e :
  ordered m -> valid nbits e ->
  exists m', erase nbits policy_ m e = Ok m' /\ ordered m'
             /\ (stable -> compact m -> compact m').
Proof.
  intros Hm He. destruct e as [|lo hi].
  - exists m. repeat split; auto.
  - destruct (erase_spec m (Range lo hi) Hm He) as (m' & E & Hm' & Hin).
    exists m'. repeat split; auto.
    intros Hst Hc. now apply (erase_compact m m' (Range lo hi)).
Qed.

Lemma insert_valid_spec (m : Map) key value makeHole :
  ordered m -> valid nbits key ->
  exists m', insert nbits policy_ m key value makeHole = Ok m' /\ ordered m'
             /\ (stable -> compact m -> compact m').
Proof.
  intros Hm Hk. destruct key as [|lo hi].
  - exists m. repeat split; auto.
  - destruct (insert_spec m (Range lo hi) value makeHole Hm Hk) as (m' & E & Hm' & Hc & _).
    exists m'. repeat split; auto.
Qed.

Lemma valid_cases e : valid nbits e -> e = Empty \/ proper e.
Proof. destruct e; simpl; auto. Qed.

Lemma proper_valid e : proper e -> valid nbits e.
Proof. destruct e; simpl; auto. Qed.

(** The keys of a container are intervals of the scalar type. *)
Lemma ordered_valid_keys (m : Map) : ordered m -> valid_keys nbits m.
Proof.
  intros Hm. apply Forall_forall. intros n Hn.
  apply proper_valid. now apply (ordered_proper m).
Qed.

(** The loops of [eraseMultiple] and [insertMultiple] keep the invariants,
    whatever nodes they visit. *)
Lemma eraseMultiple_loop_spec nodes : forall (m : Map),
  ordered m -> valid_keys nbits nodes ->
  exists m', eraseMultiple_loop nbits policy_ m nodes = Ok m' /\ ordered m'
             /\ (stable -> compact m -> compact m').
Proof.
  induction nodes as [|oi nodes IH]; intros m Hm Hv; simpl.
  - exists m. repeat split; auto.
  - inversion Hv as [|? ? Hoi Hnodes]; subst.
    destruct (erase_valid_spec m (Map.key oi) Hm Hoi) as (m1 & -> & Hm1 & Hc1). simpl bind.
    destruct (IH m1 Hm1 Hnodes) as (m' & E & Hm' & Hc').
    exists m'. repeat split; auto.
Qed.

Lemma insertMultiple_loop_spec nodes makeHole : forall (m : Map),
  ordered m -> valid_keys nbits nodes ->
  exists m', insertMultiple_loop nbits policy_ m nodes makeHole = Ok m'
             /\ ordered m' /\ (stable -> compact m -> compact m').
Proof.
  induction nodes as [|oi nodes IH]; intros m Hm Hv; simpl.
  - exists m. repeat split; auto.
  - inversion Hv as [|? ? Hoi Hnodes]; subst.
    destruct (insert_valid_spec m (Map.key oi) (Map.value oi) makeHole Hm Hoi)
      as (m1 & -> & Hm1 & Hc1). simpl bind.
    destruct (IH m1 Hm1 Hnodes) as (m' & E & Hm' & Hc').
    exists m'. repeat split; auto.
Qed.

Lemma foreign_dec (op : Op T) : foreign op \/ ~ foreign op.
Proof.
  destruct op as [key value makeHole|erasure|[|nodes] makeHole|[|nodes]|];
    try (right; intros [x H]; discriminate); left; now exists nodes.
Qed.

(** An operation aborts when it is handed a container other than the one
    it works on, and returns otherwise, keeping the invariants. *)
Lemma perform_spec (m : Map) op :
  ordered m -> valid_op nbits op ->
  (foreign op -> perform nbits policy_ m op = Fatal)
  /\ (~ foreign op ->
      exists m', perform nbits policy_ m op = Ok m' /\ ordered m'
                 /\ (stable -> compact m -> compact m')).
Proof.
  intros Hm Hv.
  destruct op as [key value makeHole|erasure|[|nodes] makeHole|[|nodes]|]; simpl in *.
  - split; [intros [x H]; discriminate | intros _; now apply insert_valid_spec].
  - split; [intros [x H]; discriminate | intros _; now apply erase_valid_spec].
  - split; [intros [x H]; discriminate|]. intros _.
    apply insertMultiple_loop_spec; [assumption | now apply ordered_valid_keys].
  - split; [reflexivity|]. intros Hf. exfalso. apply Hf. now exists nodes.
  - contradiction.
  - split; [reflexivity|]. intros Hf. exfalso. apply Hf. now exists nodes.
  - split; [intros [x H]; discriminate|]. intros _.
    exists []. repeat split; auto. intros _ _ a b [].
Qed.

Lemma run_keeps ops : forall (m m' : Map),
  ordered m -> Forall (valid_op nbits) ops ->
  run nbits policy_ m ops = Ok m' ->
  ordered m' /\ (stable -> compact m -> compact m').
Proof.
  induction ops as [|op ops IH]; intros m m' Hm Hv; simpl.
  - intros [= <-]. auto.
  - inversion Hv as [|? ? Hop Hops]; subst.
    destruct (perform_spec m op Hm Hop) as [Hfatal Hok].
    destruct (foreign_dec op) as [Hf|Hf].
    + rewrite (Hfatal Hf). discriminate.
    + destruct (Hok Hf) as (m1 & -> & Hm1 & Hc1). simpl bind. intros Hrun.
      destruct (IH m1 m' Hm1 Hops Hrun) as [Hm' Hc']. auto.
Qed.

Lemma run_returns ops : forall (m : Map),
  ordered m -> Forall (valid_op nbits) ops ->
  Forall (fun op => container_of op = None) ops ->
  exists m', run nbits policy_ m ops = Ok m'.
Proof.
  induction ops as [|op ops IH]; intros m Hm Hv Hs; simpl.
  - now exists m.
  - inversion Hv as [|? ? Hop Hops]; subst. inversion Hs as [|? ? Hnone Hs']; subst.
    destruct (perform_spec m op Hm Hop) as [_ Hok].
    destruct Hok as (m1 & -> & Hm1 & _).
    + intros [x H]. congruence.
    + simpl bind. now apply IH.
Qed.

Lemma run_foreign ops : forall (m : Map),
  ordered m -> Forall (valid_op nbits) ops ->
  Exists (@foreign T) ops ->
  run nbits policy_ m ops = Fatal.
Proof.
  induction ops as [|op ops IH]; intros m Hm Hv Hex; simpl.
  - inversion Hex.
  - inversion Hv as [|? ? Hop Hops]; subst.
    destruct (perform_spec m op Hm Hop) as [Hfatal Hok].
    destruct (foreign_dec op) as [Hf|Hf].
    + now rewrite (Hfatal Hf).
    + destruct (Hok Hf) as (m1 & -> & Hm1 & _). simpl bind.
      inversion Hex; subst; [contradiction | now apply IH].
Qed.

Lemma ordered_distinct (m : Map) i j a b :
  ordered m -> i <> j ->
  nth_error m i = Some a -> nth_error m j = Some b ->
  isOverlapping (Map.key a) (Map.key b) = false.
Proof.
  intros Hm Hij Ha Hb.
  pose proof (ordered_proper m a Hm (nth_error_In _ _ Ha)) as Hpa.
  pose proof (ordered_proper m b Hm (nth_error_In _ _ Hb)) as Hpb.
  rewrite isOverlapping_proper by assumption.
  destruct (Nat.lt_total i j) as [Hlt|[Heq|Hgt]]; [|contradiction|].
  - pose proof (ordered_nth_lt m i j a b Hm Hlt Ha Hb).
    destruct (Z.leb_spec (least (Map.key b)) (greatest (Map.key a))); [lia|].
    apply andb_false_r.
  - pose proof (ordered_nth_lt m j i b a Hm Hgt Hb Ha).
    destruct (Z.leb_spec (least (Map.key a)) (greatest (Map.key b))); [lia|].
    reflexivity.
Qed.

(** C1, as amended.  When a run of mutating operations from the empty map
    returns, no two nodes of the map it returns overlap, whatever the
    policy, and, when the policy is stable, no node whose key ends just
    before the key of another node would merge with it.  A run of [insert],
    [erase] and [clear] always returns; a run in which [insertMultiple] or
    [eraseMultiple] is handed a container other than the one it works on
    aborts. *)
Theorem run_invariants (ops : list (Op T)) :
  Forall (valid_op nbits) ops ->
  (forall m,
     run nbits policy_ [] ops = Ok m ->
     (forall i j a b, i <> j ->
        nth_error m i = Some a -> nth_error m j = Some b ->
        isOverlapping (Map.key a) (Map.key b) = false)
     /\ (stable ->
         forall i j a b,
           nth_error m i = Some a -> nth_error m j = Some b ->
           greatest (Map.key a) + 1 = least (Map.key b) ->
           mergeable policy_ a b = false))
  /\ (Forall (fun op => container_of op = None) ops ->
      exists m, run nbits policy_ [] ops = Ok m)
  /\ (Exists (@foreign T) ops -> run nbits policy_ [] ops = Fatal).
Proof.
  intros Hv. split; [|split].
  - intros m E. destruct (run_keeps ops [] m I Hv E) as [Hm Hc]. split.
    + intros i j a b. now apply ordered_distinct.
    + intros Hst i j a b Ha Hb Hadj.
      apply Hc; auto.
      * intros x y [].
      * eapply nth_error_In; eauto.
      * eapply nth_error_In; eauto.
  - now apply run_returns.
  - now apply run_foreign.
Qed.

(** C4.  After [insert(I, v)] with [makeHole] set, [contains(I)] returns
    true, for the empty interval as well. *)
Theorem insert_contains (m : Map) key value :
  ordered m -> valid nbits key ->
  exists m',
    insert nbits policy_ m key value true = Ok m'
    /\ contains nbits m' key = Ok true.
Proof.
  intros Hm Hk. destruct key as [|lo hi].
  - exists m. split; reflexivity.
  - destruct (insert_spec m (Range lo hi) value true Hm Hk) as (m' & E & Hm' & _ & Hn).
    destruct (Hn eq_refl) as (n & Hin & Hl & Hg).
    exists m'. split; [assumption|].
    pose proof (proper_bounds _ (ordered_proper m' n Hm' Hin)) as Hnb.
    pose proof (proper_bounds _ Hk) as Hkb.
    unfold contains. simpl isEmpty. cbv iota.
    assert (Hf : nth_error m' (find m' (least (Range lo hi))) = Some n)
      by (apply find_complete; auto; lia).
    rewrite (skipn_nth_error _ _ _ Hf). simpl contains_loop. simpl in Hl, Hg, Hkb.
    destruct (Z.ltb_spec lo (least (Map.key n))); [lia|].
    destruct (Map.key n) as [|ln gn] eqn:Ekey; simpl in *; [lia|].
    destruct (Z.leb_spec lo gn); [|lia].
    destruct (Z.leb_spec ln hi); [|lia]. simpl.
    destruct (Z.leb_spec hi gn); [reflexivity | lia].
Qed.

(** C8, as amended.  [insert] with the empty interval returns normally and
    leaves the map as it was. *)
Theorem insert_empty (m : Map) value makeHole :
  insert nbits policy_ m Empty value makeHole = Ok m.
Proof. reflexivity. Qed.

(** *** [bestFit] *)

Lemma size_nonneg i : 0 <= Interval.size nbits i.
Proof.
  destruct i as [|lo hi]; simpl; [lia|].
  unfold Interval.wrap. apply Z.mod_pos_bound. pose proof modulus_ge_2. lia.
Qed.

Lemma size_whole : Interval.size nbits (whole nbits) = 0.
Proof.
  unfold whole. simpl. replace (modulus - 1 - 0 + 1) with modulus by lia.
  unfold Interval.wrap. apply Z.mod_same. pose proof modulus_ge_2. lia.
Qed.

Lemma size_at_nth (m : Map) i n :
  nth_error m i = Some n -> size_at nbits m i = Interval.size nbits (Map.key n).
Proof. intros H. unfold size_at. now rewrite H. Qed.

Lemma bestFit_loop_spec (m : Map) size start :
  0 <= size ->
  forall rest iter best,
    skipn iter m = rest -> (start <= iter)%nat ->
    best_so_far nbits m size start iter best ->
    best_fit nbits m size start (bestFit_loop nbits T m size rest iter best).
Proof.
  intros Hsize. unfold best_so_far, best_fit, fits.
  induction rest as [|n rest IH]; intros iter best Hskip Hstart Hinv.
  - simpl.
    assert (Hend : (length m <= iter)%nat).
    { destruct (Nat.le_gt_cases (length m) iter) as [H|H]; [assumption|].
      apply (f_equal (@length _)) in Hskip. rewrite length_skipn in Hskip. simpl in Hskip. lia. }
    destruct Hinv as [[-> Hall]|(Hb & Hbest & Hfit & Hmin)].
    + left. split; [reflexivity|]. intros i Hi. apply Hall. lia.
    + right. split; [lia|]. split; [lia|]. intros i Hi. apply Hmin. lia.
  - pose proof (skipn_head _ _ _ _ Hskip) as Hn.
    assert (Hiter : (iter < length m)%nat) by (apply nth_error_Some; congruence).
    assert (Hskip' : skipn (S iter) m = rest).
    { rewrite (skipn_nth_error _ _ _ Hn) in Hskip. now injection Hskip. }
    pose proof (size_at_nth m iter n Hn) as Hsz.
    pose proof (size_nonneg (Map.key n)) as Hpos.
    simpl bestFit_loop. rewrite <- Hsz in *.
    destruct (Z.eqb_spec (size_at nbits m iter) size) as [Heq|Hne]; simpl andb.
    + destruct (Z.eqb_spec size 0) as [H0|H0]; simpl negb; cbv iota.
      * (* a request for nothing: a node of size zero is passed over *)
        rewrite Z.gtb_ltb.
        destruct (Z.ltb_spec size (size_at nbits m iter)); [lia|]. simpl andb.
        apply IH; [assumption | lia |].
        destruct Hinv as [[-> Hall]|(Hb & Hbl & Hbfit & Hmin)].
        -- left. split; [reflexivity|]. intros i Hi.
           destruct (Nat.eq_dec i iter) as [->|Hneq]; [lia|]. apply Hall. lia.
        -- right. split; [lia|]. split; [assumption|]. split; [assumption|].
           intros i Hi Hfit.
           destruct (Nat.eq_dec i iter) as [->|Hneq]; [lia|].
           apply Hmin; [lia | assumption].
      * right. split; [lia|]. split; [lia|].
        intros i Hi Hfit. split; [lia|]. intros Hlt.
        destruct Hinv as [[_ Hall]|(Hb & Hbl & Hbfit & Hmin)].
        -- specialize (Hall i ltac:(lia)). lia.
        -- destruct (Hmin i ltac:(lia) Hfit). lia.
    + rewrite Z.gtb_ltb.
      destruct (Z.ltb_spec size (size_at nbits m iter)) as [Hgt|Hle]; simpl andb.
      * destruct ((best =? end_ m)%nat || (size_at nbits m iter <? size_at nbits m best)) eqn:Hbetter.
        -- apply IH; [assumption | lia |].
           right. split; [lia|]. split; [assumption|]. split; [assumption|].
           intros i Hi Hfit.
           destruct (Nat.eq_dec i iter) as [->|Hneq]; [split; lia|].
           destruct Hinv as [[_ Hall]|(Hb & Hbl & Hbfit & Hmin)].
           ++ specialize (Hall i ltac:(lia)). lia.
           ++ destruct (Hmin i ltac:(lia) Hfit) as [Hle' _].
              apply orb_prop in Hbetter. destruct Hbetter as [Hbe|Hlt].
              ** apply Nat.eqb_eq in Hbe. unfold end_ in Hbe. lia.
              ** apply Z.ltb_lt in Hlt. lia.
        -- apply IH; [assumption | lia |].
           apply orb_false_elim in Hbetter. destruct Hbetter as [Hbe Hlt].
           apply Nat.eqb_neq in Hbe. apply Z.ltb_ge in Hlt.
           destruct Hinv as [[-> _]|(Hb & Hbl & Hbfit & Hmin)]; [contradiction|].
           right. split; [lia|]. split; [assumption|]. split; [assumption|].
           intros i Hi Hfit.
           destruct (Nat.eq_dec i iter) as [->|Hneq]; [split; lia|].
           apply Hmin; [lia | assumption].
      * apply IH; [assumption | lia |].
        destruct Hinv as [[-> Hall]|(Hb & Hbl & Hbfit & Hmin)].
        -- left. split; [reflexivity|]. intros i Hi.
           destruct (Nat.eq_dec i iter) as [->|Hneq]; [lia|]. apply Hall. lia.
        -- right. split; [lia|]. split; [assumption|]. split; [assumption|].
           intros i Hi Hfit.
           destruct (Nat.eq_dec i iter) as [->|Hneq]; [lia|].
           apply Hmin; [lia | assumption].
Qed.

(** What [bestFit] computes, for every map: the first of the smallest nodes
    among those whose size, as the scalar type holds it, is not zero and is
    at least the size requested.  A node that spans the whole domain, whose
    size overflows to zero, is never among them. *)
Lemma bestFit_spec (m : Map) size start :
  0 <= size ->
  best_fit nbits m size start (bestFit nbits m size start).
Proof.
  intros Hsize. unfold bestFit. apply bestFit_loop_spec; auto.
  left. split; [reflexivity|]. intros i Hi. lia.
Qed.

(** C6, at the input where the code departs from it.  For a map whose one
    node spans the whole domain, [bestFit] returns the end iterator for
    every requested size, although the node is large enough ([isLarge]) and
    [firstFit] returns it. *)
Theorem bestFit_whole_domain (value : T) (size : Z) :
  0 <= size ->
  bestFit nbits [(whole nbits, value)] size 0 = end_ [(whole nbits, value)]
  /\ isLarge nbits (whole nbits) size = true
  /\ firstFit nbits [(whole nbits, value)] size 0 = 0%nat.
Proof.
  intros Hsize. unfold bestFit, firstFit.
  cbn [skipn bestFit_loop firstFit_loop Map.key fst]. unfold isLarge.
  rewrite !size_whole. split; [|split; reflexivity].
  rewrite Z.gtb_ltb. destruct (Z.ltb_spec size 0); [lia|].
  rewrite (Z.eqb_sym 0 size). now destruct (size =? 0).
Qed.

(** *** Searching and lookups *)

Lemma find_le (m : Map) s : (find m s <= end_ m)%nat.
Proof.
  unfold find. pose proof (lowerBound_le m s) as H. unfold end_ in *.
  destruct (nth_error m (lowerBound m s)); [|lia].
  destruct (s <? least (Map.key n)); lia.
Qed.

Lemma mapped_find (m : Map) s :
  ordered m -> Queries.mapped m s ->
  exists n, nth_error m (find m s) = Some n /\ In n m /\ Queries.covers n s.
Proof.
  intros Hm (n & Hn & Hs). exists n. split; [|auto].
  now apply find_complete.
Qed.

Lemma unmapped_find (m : Map) s :
  ordered m -> ~ Queries.mapped m s -> nth_error m (find m s) = None.
Proof.
  intros Hm Hs. destruct (nth_error m (find m s)) as [n|] eqn:E; [|reflexivity].
  exfalso. apply Hs. exists n. split; [eapply nth_error_In; eauto|].
  now apply (find_some m).
Qed.

Lemma find_end (m : Map) s :
  ordered m -> find m s = end_ m -> ~ Queries.mapped m s.
Proof.
  intros Hm Hend (n & Hn & Hs).
  pose proof (find_complete m s n Hm Hn Hs) as E.
  rewrite Hend, nth_error_end in E. discriminate.
Qed.

(** X1.  [find] returns the node whose key holds the scalar, and the end
    iterator exactly when no node does. *)
Theorem find_spec (m : Map) (s : Z) :
  ordered m ->
  (forall n, nth_error m (find m s) = Some n -> Queries.covers n s)
  /\ (forall n, In n m -> Queries.covers n s -> nth_error m (find m s) = Some n)
  /\ (find m s = end_ m <-> ~ Queries.mapped m s).
Proof.
  intros Hm. split; [|split].
  - intros n Hn. now apply (find_some m).
  - intros n Hn Hs. now apply find_complete.
  - split.
    + now apply find_end.
    + intros Hs. apply unmapped_find in Hs; [|assumption].
      apply nth_error_None in Hs. pose proof (find_le m s). unfold end_ in *. lia.
Qed.

(** X2.  The four lookups agree: on a mapped scalar they give the value of
    the node that holds it; on any other scalar [operator[]] throws,
    [getOptional] gives nothing and the other two give the default. *)
Theorem lookup_spec (m : Map) (s : Z) (dflt : T) :
  ordered m ->
  (forall v, Queries.maps_to m s v ->
     Queries.index m s = Queries.Found v
     /\ Queries.getOptional m s = Some v
     /\ Queries.getOrElse m s dflt = v
     /\ Queries.getOrDefault dflt m s = v)
  /\ (~ Queries.mapped m s ->
      Queries.index m s = Queries.domain_error
      /\ Queries.getOptional m s = None
      /\ Queries.getOrElse m s dflt = dflt
      /\ Queries.getOrDefault dflt m s = dflt).
Proof.
  intros Hm. split.
  - intros v (n & Hn & Hs & Hv).
    unfold Queries.index, Queries.getOptional, Queries.getOrElse, Queries.getOrDefault.
    rewrite (find_complete m s n Hm Hn Hs). subst v. auto.
  - intros Hs. apply unmapped_find in Hs; [|assumption].
    unfold Queries.index, Queries.getOptional, Queries.getOrElse, Queries.getOrDefault.
    rewrite Hs. auto.
Qed.

Lemma getOptional_some (m : Map) s v :
  ordered m -> (Queries.getOptional m s = Some v <-> Queries.maps_to m s v).
Proof.
  intros Hm. unfold Queries.getOptional. split.
  - destruct (nth_error m (find m s)) as [n|] eqn:E; [|discriminate].
    intros [= <-]. exists n. split; [eapply nth_error_In; eauto|].
    split; [now apply (find_some m) | reflexivity].
  - intros (n & Hn & Hs & <-). now rewrite (find_complete m s n Hm Hn Hs).
Qed.

Lemma getOptional_none (m : Map) s :
  ordered m -> (Queries.getOptional m s = None <-> ~ Queries.mapped m s).
Proof.
  intros Hm. unfold Queries.getOptional. split.
  - destruct (nth_error m (find m s)) as [n|] eqn:E; [discriminate|].
    intros _ (n & Hn & Hs). rewrite (find_complete m s n Hm Hn Hs) in E. discriminate.
  - intros Hs. now rewrite (unmapped_find m s Hm Hs).
Qed.

Lemma nth_error_firstn_lt (m : Map) i j n :
  nth_error m j = Some n -> (j < i)%nat -> In n (firstn i m).
Proof.
  revert i j. induction m as [|a m IH]; intros i j Hn Hj; [now destruct j|].
  destruct i as [|i]; [lia|]. destruct j as [|j]; simpl in *.
  - left. congruence.
  - right. apply (IH i j); [assumption | lia].
Qed.

Lemma nth_error_skipn_ge (m : Map) i j n :
  nth_error m j = Some n -> (i <= j)%nat -> In n (skipn i m).
Proof.
  revert i j. induction m as [|a m IH]; intros i j Hn Hj; [now destruct j|].
  destruct i as [|i]; [eapply nth_error_In; eauto|].
  destruct j as [|j]; [lia|]. simpl in *. apply (IH i j); [assumption | lia].
Qed.

Lemma in_split_at (m : Map) i n :
  In n m -> In n (firstn i m) \/ In n (skipn i m).
Proof.
  intros H. rewrite <- (firstn_skipn i m) in H. now apply in_app_or in H.
Qed.

Lemma findPrior_cases (m : Map) (s : Z) :
  ordered m ->
  (Queries.findPrior m s = end_ m
   /\ forall n, In n m -> s < least (Map.key n))
  \/ (exists n, nth_error m (Queries.findPrior m s) = Some n
                /\ least (Map.key n) <= s
                /\ forall j n', (Queries.findPrior m s < j)%nat ->
                     nth_error m j = Some n' -> s < least (Map.key n')).
Proof.
  intros Hm. unfold Queries.findPrior.
  destruct m as [|n0 m0] eqn:Em; [left; split; [reflexivity | intros ? []]|].
  rewrite <- Em in *. replace (Queries.isEmpty m) with false by now rewrite Em.
  cbv zeta.
  set (lb := lowerBound m s).
  pose proof (lowerBound_le m s) as Hlb. fold lb in Hlb.
  assert (Hpre : forall x, In x (firstn lb m) -> greatest (Map.key x) < s)
    by (intros x; apply lowerBound_prefix).
  assert (Hsuf : forall x, In x (skipn lb m) -> s <= greatest (Map.key x))
    by (intros x; now apply lowerBound_suffix).
  assert (Hprior : forall after,
             (forall j n', (lb <= j)%nat -> nth_error m j = Some n' -> s < least (Map.key n')) ->
             after = (if (lb =? 0)%nat then end_ m else Nat.pred lb) ->
             (after = end_ m /\ forall n, In n m -> s < least (Map.key n))
             \/ (exists n, nth_error m after = Some n /\ least (Map.key n) <= s
                           /\ forall j n', (after < j)%nat -> nth_error m j = Some n' ->
                                s < least (Map.key n'))).
  { intros after Hafter ->. destruct (Nat.eqb_spec lb 0) as [H0|H0].
    - left. split; [reflexivity|]. intros n Hn.
      destruct (In_nth_error _ _ Hn) as [j Hj]. apply (Hafter j n); [lia | assumption].
    - right. destruct (nth_error m (Nat.pred lb)) as [p|] eqn:Ep.
      2:{ apply nth_error_None in Ep. lia. }
      exists p. split; [reflexivity|].
      assert (Hp : In p (firstn lb m)) by (apply (nth_error_firstn_lt m lb (Nat.pred lb)); [assumption | lia]).
      pose proof (proper_bounds _ (ordered_proper m p Hm (in_firstn _ _ _ Hp))) as Hpb.
      specialize (Hpre p Hp). split; [lia|].
      intros j n' Hj Hn'. apply (Hafter j n'); [lia | assumption]. }
  destruct (nth_error m lb) as [n|] eqn:En.
  - destruct (Z.leb_spec (least (Map.key n)) s) as [Hle|Hgt].
    + right. exists n. split; [assumption|]. split; [assumption|].
      intros j n' Hj Hn'.
      pose proof (ordered_nth_lt m lb j n n' Hm Hj En Hn') as Hlt.
      assert (s <= greatest (Map.key n)); [|lia].
      apply Hsuf. apply (nth_error_skipn_ge m lb lb); [assumption | lia].
    + apply Hprior; [|reflexivity].
      intros j n' Hj Hn'. destruct (Nat.eq_dec j lb) as [->|Hne].
      * congruence.
      * assert (Hlbj : (lb < j)%nat) by lia.
        pose proof (ordered_nth_lt m lb j n n' Hm Hlbj En Hn') as Hlt.
        pose proof (proper_bounds _ (ordered_proper m n Hm (nth_error_In _ _ En))). lia.
  - apply Hprior; [|reflexivity].
    intros j n' Hj Hn'. apply nth_error_None in En.
    assert (nth_error m j <> None) by congruence. apply nth_error_Some in H. lia.
Qed.

(** X3.  [findPrior] returns the last node that starts at or below the
    scalar, and the end iterator when every node starts above it. *)
Theorem findPrior_spec (m : Map) (s : Z) :
  ordered m ->
  (Queries.findPrior m s = end_ m
   /\ forall n, In n m -> s < least (Map.key n))
  \/ (exists n, nth_error m (Queries.findPrior m s) = Some n
                /\ least (Map.key n) <= s
                /\ forall j n', (Queries.findPrior m s < j)%nat ->
                     nth_error m j = Some n' -> s < least (Map.key n')).
Proof. apply findPrior_cases. Qed.

Lemma findFirstOverlap_cases (m : Map) (i : Interval) :
  ordered m -> valid nbits i ->
  (Queries.findFirstOverlap m i = end_ m
   /\ forall n, In n m -> isOverlapping i (Map.key n) = false)
  \/ (exists n, nth_error m (Queries.findFirstOverlap m i) = Some n
                /\ isOverlapping i (Map.key n) = true
                /\ forall j n', (j < Queries.findFirstOverlap m i)%nat ->
                     nth_error m j = Some n' -> isOverlapping i (Map.key n') = false).
Proof.
  intros Hm Hi. unfold Queries.findFirstOverlap.
  destruct i as [|lo hi]; [left|].
  { destruct (nth_error m (lowerBound m (least Empty))); simpl; split; auto. }
  set (i := Range lo hi) in *. assert (Hp : proper i) by exact Hi.
  pose proof (proper_bounds i Hp) as Hib.
  set (lb := lowerBound m (least i)).
  assert (Hpre : forall x, In x (firstn lb m) -> isOverlapping i (Map.key x) = false).
  { intros x Hx. pose proof (lowerBound_prefix m (least i) x Hx) as Hlt.
    rewrite isOverlapping_proper; [|assumption | apply (ordered_proper m); [assumption | eapply in_firstn; eauto]].
    destruct (Z.leb_spec (least i) (greatest (Map.key x))); [lia | reflexivity]. }
  destruct (nth_error m lb) as [n|] eqn:En.
  - destruct (isOverlapping i (Map.key n)) eqn:Eo.
    + right. exists n. repeat split; auto.
      intros j n' Hj Hn'. apply Hpre. now apply (nth_error_firstn_lt m lb j).
    + left. split; [reflexivity|]. intros x Hx.
      destruct (in_split_at m lb x Hx) as [H|H]; [now apply Hpre|].
      pose proof (ordered_proper m n Hm (nth_error_In _ _ En)) as Hnp.
      pose proof (ordered_proper m x Hm Hx) as Hxp.
      pose proof (proper_bounds _ Hnp). pose proof (proper_bounds _ Hxp).
      rewrite isOverlapping_proper in * by assumption.
      assert (Hn : least i <= greatest (Map.key n)).
      { apply (lowerBound_suffix m (least i) n Hm).
        apply (nth_error_skipn_ge m lb lb); [assumption | lia]. }
      rewrite (skipn_nth_error m lb n En) in H. destruct H as [<-|H]; [assumption|].
      assert (greatest (Map.key n) < least (Map.key x)).
      { pose proof (ordered_skipn m lb Hm) as Hs.
        rewrite (skipn_nth_error m lb n En) in Hs. destruct Hs as (_ & Hlt & _). now apply Hlt. }
      destruct (Z.leb_spec (least i) (greatest (Map.key n))); [|lia].
      destruct (Z.leb_spec (least (Map.key n)) (greatest i)); [discriminate|].
      destruct (Z.leb_spec (least (Map.key x)) (greatest i)); [lia|].
      apply andb_false_r.
  - left. split; [reflexivity|]. intros x Hx. apply Hpre.
    apply nth_error_None in En. rewrite firstn_all2 by assumption. assumption.
Qed.

(** X4.  [findFirstOverlap] returns the first node that overlaps the
    interval, and the end iterator when no node does. *)
Theorem findFirstOverlap_spec (m : Map) (i : Interval) :
  ordered m -> valid nbits i ->
  (Queries.findFirstOverlap m i = end_ m
   /\ forall n, In n m -> isOverlapping i (Map.key n) = false)
  \/ (exists n, nth_error m (Queries.findFirstOverlap m i) = Some n
                /\ isOverlapping i (Map.key n) = true
                /\ forall j n', (j < Queries.findFirstOverlap m i)%nat ->
                     nth_error m j = Some n' -> isOverlapping i (Map.key n') = false).
Proof. apply findFirstOverlap_cases. Qed.

Lemma isOverlapping_mapped (m : Map) (i : Interval) :
  ordered m -> valid nbits i ->
  (Queries.isOverlapping m i = true
   <-> exists s, least i <= s <= greatest i /\ Queries.mapped m s).
Proof.
  intros Hm Hi.
  unfold Queries.isOverlapping.
  assert (Hov : forall n, In n m ->
            (isOverlapping i (Map.key n) = true
             <-> exists s, least i <= s <= greatest i /\ Queries.covers n s)).
  { intros n Hn. pose proof (proper_bounds _ (ordered_proper m n Hm Hn)) as Hnb.
    destruct i as [|lo hi]; simpl.
    - split; [discriminate | intros (s & Hs & _); lia].
    - destruct (Map.key n) as [|l2 h2] eqn:Ek; [pose proof (ordered_proper m n Hm Hn) as F; rewrite Ek in F; contradiction|].
      simpl in Hnb. unfold Queries.covers. rewrite Ek. simpl.
      rewrite andb_true_iff, !Z.leb_le. split.
      + intros [H1 H2]. exists (Z.max lo l2). simpl in Hi. lia.
      + intros (s & Hs1 & Hs2). lia. }
  destruct (findFirstOverlap_cases m i Hm Hi) as [[Hend Hnone]|(n & Hn & Ho & _)].
  - rewrite Hend, Nat.eqb_refl. simpl. split; [discriminate|].
    intros (s & Hs & x & Hx & Hc). specialize (Hnone x Hx).
    assert (isOverlapping i (Map.key x) = true) by (apply Hov; eauto). congruence.
  - assert (Hne : Queries.findFirstOverlap m i <> end_ m).
    { intros E. rewrite E, nth_error_end in Hn. discriminate. }
    apply Nat.eqb_neq in Hne. rewrite Hne. simpl. split; [|reflexivity].
    intros _. pose proof (nth_error_In _ _ Hn) as Hin.
    apply Hov in Ho; [|assumption]. destruct Ho as (s & Hs & Hc).
    exists s. split; [assumption|]. now exists n.
Qed.

(** X5.  [isOverlapping] holds exactly when a scalar of the interval is
    mapped, and [isDistinct] exactly when none is. *)
Theorem isOverlapping_spec (m : Map) (i : Interval) :
  ordered m -> valid nbits i ->
  (Queries.isOverlapping m i = true
   <-> exists s, least i <= s <= greatest i /\ Queries.mapped m s)
  /\ (Queries.isDistinct m i = true
      <-> forall s, least i <= s <= greatest i -> ~ Queries.mapped m s).
Proof.
  intros Hm Hi. pose proof (isOverlapping_mapped m i Hm Hi) as H.
  split; [exact H|]. unfold Queries.isDistinct. rewrite negb_true_iff. split.
  - intros Hf s Hs Hmapped.
    assert (Queries.isOverlapping m i = true) by (apply H; eauto). congruence.
  - intros Hnone. destruct (Queries.isOverlapping m i); [|reflexivity].
    destruct (proj1 H eq_refl) as (s & Hs & Hmapped). now destruct (Hnone s Hs).
Qed.

(** *** Fitting *)

Lemma width_proper i : proper i -> 1 <= Queries.width i <= modulus.
Proof. intros H. apply proper_bounds in H. unfold Queries.width. lia. Qed.

Lemma size_width i :
  proper i ->
  Interval.size nbits i = if Queries.width i =? modulus then 0 else Queries.width i.
Proof.
  intros H. pose proof (width_proper i H) as Hw.
  destruct i as [|lo hi]; [contradiction|]. unfold Queries.width in *. simpl in *.
  unfold Interval.wrap. fold modulus.
  destruct (Z.eqb_spec (hi - lo + 1) modulus) as [->|Hne].
  - apply Z_mod_same_full.
  - apply Z.mod_small. lia.
Qed.

(** [isLarge] compares the number of scalars of the interval, the whole
    domain included, with the size asked for. *)
Lemma isLarge_spec i size :
  proper i -> 0 <= size < modulus ->
  (isLarge nbits i size = true <-> size <= Queries.width i).
Proof.
  intros Hi Hs. pose proof (width_proper i Hi) as Hw.
  unfold isLarge. rewrite (size_width i Hi).
  destruct i as [|lo hi]; [contradiction|]. simpl negb. rewrite andb_true_l.
  destruct (Z.eqb_spec (Queries.width (Range lo hi)) modulus) as [E|E].
  - simpl. split; [lia | reflexivity].
  - rewrite orb_true_iff, Z.eqb_eq, Z.geb_le. lia.
Qed.

Lemma firstFit_loop_spec (m : Map) size start :
  ordered m -> 0 <= size < modulus ->
  forall rest iter,
    skipn iter m = rest -> (start <= iter)%nat ->
    (forall j n, (start <= j < iter)%nat -> nth_error m j = Some n ->
                 Queries.width (Map.key n) < size) ->
    let r := firstFit_loop nbits T m size rest iter in
    (r = end_ m
     /\ forall j n, (start <= j)%nat -> nth_error m j = Some n ->
                    Queries.width (Map.key n) < size)
    \/ (exists n, nth_error m r = Some n /\ (start <= r)%nat
                  /\ size <= Queries.width (Map.key n)
                  /\ forall j n', (start <= j < r)%nat -> nth_error m j = Some n' ->
                       Queries.width (Map.key n') < size).
Proof.
  intros Hm Hs. induction rest as [|n rest IH]; intros iter Hrest Hstart Hinv; simpl.
  - left. split; [reflexivity|]. intros j x Hj Hx.
    destruct (Nat.lt_ge_cases j iter) as [Hlt|Hge]; [apply (Hinv j); auto|].
    exfalso. assert (Hin : In x (skipn iter m)) by (apply (nth_error_skipn_ge m iter j); auto).
    now rewrite Hrest in Hin.
  - pose proof (skipn_head _ _ _ _ Hrest) as Hn.
    pose proof (ordered_proper m n Hm (nth_error_In _ _ Hn)) as Hp.
    destruct (isLarge nbits (Map.key n) size) eqn:El.
    + right. exists n. apply isLarge_spec in El; auto.
    + apply IH.
      * rewrite (skipn_nth_error m iter n Hn) in Hrest. congruence.
      * lia.
      * intros j x Hj Hx. destruct (Nat.eq_dec j iter) as [->|Hne].
        -- assert (x = n) as -> by congruence.
           destruct (Z.lt_ge_cases (Queries.width (Map.key n)) size); [assumption|].
           assert (isLarge nbits (Map.key n) size = true) by (apply isLarge_spec; auto; lia).
           congruence.
        -- apply (Hinv j); auto. lia.
Qed.

(** X7.  [firstFit] returns the first node, from [start] on, that holds at
    least [size] scalars, a node that spans the whole domain included, and
    the end iterator when there is none. *)
Theorem firstFit_spec (m : Map) (size : Z) (start : nat) :
  ordered m -> 0 <= size < modulus ->
  (firstFit nbits m size start = end_ m
   /\ forall j n, (start <= j)%nat -> nth_error m j = Some n ->
                  Queries.width (Map.key n) < size)
  \/ (exists n, nth_error m (firstFit nbits m size start) = Some n
                /\ (start <= firstFit nbits m size start)%nat
                /\ size <= Queries.width (Map.key n)
                /\ forall j n', (start <= j < firstFit nbits m size start)%nat ->
                     nth_error m j = Some n' -> Queries.width (Map.key n') < size).
Proof.
  intros Hm Hs. unfold firstFit.
  apply (firstFit_loop_spec m size start Hm Hs); auto. intros j n Hj. lia.
Qed.

(** *** Capacity *)

Lemma count_bound (m : Map) :
  ordered m ->
  forall lo, lo <= modulus -> (forall n, In n m -> lo <= least (Map.key n)) ->
  0 <= Queries.count m <= modulus - lo.
Proof.
  induction m as [|n m IH]; intros Hm lo Hlo Hle; simpl; [lia|].
  destruct Hm as (Hn & Hlt & Hm). pose proof (proper_bounds _ Hn) as Hnb.
  specialize (IH Hm (greatest (Map.key n) + 1) ltac:(lia)).
  destruct IH as [IH1 IH2].
  { intros x Hx. specialize (Hlt x Hx). lia. }
  specialize (Hle n (or_introl eq_refl)). unfold Queries.width. lia.
Qed.

Lemma size_fold (m : Map) :
  ordered m ->
  forall acc,
    fold_left (fun sum n => wrap (sum + Interval.size nbits (Map.key n))) m (wrap acc)
    = wrap (acc + Queries.count m).
Proof.
  induction m as [|n m IH]; intros Hm acc; simpl.
  - now rewrite Z.add_0_r.
  - destruct Hm as (Hn & _ & Hm).
    assert (E : wrap (wrap acc + Interval.size nbits (Map.key n))
                = wrap (acc + Queries.width (Map.key n))).
    { destruct (Map.key n) as [|lo hi]; [contradiction|]. unfold Queries.width. simpl.
      unfold Interval.wrap. now rewrite <- Zplus_mod. }
    rewrite E, IH by assumption. f_equal. lia.
Qed.

(** X8.  [size] is the number of scalars of the keys, in the scalar type:
    their exact number, which is at most the size of the domain, except that
    a map whose keys fill the domain has size 0. *)
Theorem size_spec (m : Map) :
  ordered m ->
  0 <= Queries.count m <= modulus
  /\ Queries.size nbits m
     = if Queries.count m =? modulus then 0 else Queries.count m.
Proof.
  intros Hm.
  assert (Hc : 0 <= Queries.count m <= modulus).
  { pose proof (count_bound m Hm 0) as H. rewrite Z.sub_0_r in H. apply H.
    - pose proof modulus_ge_2. lia.
    - intros n Hn. pose proof (proper_bounds _ (ordered_proper m n Hm Hn)). lia. }
  split; [assumption|].
  unfold Queries.size.
  replace 0 with (wrap 0) at 1 by (apply wrap_small; pose proof modulus_ge_2; lia).
  rewrite size_fold by assumption. simpl.
  destruct (Z.eqb_spec (Queries.count m) modulus) as [->|Hne].
  - apply Z_mod_same_full.
  - apply wrap_small. lia.
Qed.

Lemma ordered_first_least (n : Node) (m : Map) x :
  ordered (n :: m) -> In x (n :: m) -> least (Map.key n) <= least (Map.key x).
Proof.
  intros (Hn & Hlt & _) [<-|Hx]; [lia|].
  specialize (Hlt x Hx). apply proper_bounds in Hn. lia.
Qed.

Lemma ordered_last_greatest (m : Map) last x :
  ordered m -> nth_error m (Nat.pred (length m)) = Some last -> In x m ->
  greatest (Map.key x) <= greatest (Map.key last).
Proof.
  intros Hm Hlast Hx. destruct (In_nth_error _ _ Hx) as [j Hj].
  assert (Hjl : (j < length m)%nat) by (apply nth_error_Some; congruence).
  destruct (Nat.eq_dec j (Nat.pred (length m))) as [->|Hne].
  - assert (x = last) by congruence. subst. lia.
  - assert (Hlt : (j < Nat.pred (length m))%nat) by lia.
    pose proof (ordered_nth_lt m j (Nat.pred (length m)) x last Hm Hlt Hj Hlast).
    pose proof (proper_bounds _ (ordered_proper m last Hm (nth_error_In _ _ Hlast))). lia.
Qed.

Lemma extremes (m : Map) :
  ordered m -> m <> [] ->
  exists lo hi,
    Queries.least m = Ok lo /\ Queries.greatest m = Ok hi
    /\ Queries.mapped m lo /\ Queries.mapped m hi
    /\ forall s, Queries.mapped m s -> lo <= s <= hi.
Proof.
  intros Hm Hne. destruct m as [|n m'] eqn:Em; [contradiction|]. rewrite <- Em in *.
  destruct (nth_error m (Nat.pred (length m))) as [last|] eqn:El.
  2:{ apply nth_error_None in El. rewrite Em in El. simpl in El. lia. }
  exists (least (Map.key n)), (greatest (Map.key last)).
  assert (Hn : In n m) by (rewrite Em; now left).
  pose proof (nth_error_In _ _ El) as Hl.
  pose proof (proper_bounds _ (ordered_proper m n Hm Hn)) as Hnb.
  pose proof (proper_bounds _ (ordered_proper m last Hm Hl)) as Hlb.
  unfold Queries.least, Queries.greatest, end_. rewrite El.
  replace (Queries.isEmpty m) with false by now rewrite Em.
  replace (nth_error m 0) with (Some n) by now rewrite Em.
  repeat split.
  - exists n. split; [assumption|]. unfold Queries.covers. lia.
  - exists last. split; [assumption|]. unfold Queries.covers. lia.
  - destruct H as (x & Hx & Hc). unfold Queries.covers in Hc.
    assert (least (Map.key n) <= least (Map.key x)); [|lia].
    rewrite Em in Hm, Hx. now apply (ordered_first_least n m').
  - destruct H as (x & Hx & Hc). unfold Queries.covers in Hc.
    pose proof (ordered_last_greatest m last x Hm El Hx). lia.
Qed.

(** X9.  [least] and [greatest] abort on an empty container; otherwise they
    return the smallest and the largest mapped scalar. *)
Theorem least_greatest_spec (m : Map) :
  ordered m ->
  (m = [] -> Queries.least m = Fatal /\ Queries.greatest m = Fatal)
  /\ (m <> [] ->
      exists lo hi,
        Queries.least m = Ok lo /\ Queries.greatest m = Ok hi
        /\ Queries.mapped m lo /\ Queries.mapped m hi
        /\ forall s, Queries.mapped m s -> lo <= s <= hi).
Proof.
  intros Hm. split; [intros ->; split; reflexivity | now apply extremes].
Qed.

(** X10.  [hull] never aborts: it is the empty interval for an empty
    container and otherwise the interval from the smallest to the largest
    mapped scalar. *)
Theorem hull_spec (m : Map) :
  ordered m ->
  exists h,
    Queries.hull m = Ok h
    /\ (m = [] -> h = Empty)
    /\ (m <> [] ->
        proper h
        /\ Queries.mapped m (least h) /\ Queries.mapped m (greatest h)
        /\ forall s, Queries.mapped m s -> least h <= s <= greatest h).
Proof.
  intros Hm. destruct m as [|n m'] eqn:Em.
  { exists Empty. repeat split; auto; congruence. }
  rewrite <- Em in *. assert (Hne : m <> []) by (rewrite Em; discriminate).
  destruct (extremes m Hm Hne) as (lo & hi & Hlo & Hhi & Hmlo & Hmhi & Hall).
  exists (hull lo hi). unfold Queries.hull. rewrite Hlo, Hhi.
  replace (Queries.isEmpty m) with false by now rewrite Em.
  split; [reflexivity|]. split; [congruence|]. intros _.
  pose proof (Hall lo Hmlo) as Hlohi.
  rewrite hull_range by lia. simpl.
  destruct Hmlo as (a & Ha & Hca). destruct Hmhi as (b & Hb & Hcb).
  pose proof (proper_bounds _ (ordered_proper m a Hm Ha)).
  pose proof (proper_bounds _ (ordered_proper m b Hm Hb)).
  unfold Queries.covers in *.
  repeat split; try lia.
  - exists a. split; [assumption|]. unfold Queries.covers. lia.
  - exists b. split; [assumption|]. unfold Queries.covers. lia.
  - apply Hall; assumption.
  - apply Hall; assumption.
Qed.

(** *** Limited extremes *)

Lemma mapped_split (m : Map) i s :
  Queries.mapped m s <-> Queries.mapped (firstn i m) s \/ Queries.mapped (skipn i m) s.
Proof.
  split.
  - intros (n & Hn & Hc). destruct (in_split_at m i n Hn); [left | right]; now exists n.
  - intros [(n & Hn & Hc)|(n & Hn & Hc)]; exists n; split; auto;
      [eapply in_firstn | eapply in_skipn]; eauto.
Qed.

(** X11.  [least(lowerLimit)] returns the smallest mapped scalar that is at
    least the limit, and nothing when no such scalar is mapped. *)
Theorem least_limited_spec (m : Map) (lowerLimit : Z) :
  ordered m ->
  match Queries.least_limited m lowerLimit with
  | Some r =>
      lowerLimit <= r /\ Queries.mapped m r
      /\ forall s, lowerLimit <= s < r -> ~ Queries.mapped m s
  | None => forall s, lowerLimit <= s -> ~ Queries.mapped m s
  end.
Proof.
  intros Hm. unfold Queries.least_limited.
  set (lb := lowerBound m lowerLimit).
  assert (Hpre : forall x, In x (firstn lb m) -> greatest (Map.key x) < lowerLimit)
    by (intros x; apply lowerBound_prefix).
  assert (Hsuf : forall x, In x (skipn lb m) -> lowerLimit <= greatest (Map.key x))
    by (intros x; now apply lowerBound_suffix).
  destruct (nth_error m lb) as [n|] eqn:En.
  - pose proof (nth_error_In _ _ En) as Hn.
    pose proof (proper_bounds _ (ordered_proper m n Hm Hn)) as Hnb.
    assert (Hng : lowerLimit <= greatest (Map.key n)).
    { apply Hsuf. apply (nth_error_skipn_ge m lb lb); [assumption | lia]. }
    split; [lia|]. split.
    + exists n. split; [assumption|]. unfold Queries.covers. lia.
    + intros s Hs (x & Hx & Hc). unfold Queries.covers in Hc.
      destruct (in_split_at m lb x Hx) as [H|H].
      * specialize (Hpre x H). lia.
      * rewrite (skipn_nth_error m lb n En) in H. destruct H as [<-|H]; [lia|].
        pose proof (ordered_skipn m lb Hm) as Hs'.
        rewrite (skipn_nth_error m lb n En) in Hs'. destruct Hs' as (_ & Hlt & _).
        specialize (Hlt x H). lia.
  - intros s Hs (x & Hx & Hc). unfold Queries.covers in Hc.
    apply nth_error_None in En.
    assert (H : In x (firstn lb m)) by now rewrite firstn_all2.
    specialize (Hpre x H). lia.
Qed.

(** X12.  [greatest(upperLimit)] returns the largest mapped scalar that is
    at most the limit, and nothing when no such scalar is mapped. *)
Theorem greatest_limited_spec (m : Map) (upperLimit : Z) :
  ordered m ->
  match Queries.greatest_limited m upperLimit with
  | Some r =>
      r <= upperLimit /\ Queries.mapped m r
      /\ forall s, r < s <= upperLimit -> ~ Queries.mapped m s
  | None => forall s, s <= upperLimit -> ~ Queries.mapped m s
  end.
Proof.
  intros Hm. unfold Queries.greatest_limited.
  destruct (findPrior_cases m upperLimit Hm) as [[Hend Hall]|(n & Hn & Hle & Hlater)].
  - rewrite Hend, nth_error_end. intros s Hs (x & Hx & Hc).
    unfold Queries.covers in Hc. specialize (Hall x Hx). lia.
  - rewrite Hn. pose proof (nth_error_In _ _ Hn) as Hin.
    pose proof (proper_bounds _ (ordered_proper m n Hm Hin)) as Hnb.
    split; [lia|]. split.
    + exists n. split; [assumption|]. unfold Queries.covers. lia.
    + intros s Hs (x & Hx & Hc). unfold Queries.covers in Hc.
      destruct (In_nth_error _ _ Hx) as [j Hj].
      destruct (Nat.lt_trichotomy j (Queries.findPrior m upperLimit)) as [Hlt|[->|Hgt]].
      * pose proof (ordered_nth_lt m j _ x n Hm Hlt Hj Hn). lia.
      * assert (x = n) by congruence. subst x. lia.
      * specialize (Hlater j x Hgt Hj). lia.
Qed.

(** *** Unmapped scalars *)

Lemma leastUnmapped_loop_spec :
  forall (rest : Map) lowerLimit,
    ordered rest -> 0 <= lowerLimit < modulus ->
    (forall n, In n rest -> lowerLimit <= greatest (Map.key n)) ->
    match Queries.leastUnmapped_loop nbits rest lowerLimit with
    | Some r =>
        lowerLimit <= r < modulus /\ ~ Queries.mapped rest r
        /\ forall s, lowerLimit <= s < r -> Queries.mapped rest s
    | None => forall s, lowerLimit <= s < modulus -> Queries.mapped rest s
    end.
Proof.
  induction rest as [|n rest IH]; intros lim Hord Hlim Hge; simpl.
  - split; [lia|]. split; [intros (x & [] & _) | intros s Hs; lia].
  - destruct Hord as (Hn & Hlt & Hord). pose proof (proper_bounds _ Hn) as Hnb.
    pose proof (Hge n (or_introl eq_refl)) as Hgn.
    destruct (Z.ltb_spec lim (least (Map.key n))) as [Hbelow|Hin].
    + split; [lia|]. split; [|intros s Hs; lia].
      intros (x & [<-|Hx] & Hc); unfold Queries.covers in Hc; [lia|].
      specialize (Hlt x Hx). lia.
    + assert (Hcov : forall s, lim <= s <= greatest (Map.key n) ->
                               Queries.mapped (n :: rest) s).
      { intros s Hs. exists n. split; [now left|]. unfold Queries.covers. lia. }
      destruct (Z.eq_dec (greatest (Map.key n)) (modulus - 1)) as [Emax|Hmax].
      * rewrite Emax, wrap_succ_max.
        pose proof modulus_ge_2.
        destruct (Z.ltb_spec 0 (modulus - 1)); [|lia].
        intros s Hs. apply Hcov. lia.
      * rewrite wrap_succ by lia.
        destruct (Z.ltb_spec (greatest (Map.key n) + 1) (greatest (Map.key n))); [lia|].
        specialize (IH (greatest (Map.key n) + 1) Hord ltac:(lia)).
        assert (Hge' : forall x, In x rest -> greatest (Map.key n) + 1 <= greatest (Map.key x)).
        { intros x Hx. specialize (Hlt x Hx).
          pose proof (proper_bounds _ (ordered_proper rest x Hord Hx)). lia. }
        specialize (IH Hge').
        destruct (Queries.leastUnmapped_loop nbits rest (greatest (Map.key n) + 1)) as [r|].
        -- destruct IH as (Hr & Hun & Hmapped). split; [lia|]. split.
           ++ intros (x & [<-|Hx] & Hc); [unfold Queries.covers in Hc; lia|].
              apply Hun. now exists x.
           ++ intros s Hs. destruct (Z.le_gt_cases s (greatest (Map.key n))).
              ** apply Hcov. lia.
              ** destruct (Hmapped s ltac:(lia)) as (x & Hx & Hc).
                 exists x. split; [now right | assumption].
        -- intros s Hs. destruct (Z.le_gt_cases s (greatest (Map.key n))).
           ++ apply Hcov. lia.
           ++ destruct (IH s ltac:(lia)) as (x & Hx & Hc).
              exists x. split; [now right | assumption].
Qed.

(** X13.  [leastUnmapped] returns the smallest scalar, at least the limit,
    that no node holds; it returns nothing exactly when every scalar from
    the limit to the top of the domain is mapped. *)
Theorem leastUnmapped_spec (m : Map) (lowerLimit : Z) :
  ordered m -> 0 <= lowerLimit < modulus ->
  match Queries.leastUnmapped nbits m lowerLimit with
  | Some r =>
      lowerLimit <= r < modulus /\ ~ Queries.mapped m r
      /\ forall s, lowerLimit <= s < r -> Queries.mapped m s
  | None => forall s, lowerLimit <= s < modulus -> Queries.mapped m s
  end.
Proof.
  intros Hm Hlim. unfold Queries.leastUnmapped.
  set (lb := lowerBound m lowerLimit).
  assert (Hpre : forall x, In x (firstn lb m) -> greatest (Map.key x) < lowerLimit)
    by (intros x; apply lowerBound_prefix).
  pose proof (leastUnmapped_loop_spec (skipn lb m) lowerLimit (ordered_skipn m lb Hm) Hlim)
    as H.
  specialize (H (fun x Hx => lowerBound_suffix m lowerLimit x Hm Hx)).
  destruct (Queries.leastUnmapped_loop nbits (skipn lb m) lowerLimit) as [r|].
  - destruct H as (Hr & Hun & Hmapped). split; [assumption|]. split.
    + intros Hr'. apply (mapped_split m lb) in Hr'. destruct Hr' as [(x & Hx & Hc)|Hr'].
      * specialize (Hpre x Hx). unfold Queries.covers in Hc. lia.
      * now apply Hun.
    + intros s Hs. apply (mapped_split m lb). right. now apply Hmapped.
  - intros s Hs. apply (mapped_split m lb). right. now apply H.
Qed.

Lemma greatestUnmapped_loop_unfold (m : Map) iter upperLimit :
  Queries.greatestUnmapped_loop nbits m iter upperLimit
  = match nth_error m iter with
    | None => Some upperLimit
    | Some n =>
        if upperLimit >? greatest (Map.key n) then Some upperLimit
        else if wrap (least (Map.key n) - 1) >? least (Map.key n) then None
             else match iter with
                  | O => Some (wrap (least (Map.key n) - 1))
                  | S iter' =>
                      Queries.greatestUnmapped_loop nbits m iter'
                                                    (wrap (least (Map.key n) - 1))
                  end
    end.
Proof. destruct iter; reflexivity. Qed.

Lemma greatestUnmapped_loop_spec (m : Map) :
  ordered m ->
  forall iter upperLimit,
    0 <= upperLimit < modulus ->
    (forall n, nth_error m iter = Some n -> least (Map.key n) <= upperLimit) ->
    (forall j n, (iter < j)%nat -> nth_error m j = Some n -> upperLimit < least (Map.key n)) ->
    (nth_error m iter = None -> forall n, In n m -> upperLimit < least (Map.key n)) ->
    match Queries.greatestUnmapped_loop nbits m iter upperLimit with
    | Some r =>
        0 <= r <= upperLimit /\ ~ Queries.mapped m r
        /\ forall s, r < s <= upperLimit -> Queries.mapped m s
    | None => forall s, 0 <= s <= upperLimit -> Queries.mapped m s
    end.
Proof.
  intros Hm. induction iter as [|iter IH]; intros u Hu Hat Hlater Hnone.
  - rewrite greatestUnmapped_loop_unfold. destruct (nth_error m 0) as [n|] eqn:En.
    + pose proof (nth_error_In _ _ En) as Hn.
      pose proof (proper_bounds _ (ordered_proper m n Hm Hn)) as Hnb.
      specialize (Hat n eq_refl).
      assert (Hfirst : forall x, In x m -> least (Map.key n) <= least (Map.key x)).
      { intros x Hx. destruct m as [|n0 m0]; [contradiction|].
        simpl in En. injection En as ->. now apply (ordered_first_least n m0). }
      rewrite Z.gtb_ltb.
      destruct (Z.ltb_spec (greatest (Map.key n)) u) as [Habove|Hin].
      * split; [lia|]. split; [|intros s Hs; lia].
        intros (x & Hx & Hc). unfold Queries.covers in Hc.
        destruct (In_nth_error _ _ Hx) as [j Hj]. destruct j as [|j].
        -- assert (x = n) by congruence. subst x. lia.
        -- specialize (Hlater (S j) x ltac:(lia) Hj). lia.
      * assert (Hcov : forall s, least (Map.key n) <= s <= u -> Queries.mapped m s).
        { intros s Hs. exists n. split; [assumption|]. unfold Queries.covers. lia. }
        destruct (Z.eq_dec (least (Map.key n)) 0) as [E0|H0].
        -- rewrite E0, wrap_pred_zero, Z.gtb_ltb. pose proof modulus_ge_2.
           destruct (Z.ltb_spec 0 (modulus - 1)); [|lia].
           intros s Hs. apply Hcov. lia.
        -- rewrite wrap_pred by lia. rewrite Z.gtb_ltb.
           destruct (Z.ltb_spec (least (Map.key n)) (least (Map.key n) - 1)); [lia|].
           split; [lia|]. split; [|intros s Hs; apply Hcov; lia].
           intros (x & Hx & Hc). unfold Queries.covers in Hc.
           specialize (Hfirst x Hx). lia.
    + split; [lia|]. split; [|intros s Hs; lia].
      intros (x & Hx & Hc). unfold Queries.covers in Hc.
      specialize (Hnone eq_refl x Hx). lia.
  - rewrite greatestUnmapped_loop_unfold. destruct (nth_error m (S iter)) as [n|] eqn:En.
    + pose proof (nth_error_In _ _ En) as Hn.
      pose proof (proper_bounds _ (ordered_proper m n Hm Hn)) as Hnb.
      specialize (Hat n eq_refl).
      rewrite Z.gtb_ltb.
      destruct (Z.ltb_spec (greatest (Map.key n)) u) as [Habove|Hin].
      * split; [lia|]. split; [|intros s Hs; lia].
        intros (x & Hx & Hc). unfold Queries.covers in Hc.
        destruct (In_nth_error _ _ Hx) as [j Hj].
        destruct (Nat.lt_trichotomy j (S iter)) as [Hlt|[->|Hgt]].
        -- pose proof (ordered_nth_lt m j (S iter) x n Hm Hlt Hj En). lia.
        -- assert (x = n) by congruence. subst x. lia.
        -- specialize (Hlater j x Hgt Hj). lia.
      * assert (Hcov : forall s, least (Map.key n) <= s <= u -> Queries.mapped m s).
        { intros s Hs. exists n. split; [assumption|]. unfold Queries.covers. lia. }
        destruct (nth_error m iter) as [p|] eqn:Ep.
        2:{ apply nth_error_None in Ep.
            assert (nth_error m (S iter) <> None) by congruence.
            apply nth_error_Some in H. lia. }
        pose proof (nth_error_In _ _ Ep) as Hp.
        pose proof (proper_bounds _ (ordered_proper m p Hm Hp)) as Hpb.
        pose proof (ordered_nth_lt m iter (S iter) p n Hm ltac:(auto) Ep En) as Hpn.
        rewrite wrap_pred by lia. rewrite Z.gtb_ltb.
        destruct (Z.ltb_spec (least (Map.key n)) (least (Map.key n) - 1)); [lia|].
        specialize (IH (least (Map.key n) - 1) ltac:(lia)).
        assert (H1 : forall n0, Some p = Some n0 -> least (Map.key n0) <= least (Map.key n) - 1).
        { intros n0 [= <-]. lia. }
        assert (H2 : forall j n0, (iter < j)%nat -> nth_error m j = Some n0 ->
                       least (Map.key n) - 1 < least (Map.key n0)).
        { intros j x Hj Hx. destruct (Nat.eq_dec j (S iter)) as [->|Hne].
          - assert (x = n) by congruence. subst x. lia.
          - specialize (Hlater j x ltac:(lia) Hx). lia. }
        specialize (IH H1 H2 ltac:(discriminate)).
        destruct (Queries.greatestUnmapped_loop nbits m iter (least (Map.key n) - 1)) as [r|].
        -- destruct IH as (Hr & Hun & Hmapped). split; [lia|]. split; [assumption|].
           intros s Hs. destruct (Z.le_gt_cases (least (Map.key n)) s).
           ++ apply Hcov. lia.
           ++ apply Hmapped. lia.
        -- intros s Hs. destruct (Z.le_gt_cases (least (Map.key n)) s).
           ++ apply Hcov. lia.
           ++ apply IH. lia.
    + split; [lia|]. split; [|intros s Hs; lia].
      intros (x & Hx & Hc). unfold Queries.covers in Hc.
      specialize (Hnone eq_refl x Hx). lia.
Qed.

(** X14.  [greatestUnmapped] returns the largest scalar, at most the limit,
    that no node holds; it returns nothing exactly when every scalar from
    the bottom of the domain to the limit is mapped. *)
Theorem greatestUnmapped_spec (m : Map) (upperLimit : Z) :
  ordered m -> 0 <= upperLimit < modulus ->
  match Queries.greatestUnmapped nbits m upperLimit with
  | Some r =>
      0 <= r <= upperLimit /\ ~ Queries.mapped m r
      /\ forall s, r < s <= upperLimit -> Queries.mapped m s
  | None => forall s, 0 <= s <= upperLimit -> Queries.mapped m s
  end.
Proof.
  intros Hm Hlim. unfold Queries.greatestUnmapped.
  apply greatestUnmapped_loop_spec; auto.
  - intros n Hn. destruct (findPrior_cases m upperLimit Hm) as [[Hend _]|(n' & Hn' & Hle & _)].
    + rewrite Hend, nth_error_end in Hn. discriminate.
    + congruence.
  - intros j n Hj Hn. destruct (findPrior_cases m upperLimit Hm) as [[Hend Hall]|(n' & Hn' & _ & Hlater)].
    + apply Hall. eapply nth_error_In; eauto.
    + now apply (Hlater j).
  - intros Hnone n Hn. destruct (findPrior_cases m upperLimit Hm) as [[_ Hall]|(n' & Hn' & _)].
    + now apply Hall.
    + congruence.
Qed.

(** *** [contains] *)

Lemma contains_loop_spec :
  forall (rest : Map) key,
    ordered rest -> proper key ->
    (forall n, In n rest -> least key <= greatest (Map.key n)) ->
    exists b,
      contains_loop nbits rest key = Ok b
      /\ (b = true <-> forall s, least key <= s <= greatest key -> Queries.mapped rest s).
Proof.
  induction rest as [|n rest IH]; intros key Hord Hkey Hge; simpl.
  - exists false. split; [reflexivity|]. split; [discriminate|].
    intros H. pose proof (proper_bounds _ Hkey).
    destruct (H (least key) ltac:(lia)) as (x & [] & _).
  - destruct Hord as (Hn & Hlt & Hord). pose proof (proper_bounds _ Hn) as Hnb.
    pose proof (proper_bounds _ Hkey) as Hkb.
    pose proof (Hge n (or_introl eq_refl)) as Hgn.
    destruct (Z.ltb_spec (least key) (least (Map.key n))) as [Hgap|Hin].
    + exists false. split; [reflexivity|]. split; [discriminate|].
      intros H. destruct (H (least key) ltac:(lia)) as (x & [<-|Hx] & Hc);
        unfold Queries.covers in Hc; [lia|].
      specialize (Hlt x Hx). lia.
    + rewrite isOverlapping_proper by assumption.
      destruct (Z.leb_spec (least key) (greatest (Map.key n))); [|lia].
      destruct (Z.leb_spec (least (Map.key n)) (greatest key)); [|lia]. simpl negb. cbv iota.
      destruct (Z.leb_spec (greatest key) (greatest (Map.key n))) as [Hend|Hmore].
      * exists true. split; [reflexivity|]. split; [|reflexivity]. intros _ s Hs.
        exists n. split; [now left|]. unfold Queries.covers. lia.
      * clear H H0. rewrite wrap_succ by lia. rewrite splitInterval_ok by (auto; lia).
        simpl bind. simpl snd.
        destruct (IH (Range (greatest (Map.key n) + 1) (greatest key)) Hord) as (b & Hb & Hiff).
        { simpl. lia. }
        { intros x Hx. specialize (Hlt x Hx).
          pose proof (proper_bounds _ (ordered_proper rest x Hord Hx)). simpl. lia. }
        exists b. split; [assumption|]. rewrite Hiff. simpl. split.
        -- intros H s Hs. destruct (Z.le_gt_cases s (greatest (Map.key n))).
           ++ exists n. split; [now left|]. unfold Queries.covers. lia.
           ++ destruct (H s ltac:(lia)) as (x & Hx & Hc). exists x. split; [now right | assumption].
        -- intros H s Hs. destruct (H s ltac:(lia)) as (x & [<-|Hx] & Hc).
           ++ unfold Queries.covers in Hc. lia.
           ++ now exists x.
Qed.

(** X15.  [contains] never aborts, and it holds exactly when every scalar of
    the interval is mapped. *)
Theorem contains_spec (m : Map) (key : Interval) :
  ordered m -> valid nbits key ->
  exists b,
    contains nbits m key = Ok b
    /\ (b = true <-> forall s, least key <= s <= greatest key -> Queries.mapped m s).
Proof.
  intros Hm Hkey. unfold contains. destruct key as [|lo hi].
  { exists true. split; [reflexivity|]. split; [|reflexivity]. simpl. intros _ s Hs. lia. }
  set (key := Range lo hi) in *. assert (Hp : proper key) by exact Hkey.
  replace (isEmpty key) with false by reflexivity.
  pose proof (proper_bounds _ Hp) as Hkb.
  set (lb := lowerBound m (least key)).
  assert (Hpre : forall x, In x (firstn lb m) -> greatest (Map.key x) < least key)
    by (intros x; apply lowerBound_prefix).
  assert (Hfind : find m (least key) = lb \/
                  (find m (least key) = end_ m /\ ~ Queries.mapped m (least key))).
  { destruct (Nat.eq_dec (find m (least key)) (end_ m)) as [E|E].
    - right. split; [assumption|]. now apply find_end.
    - left. unfold find in *. fold lb in E |- *.
      destruct (nth_error m lb); [|contradiction].
      destruct (least key <? least (Map.key n)); [contradiction | reflexivity]. }
  destruct Hfind as [->|[-> Hun]].
  - destruct (contains_loop_spec (skipn lb m) key (ordered_skipn m lb Hm) Hp) as (b & Hb & Hiff).
    { intros x Hx. now apply (lowerBound_suffix m (least key) x Hm). }
    exists b. split; [assumption|]. rewrite Hiff. split.
    + intros H s Hs. apply (mapped_split m lb). right. now apply H.
    + intros H s Hs. specialize (H s Hs). apply (mapped_split m lb) in H.
      destruct H as [(x & Hx & Hc)|H]; [|assumption].
      specialize (Hpre x Hx). unfold Queries.covers in Hc. lia.
  - unfold end_. rewrite skipn_all. simpl. exists false. split; [reflexivity|].
    split; [discriminate|]. intros H. exfalso. apply Hun. apply H.
    subst key. simpl in *. lia.
Qed.

(** *** What [erase] does to the mapping *)

(** The loop, once past the least scalar of the erasure, visits the nodes
    that overlap the erasure and keeps the right part of the last one. *)
Lemma erase_loop_tail_complete e :
  proper e ->
  forall (rest : Map) iter endIt eb ins it eb' ins',
    ordered rest ->
    (forall n, In n rest -> least e <= least (Map.key n)) ->
    (forall x, In x ins -> greatest (Map.key x) < least e) ->
    erase_loop nbits policy_ e rest iter endIt eb ins = Ok (it, eb', ins') ->
    (iter <= it)%nat
    /\ (forall x, In x ins -> In x ins')
    /\ forall n, In n (firstn (it - iter) rest) ->
         least (Map.key n) <= greatest e
         /\ (greatest e < greatest (Map.key n) -> In (right_remnant policy_ e n) ins').
Proof.
  intros He. pose proof (proper_bounds e He) as Heb.
  induction rest as [|n rest IH]; intros iter endIt eb ins it eb' ins' Hord Hle Hins Hloop.
  - simpl in Hloop. injection Hloop as <- <- <-. rewrite Nat.sub_diag. simpl.
    repeat split; auto; contradiction.
  - destruct Hord as (Hn & Hlt & Hord). pose proof (proper_bounds _ Hn) as Hnb.
    pose proof (Hle n (or_introl eq_refl)) as Hlen0.
    simpl erase_loop in Hloop.
    rewrite isLeftOf_proper, isContaining_proper in Hloop by assumption.
    destruct (Z.ltb_spec (greatest e) (least (Map.key n))) as [Hleft|Hover].
    + injection Hloop as <- <- <-. rewrite Nat.sub_diag. simpl.
      repeat split; auto; contradiction.
    + destruct (Z.leb_spec (least e) (least (Map.key n))) as [_|]; [|lia].
      destruct (Z.leb_spec (greatest (Map.key n)) (greatest e)) as [Hin|Hout];
        simpl andb in Hloop; cbv iota in Hloop.
      * destruct (IH _ _ _ _ _ _ _ Hord (fun x Hx => Hle x (or_intror Hx)) Hins Hloop)
          as (Hit & Hsub & Hall).
        split; [lia|]. split; [assumption|].
        replace (it - iter)%nat with (S (it - S iter)) by lia. simpl.
        intros x [<-|Hx]; [split; [lia | intros; lia] | now apply Hall].
      * rewrite !Z.gtb_ltb in Hloop.
        destruct (Z.ltb_spec (least (Map.key n)) (least e)); [lia|].
        simpl andb in Hloop. cbv iota in Hloop.
        destruct (Z.ltb_spec (greatest e) (greatest (Map.key n))); [|lia].
        rewrite wrap_succ in Hloop by lia.
        rewrite splitInterval_ok in Hloop by (auto; lia).
        simpl bind in Hloop. simpl snd in Hloop. simpl least in Hloop.
        destruct (split policy_ (Map.key n) (Map.value n) (greatest e + 1)) as [v1 rv] eqn:Esplit.
        rewrite erase_loop_stop in Hloop; auto.
        2:{ intros x Hx. specialize (Hlt _ Hx). lia. }
        injection Hloop as <- <- <-.
        assert (HR : (Range (greatest e + 1) (greatest (Map.key n)), rv)
                     = right_remnant policy_ e n).
        { unfold right_remnant, right_value. now rewrite Esplit. }
        assert (Hin : forall x,
                   In x (Map.insert IntervalCompare
                                    (Range (greatest e + 1) (greatest (Map.key n))) rv ins)
                   <-> x = right_remnant policy_ e n \/ In x ins).
        { intros x. rewrite insert_In; [now rewrite HR|].
          intros y Hy. specialize (Hins y Hy). simpl. lia. }
        split; [lia|]. split; [intros x Hx; apply Hin; now right|].
        replace (S iter - iter)%nat with 1%nat by lia. simpl.
        intros x [<-|[]]. split; [lia|]. intros _. apply Hin. now left.
Qed.

(** The loop visits the nodes that overlap the erasure; the part of a
    visited node to the left of the erasure and its part to the right are
    among the insertions. *)
Lemma erase_loop_complete e :
  proper e ->
  forall (rest : Map) iter endIt it eb' ins',
    ordered rest ->
    (forall n, In n rest -> least e <= greatest (Map.key n)) ->
    erase_loop nbits policy_ e rest iter endIt endIt [] = Ok (it, eb', ins') ->
    (iter <= it)%nat
    /\ forall n, In n (firstn (it - iter) rest) ->
         least (Map.key n) <= greatest e
         /\ (least (Map.key n) < least e -> In (left_remnant policy_ e n) ins')
         /\ (greatest e < greatest (Map.key n) -> In (right_remnant policy_ e n) ins').
Proof.
  intros He rest iter endIt it eb' ins' Hord Hge Hloop.
  pose proof (proper_bounds e He) as Heb.
  destruct rest as [|n rest].
  { simpl in Hloop. injection Hloop as <- <- <-. rewrite Nat.sub_diag.
    split; [lia | intros ? []]. }
  pose proof Hord as (Hn & Hlt & Hord').
  pose proof (proper_bounds _ Hn) as Hnb.
  pose proof (Hge n (or_introl eq_refl)) as Hgn.
  destruct (Z.le_gt_cases (least e) (least (Map.key n))) as [Hle|Hlo].
  - (* the erasure starts at or before the first node *)
    assert (Hall : forall x, In x (n :: rest) -> least e <= least (Map.key x)).
    { intros x [<-|Hx]; [assumption|]. specialize (Hlt _ Hx). lia. }
    destruct (erase_loop_tail_complete e He (n :: rest) iter endIt endIt [] it eb' ins'
                Hord Hall ltac:(intros ? []) Hloop) as (Hit & _ & Hvis).
    split; [assumption|]. intros x Hx. destruct (Hvis x Hx) as [Hv1 Hv2].
    split; [assumption|]. split; [|assumption].
    intros Hxl. apply in_firstn in Hx. specialize (Hall x Hx). lia.
  - (* the first node sticks out on the left *)
    simpl erase_loop in Hloop.
    rewrite isLeftOf_proper, isContaining_proper in Hloop by assumption.
    destruct (Z.ltb_spec (greatest e) (least (Map.key n))); [lia|].
    destruct (Z.leb_spec (least e) (least (Map.key n))); [lia|].
    simpl andb in Hloop. cbv iota in Hloop.
    rewrite !Z.gtb_ltb in Hloop.
    destruct (Z.ltb_spec (least (Map.key n)) (least e)); [|lia]. simpl andb in Hloop.
    rewrite Nat.eqb_refl in Hloop.
    destruct (Z.ltb_spec (greatest e) (greatest (Map.key n))) as [Hmid|Hend].
    + (* the erasure lies inside the node *)
      rewrite wrap_succ in Hloop by lia.
      rewrite splitInterval_ok in Hloop by (auto; lia).
      simpl bind in Hloop. simpl snd in Hloop. simpl fst in Hloop.
      simpl least in Hloop at 1.
      destruct (split policy_ (Map.key n) (Map.value n) (greatest e + 1)) as [v1 rv] eqn:Esplit.
      rewrite Z.add_simpl_r in Hloop.
      rewrite splitInterval_ok in Hloop by (simpl; lia).
      simpl bind in Hloop. simpl fst in Hloop. simpl least in Hloop.
      rewrite erase_loop_stop in Hloop; auto.
      2:{ intros x Hx. specialize (Hlt _ Hx). lia. }
      rewrite !compare_unfold in Hloop. simpl greatest in Hloop.
      destruct (Z.ltb_spec (greatest (Map.key n)) (least e - 1)); [lia|].
      destruct (Z.ltb_spec (least e - 1) (greatest (Map.key n))); [|lia].
      assert (HL : (Range (least (Map.key n)) (least e - 1),
                    truncate policy_ (Range (least (Map.key n)) (greatest e)) v1 (least e))
                   = left_remnant policy_ e n).
      { unfold left_remnant, left_value. rewrite Esplit. simpl fst.
        destruct (Z.ltb_spec (greatest e) (greatest (Map.key n))); [|lia].
        now rewrite hull_range by lia. }
      assert (HR : (Range (greatest e + 1) (greatest (Map.key n)), rv)
                   = right_remnant policy_ e n).
      { unfold right_remnant, right_value. now rewrite Esplit. }
      rewrite HL, HR in Hloop. injection Hloop as <- <- <-.
      split; [lia|]. replace (S iter - iter)%nat with 1%nat by lia. simpl.
      intros x [<-|[]]. split; [lia|]. split; intros _; simpl; auto.
    + (* the erasure reaches the end of the node *)
      destruct (Z.ltb_spec (greatest e) (greatest (Map.key n))); [lia|].
      simpl andb in Hloop. cbv iota in Hloop.
      rewrite splitInterval_ok in Hloop by (auto; lia).
      simpl bind in Hloop. simpl fst in Hloop.
      assert (Hleftval : (Range (least (Map.key n)) (least e - 1),
                          truncate policy_ (Map.key n) (Map.value n) (least e))
                         = left_remnant policy_ e n).
      { unfold left_remnant, left_value.
        destruct (Z.ltb_spec (greatest e) (greatest (Map.key n))); [lia | reflexivity]. }
      simpl Map.insert in Hloop. rewrite Hleftval in Hloop.
      assert (Hall : forall x, In x rest -> least e <= least (Map.key x)).
      { intros x Hx. specialize (Hlt _ Hx). lia. }
      assert (Hins : forall x, In x [left_remnant policy_ e n] ->
                               greatest (Map.key x) < least e).
      { intros x [<-|[]]. simpl. lia. }
      destruct (erase_loop_tail_complete e He rest (S iter) endIt iter
                  [left_remnant policy_ e n] it eb' ins' Hord' Hall Hins Hloop)
        as (Hit & Hsub & Hvis).
      split; [lia|].
      replace (it - iter)%nat with (S (it - S iter)) by lia. simpl.
      intros x [<-|Hx].
      * split; [lia|]. split; [intros _; apply Hsub; now left | intros; lia].
      * destruct (Hvis x Hx) as [Hv1 Hv2]. split; [assumption|]. split; [|assumption].
        intros Hxl. apply in_firstn in Hx. specialize (Hall x Hx). lia.
Qed.

(** The result of [erase], with the position where the loop starts and the
    number of nodes it visits. *)
Lemma erase_unfold (m : Map) e :
  ordered m -> proper e ->
  exists k eb ins,
    let lb := lowerBound m (least e) in
    erase_loop nbits policy_ e (skipn lb m) lb (end_ m) (end_ m) [] = Ok ((lb + k)%nat, eb, ins)
    /\ erase nbits policy_ m e
       = Ok (Map.insertMultiple IntervalCompare (firstn lb m ++ skipn k (skipn lb m)) ins)
    /\ (forall n, In n (skipn k (skipn lb m)) -> greatest e < least (Map.key n))
    /\ forall z, In z (Map.insertMultiple IntervalCompare
                                          (firstn lb m ++ skipn k (skipn lb m)) ins)
                 <-> In z (firstn lb m ++ skipn k (skipn lb m)) \/ In z ins.
Proof.
  intros Hm He. pose proof (proper_bounds e He) as Heb.
  unfold erase. destruct e as [|le ge] eqn:Ee; [contradiction|]. rewrite <- Ee in *.
  replace (isEmpty e) with false by now rewrite Ee.
  cbv zeta.
  set (lb := lowerBound m (least e)).
  pose proof (lowerBound_le m (least e)) as Hlb. fold lb in Hlb.
  pose proof (firstn_skipn lb m) as Hsplit.
  assert (Hpre : forall x, In x (firstn lb m) -> greatest (Map.key x) < least e)
    by (intros x; apply lowerBound_prefix).
  assert (Hrest : forall x, In x (skipn lb m) -> least e <= greatest (Map.key x))
    by (intros x; now apply lowerBound_suffix).
  assert (Hlen : (lb + length (skipn lb m) <= end_ m)%nat).
  { rewrite length_skipn. unfold end_. lia. }
  destruct (erase_loop_spec e He (skipn lb m) lb (end_ m) (ordered_skipn m lb Hm) Hrest Hlen)
    as (k & ins & Hloop & Hk & Hskip & Hins & Hfrom).
  exists k, (if (k =? 0)%nat then end_ m else lb), ins.
  split; [exact Hloop|]. rewrite Hloop. simpl bind.
  set (m1 := if ((if (k =? 0)%nat then end_ m else lb) =? end_ m)%nat
             then m else Map.eraseAtMultiple m (if (k =? 0)%nat then end_ m else lb) (lb + k)).
  assert (Hm1 : m1 = firstn lb m ++ skipn k (skipn lb m)).
  { unfold m1. destruct k as [|k]; simpl Nat.eqb; cbv iota.
    - rewrite Nat.eqb_refl. simpl. now rewrite Hsplit.
    - rewrite length_skipn in Hk. unfold end_.
      destruct (Nat.eqb_spec lb (length m)); [lia|].
      unfold Map.eraseAtMultiple. rewrite skipn_skipn. f_equal. f_equal. lia. }
  rewrite Hm1.
  assert (Hord1 : ordered (firstn lb m ++ skipn k (skipn lb m))).
  { rewrite <- Hsplit in Hm. apply ordered_app in Hm.
    destruct Hm as (H1 & H2 & H3). apply ordered_app. repeat split; auto.
    - now apply ordered_skipn.
    - intros x y Hx Hy. apply H3; auto. eapply in_skipn; eauto. }
  assert (Hin1 : forall x, In x (firstn lb m ++ skipn k (skipn lb m)) -> In x m /\ apart e x).
  { intros x Hx. apply in_app_or in Hx. destruct Hx as [Hx|Hx].
    - split; [eapply in_firstn; eauto | left; auto].
    - split; [eapply in_skipn; eapply in_skipn; eauto | right; auto]. }
  assert (Hfrom' : forall x, In x ins -> from_erased policy_ e m x).
  { intros x Hx. destruct (Hfrom x Hx) as [(n & Hn & H)|(n & Hn & H)]; [left|right];
      exists n; (split; [eapply in_skipn; eauto | assumption]). }
  destruct (insertMultiple_spec ins _ Hord1 Hins) as [Hord' Hin'].
  { intros x y Hx Hy. destruct (Hin1 y Hy) as [Hym Hya].
    pose proof (proper_bounds _ (ordered_proper m y Hm Hym)) as Hyb.
    destruct (Hfrom' x Hx) as [(n & Hn & Hb & ->)|(n & Hn & Hb & ->)];
      unfold apart in *; simpl.
    - destruct (ordered_cases m n y Hm Hn Hym) as [<-|[H|H]]; lia.
    - destruct (ordered_cases m n y Hm Hn Hym) as [<-|[H|H]]; lia. }
  split; [reflexivity|]. split; [exact Hskip | exact Hin'].
Qed.

(** Every node of the container survives [erase] in its parts outside the
    erasure. *)
Lemma erase_complete (m m' : Map) e :
  ordered m -> proper e -> erase nbits policy_ m e = Ok m' ->
  forall n, In n m ->
    (apart e n -> In n m')
    /\ (least (Map.key n) < least e <= greatest (Map.key n) ->
        In (left_remnant policy_ e n) m')
    /\ (least (Map.key n) <= greatest e < greatest (Map.key n) ->
        In (right_remnant policy_ e n) m').
Proof.
  intros Hm He Her n Hn. pose proof (proper_bounds e He) as Heb.
  destruct (erase_unfold m e Hm He) as (k & eb & ins & Hloop & Heq & Hskip & Hin).
  cbv zeta in *. rewrite Heq in Her. injection Her as <-.
  set (lb := lowerBound m (least e)) in *.
  assert (Hpre : forall x, In x (firstn lb m) -> greatest (Map.key x) < least e)
    by (intros x; apply lowerBound_prefix).
  assert (Hrest : forall x, In x (skipn lb m) -> least e <= greatest (Map.key x))
    by (intros x; now apply lowerBound_suffix).
  destruct (erase_loop_complete e He (skipn lb m) lb (end_ m) _ _ _
              (ordered_skipn m lb Hm) Hrest Hloop) as (_ & Hvis).
  replace (lb + k - lb)%nat with k in Hvis by lia.
  pose proof (proper_bounds _ (ordered_proper m n Hm Hn)) as Hnb.
  destruct (in_split_at m lb n Hn) as [H|H].
  - specialize (Hpre n H). split; [|split; intros; lia].
    intros _. apply Hin. left. apply in_or_app. now left.
  - destruct (in_split_at (skipn lb m) k n H) as [Hv|Hk].
    + destruct (Hvis n Hv) as (H1 & H2 & H3). specialize (Hrest n H).
      split; [intros [Ha|Ha]; lia|].
      split; intros Hb; apply Hin; right; [apply H2 | apply H3]; lia.
    + specialize (Hskip n Hk). split; [|split; intros; lia].
      intros _. apply Hin. left. apply in_or_app. now right.
Qed.

Lemma erase_domain (m : Map) (e : Interval) :
  ordered m -> valid nbits e ->
  exists m',
    erase nbits policy_ m e = Ok m'
    /\ ordered m'
    /\ forall s, Queries.mapped m' s
                 <-> Queries.mapped m s /\ ~ (least e <= s <= greatest e).
Proof.
  intros Hm He. destruct (valid_cases e He) as [->|Hp].
  { exists m. split; [reflexivity|]. split; [assumption|]. simpl. intros s.
    split; [intros H; split; [assumption | lia] | tauto]. }
  pose proof (proper_bounds e Hp) as Heb.
  destruct (erase_spec m e Hm Hp) as (m' & Her & Hord & Hsound).
  exists m'. split; [assumption|]. split; [assumption|].
  intros s. unfold Queries.mapped, Queries.covers. split.
  - intros (x & Hx & Hc). destruct (Hsound x Hx) as [Hap Hfrom].
    split; [|unfold apart in Hap; lia].
    destruct Hfrom as [Hxm|[(n & Hn & Hb & ->)|(n & Hn & Hb & ->)]].
    + now exists x.
    + exists n. split; [assumption|]. simpl in Hc. lia.
    + exists n. split; [assumption|]. simpl in Hc. lia.
  - intros [(n & Hn & Hc) Hout].
    destruct (erase_complete m m' e Hm Hp Her n Hn) as (Hkeep & Hleft & Hright).
    pose proof (proper_bounds _ (ordered_proper m n Hm Hn)) as Hnb.
    destruct (Z.lt_ge_cases (greatest (Map.key n)) (least e)) as [H1|H1].
    { exists n. split; [apply Hkeep; left; lia | assumption]. }
    destruct (Z.lt_ge_cases (greatest e) (least (Map.key n))) as [H2|H2].
    { exists n. split; [apply Hkeep; right; lia | assumption]. }
    destruct (Z.lt_ge_cases s (least e)) as [H3|H3].
    + exists (left_remnant policy_ e n). split; [apply Hleft; lia | simpl; lia].
    + exists (right_remnant policy_ e n). split; [apply Hright; lia | simpl; lia].
Qed.

(** X16.  [erase] unmaps the scalars of the erasure and no other scalar,
    whatever the policy. *)
Theorem erase_mapped (m : Map) (e : Interval) :
  ordered m -> valid nbits e ->
  exists m',
    erase nbits policy_ m e = Ok m'
    /\ ordered m'
    /\ forall s, Queries.mapped m' s
                 <-> Queries.mapped m s /\ ~ (least e <= s <= greatest e).
Proof. apply erase_domain. Qed.

(** *** What [insert] does to the mapping *)

Lemma eraseAt_In (m : Map) i l :
  ordered m -> nth_error m i = Some l ->
  forall x, In x (Map.eraseAt m i) <-> In x m /\ x <> l.
Proof.
  intros Hm Hl x. split.
  - intros Hx. destruct (eraseAt_spec m i l Hm Hl) as [_ H].
    destruct (H x Hx) as [Hin Hap]. split; [assumption|]. intros ->.
    pose proof (proper_bounds _ (ordered_proper m l Hm Hin)). lia.
  - intros [Hx Hne]. unfold Map.eraseAt.
    rewrite (nth_error_split m i l Hl) in Hx. apply in_app_or in Hx.
    apply in_or_app. destruct Hx as [Hx|[Hx|Hx]]; auto. congruence.
Qed.

Lemma merge_left_cases (m : Map) key value m' key' value' :
  ordered m -> proper key -> (forall n, In n m -> apart key n) ->
  merge_left nbits policy_ m key value = (m', key', value') ->
  (m' = m /\ key' = key /\ value' = value)
  \/ exists l, In l m /\ greatest (Map.key l) + 1 = least key
       /\ merge policy_ (Map.key l) (Map.value l) key value = Some value'
       /\ key' = Range (least (Map.key l)) (greatest key)
       /\ forall x, In x m' <-> In x m /\ x <> l.
Proof.
  intros Hm Hkey Hap. pose proof (proper_bounds _ Hkey) as Hkb.
  unfold merge_left.
  destruct (Z.ltb_spec (wrap (least key - 1)) (least key)) as [Hlt|Hge].
  2:{ intros [= <- <- <-]. now left. }
  destruct (nth_error m (find m (wrap (least key - 1)))) as [l|] eqn:El.
  2:{ intros [= <- <- <-]. now left. }
  destruct (wrap (greatest (Map.key l) + 1) =? least key).
  2:{ intros [= <- <- <-]. now left. }
  destruct (merge policy_ (Map.key l) (Map.value l) key value) as [merged|] eqn:Emerge.
  2:{ intros [= <- <- <-]. now left. }
  intros [= <- <- <-]. right. exists l.
  pose proof (nth_error_In _ _ El) as Hl.
  pose proof (proper_bounds _ (ordered_proper m l Hm Hl)) as Hlb.
  assert (H0 : 0 < least key).
  { destruct (Z.eq_dec (least key) 0) as [E|E]; [|lia].
    rewrite E, wrap_pred_zero in Hlt. pose proof modulus_ge_2. lia. }
  rewrite wrap_pred in El |- * by lia.
  pose proof (find_some m _ l Hm El) as Hcov.
  assert (Hadj : greatest (Map.key l) + 1 = least key).
  { destruct (Hap l Hl) as [H|H]; lia. }
  split; [assumption|]. split; [assumption|]. split; [assumption|].
  split; [apply hull_range; lia|].
  now apply eraseAt_In.
Qed.

Lemma merge_right_cases (m : Map) key value m' key' value' :
  ordered m -> proper key -> (forall n, In n m -> apart key n) ->
  merge_right nbits policy_ m key value = (m', key', value') ->
  (m' = m /\ key' = key /\ value' = value)
  \/ exists r, In r m /\ greatest key + 1 = least (Map.key r)
       /\ merge policy_ key value (Map.key r) (Map.value r) = Some value'
       /\ key' = Range (least key) (greatest (Map.key r))
       /\ forall x, In x m' <-> In x m /\ x <> r.
Proof.
  intros Hm Hkey Hap. pose proof (proper_bounds _ Hkey) as Hkb.
  unfold merge_right. rewrite Z.gtb_ltb.
  destruct (Z.ltb_spec (greatest key) (wrap (greatest key + 1))) as [Hlt|Hge].
  2:{ intros [= <- <- <-]. now left. }
  destruct (nth_error m (find m (wrap (greatest key + 1)))) as [r|] eqn:Er.
  2:{ intros [= <- <- <-]. now left. }
  destruct (wrap (greatest key + 1) =? least (Map.key r)).
  2:{ intros [= <- <- <-]. now left. }
  destruct (merge policy_ key value (Map.key r) (Map.value r)) as [merged|] eqn:Emerge.
  2:{ intros [= <- <- <-]. now left. }
  intros [= <- <- <-]. right. exists r.
  pose proof (nth_error_In _ _ Er) as Hr.
  pose proof (proper_bounds _ (ordered_proper m r Hm Hr)) as Hrb.
  assert (H0 : greatest key + 1 < modulus).
  { destruct (Z.eq_dec (greatest key) (modulus - 1)) as [E|E]; [|lia].
    rewrite E, wrap_succ_max in Hlt. lia. }
  rewrite wrap_succ in Er |- * by lia.
  pose proof (find_some m _ r Hm Er) as Hcov.
  assert (Hadj : greatest key + 1 = least (Map.key r)).
  { destruct (Hap r Hr) as [H|H]; lia. }
  split; [assumption|]. split; [assumption|]. split; [assumption|].
  split; [apply hull_range; lia|].
  now apply eraseAt_In.
Qed.

Lemma covers_dec (n : Node) s : Queries.covers n s \/ ~ Queries.covers n s.
Proof. unfold Queries.covers. lia. Qed.

(** A step of [insert] that joins node [n] to the key keeps what is mapped,
    the key counted in. *)
Lemma absorb_mapped (m m' : Map) (key key' : Interval) (n : Node) :
  In n m -> (forall x, In x m' <-> In x m /\ x <> n) ->
  (forall s, least key' <= s <= greatest key'
             <-> least key <= s <= greatest key \/ Queries.covers n s) ->
  forall s, Queries.mapped m' s \/ least key' <= s <= greatest key'
            <-> Queries.mapped m s \/ least key <= s <= greatest key.
Proof.
  intros Hn Hin Hkey s. rewrite Hkey. unfold Queries.mapped. split.
  - intros [(x & Hx & Hc)|[H|H]]; auto.
    + left. exists x. split; [now apply Hin | assumption].
    + left. now exists n.
  - intros [(x & Hx & Hc)|H]; auto.
    destruct (covers_dec n s) as [Hns|Hns]; [right; now right|].
    left. exists x. split; [|assumption]. apply Hin. split; [assumption|].
    intros ->. contradiction.
Qed.

Lemma absorb_maps_to (m m' : Map) (key key' : Interval) (n : Node) (value : T) :
  ordered m -> In n m -> Map.value n = value ->
  (forall x, In x m' <-> In x m /\ x <> n) ->
  (forall s, least key' <= s <= greatest key'
             <-> least key <= s <= greatest key \/ Queries.covers n s) ->
  forall s v, Queries.maps_to m' s v \/ (least key' <= s <= greatest key' /\ v = value)
              <-> Queries.maps_to m s v \/ (least key <= s <= greatest key /\ v = value).
Proof.
  intros Hm Hn Hv Hin Hkey s v. rewrite Hkey. unfold Queries.maps_to. split.
  - intros [(x & Hx & Hc & Hxv)|[[H|H] ->]]; auto.
    + left. exists x. split; [now apply Hin | auto].
    + left. now exists n.
  - intros [(x & Hx & Hc & Hxv)|H]; [|tauto].
    destruct (covers_dec n s) as [Hns|Hns].
    + right. assert (x = n) by (apply (ordered_unique m x n s); assumption).
      subst x. split; [now right | congruence].
    + left. exists x. split; [|auto]. apply Hin. split; [assumption|].
      intros ->. contradiction.
Qed.

Lemma insert_merging_mapped (m : Map) key value :
  ordered m -> proper key -> (forall n, In n m -> apart key n) ->
  forall s, Queries.mapped (insert_merging nbits policy_ m key value) s
            <-> Queries.mapped m s \/ least key <= s <= greatest key.
Proof.
  intros Hm Hkey Hap s. unfold insert_merging.
  destruct (merge_left nbits policy_ m key value) as [[m1 key1] value1] eqn:E1.
  destruct (merge_right nbits policy_ m1 key1 value1) as [[m2 key2] value2] eqn:E2.
  destruct (merge_left_spec m key value m1 key1 value1 Hm Hkey Hap E1)
    as (Hm1 & Hkey1 & Hap1 & _).
  assert (Hap1' : forall n, In n m1 -> apart key1 n) by (intros n Hn; now apply Hap1).
  destruct (merge_right_spec m1 key1 value1 m2 key2 value2 Hm1 Hkey1 Hap1' E2)
    as (Hm2 & Hkey2 & Hap2 & _).
  pose proof (proper_bounds _ Hkey) as Hkb.
  assert (S1 : forall s, Queries.mapped m1 s \/ least key1 <= s <= greatest key1
                         <-> Queries.mapped m s \/ least key <= s <= greatest key).
  { destruct (merge_left_cases m key value m1 key1 value1 Hm Hkey Hap E1)
      as [(-> & -> & ->)|(l & Hl & Hadj & _ & -> & Hin)]; [tauto|].
    apply (absorb_mapped m m1 key _ l Hl Hin).
    pose proof (proper_bounds _ (ordered_proper m l Hm Hl)).
    intros s0. unfold Queries.covers. simpl. lia. }
  pose proof (proper_bounds _ Hkey1) as Hk1b.
  assert (S2 : forall s, Queries.mapped m2 s \/ least key2 <= s <= greatest key2
                         <-> Queries.mapped m1 s \/ least key1 <= s <= greatest key1).
  { destruct (merge_right_cases m1 key1 value1 m2 key2 value2 Hm1 Hkey1 Hap1' E2)
      as [(-> & -> & ->)|(r & Hr & Hadj & _ & -> & Hin)]; [tauto|].
    apply (absorb_mapped m1 m2 key1 _ r Hr Hin).
    pose proof (proper_bounds _ (ordered_proper m1 r Hm1 Hr)).
    intros s0. unfold Queries.covers. simpl. lia. }
  rewrite <- S1, <- S2. unfold Queries.mapped at 1.
  assert (Hin : forall x, In x (Map.insert IntervalCompare key2 value2 m2)
                          <-> x = (key2, value2) \/ In x m2).
  { intros x. apply insert_In. intros n Hn. apply apart_neq; auto.
    - now apply (ordered_proper m2).
    - now apply Hap2. }
  split.
  - intros (x & Hx & Hc). apply Hin in Hx. destruct Hx as [->|Hx].
    + right. exact Hc.
    + left. now exists x.
  - intros [(x & Hx & Hc)|H].
    + exists x. split; [apply Hin; now right | assumption].
    + exists (key2, value2). split; [apply Hin; now left | exact H].
Qed.

Lemma insert_merging_maps_to (m : Map) key value :
  Queries.plain policy_ ->
  ordered m -> proper key -> (forall n, In n m -> apart key n) ->
  forall s v, Queries.maps_to (insert_merging nbits policy_ m key value) s v
              <-> Queries.maps_to m s v \/ (least key <= s <= greatest key /\ v = value).
Proof.
  intros (_ & _ & Hplain) Hm Hkey Hap s v. unfold insert_merging.
  destruct (merge_left nbits policy_ m key value) as [[m1 key1] value1] eqn:E1.
  destruct (merge_right nbits policy_ m1 key1 value1) as [[m2 key2] value2] eqn:E2.
  destruct (merge_left_spec m key value m1 key1 value1 Hm Hkey Hap E1)
    as (Hm1 & Hkey1 & Hap1 & _).
  assert (Hap1' : forall n, In n m1 -> apart key1 n) by (intros n Hn; now apply Hap1).
  destruct (merge_right_spec m1 key1 value1 m2 key2 value2 Hm1 Hkey1 Hap1' E2)
    as (Hm2 & Hkey2 & Hap2 & _).
  pose proof (proper_bounds _ Hkey) as Hkb.
  assert (S1 : value1 = value
               /\ forall s v, Queries.maps_to m1 s v
                              \/ (least key1 <= s <= greatest key1 /\ v = value)
                              <-> Queries.maps_to m s v
                                  \/ (least key <= s <= greatest key /\ v = value)).
  { destruct (merge_left_cases m key value m1 key1 value1 Hm Hkey Hap E1)
      as [(-> & -> & ->)|(l & Hl & Hadj & Hmerge & -> & Hin)]; [split; [reflexivity | tauto]|].
    destruct (Hplain _ _ _ _ _ Hmerge) as [Hlv ->]. split; [assumption|].
    apply (absorb_maps_to m m1 key _ l value Hm Hl Hlv Hin).
    pose proof (proper_bounds _ (ordered_proper m l Hm Hl)).
    intros s0. unfold Queries.covers. simpl. lia. }
  destruct S1 as [-> S1].
  pose proof (proper_bounds _ Hkey1) as Hk1b.
  assert (S2 : value2 = value
               /\ forall s v, Queries.maps_to m2 s v
                              \/ (least key2 <= s <= greatest key2 /\ v = value)
                              <-> Queries.maps_to m1 s v
                                  \/ (least key1 <= s <= greatest key1 /\ v = value)).
  { destruct (merge_right_cases m1 key1 value m2 key2 value2 Hm1 Hkey1 Hap1' E2)
      as [(-> & -> & ->)|(r & Hr & Hadj & Hmerge & -> & Hin)]; [split; [reflexivity | tauto]|].
    destruct (Hplain _ _ _ _ _ Hmerge) as [Hrv ->]. split; [reflexivity|].
    apply (absorb_maps_to m1 m2 key1 _ r value Hm1 Hr (eq_sym Hrv) Hin).
    pose proof (proper_bounds _ (ordered_proper m1 r Hm1 Hr)).
    intros s0. unfold Queries.covers. simpl. lia. }
  destruct S2 as [-> S2].
  rewrite <- S1, <- S2. unfold Queries.maps_to at 1.
  assert (Hin : forall x, In x (Map.insert IntervalCompare key2 value m2)
                          <-> x = (key2, value) \/ In x m2).
  { intros x. apply insert_In. intros n Hn. apply apart_neq; auto.
    - now apply (ordered_proper m2).
    - now apply Hap2. }
  split.
  - intros (x & Hx & Hc & Hv). apply Hin in Hx. destruct Hx as [->|Hx].
    + right. split; [exact Hc | now rewrite <- Hv].
    + left. now exists x.
  - intros [(x & Hx & Hc & Hv)|[H ->]].
    + exists x. split; [apply Hin; now right | auto].
    + exists (key2, value). split; [apply Hin; now left | split; [exact H | reflexivity]].
Qed.

(** The test [insert] makes when it must not make a hole is the test of
    [isOverlapping]. *)
Lemma insert_unfold (m : Map) key value makeHole :
  proper key ->
  insert nbits policy_ m key value makeHole
  = if makeHole then
      m1 <- erase nbits policy_ m key ;;
      Ok (insert_merging nbits policy_ m1 key value)
    else if Queries.isOverlapping m key then Ok m
         else Ok (insert_merging nbits policy_ m key value).
Proof.
  intros Hkey. unfold insert. destruct key as [|lo hi]; [contradiction|].
  simpl isEmpty. cbv iota. destruct makeHole; [reflexivity|].
  unfold Queries.isOverlapping, Queries.findFirstOverlap.
  destruct (nth_error m (lowerBound m (least (Range lo hi)))) as [n|] eqn:En.
  - destruct (isOverlapping (Range lo hi) (Map.key n)).
    + assert (Hne : lowerBound m (least (Range lo hi)) <> end_ m).
      { intros E. rewrite E, nth_error_end in En. discriminate. }
      apply Nat.eqb_neq in Hne. now rewrite Hne.
    + now rewrite Nat.eqb_refl.
  - now rewrite Nat.eqb_refl.
Qed.

Lemma distinct_apart (m : Map) key :
  ordered m -> proper key -> Queries.isOverlapping m key = false ->
  forall n, In n m -> apart key n.
Proof.
  intros Hm Hkey Hd n Hn. unfold Queries.isOverlapping in Hd.
  apply negb_false_iff, Nat.eqb_eq in Hd.
  destruct (findFirstOverlap_cases m key Hm (proper_valid key Hkey)) as [[_ Hall]|(x & Hx & _)].
  - specialize (Hall n Hn).
    rewrite isOverlapping_proper in Hall by (auto; now apply (ordered_proper m)).
    unfold apart. apply andb_false_iff in Hall. rewrite !Z.leb_gt in Hall. lia.
  - rewrite Hd, nth_error_end in Hx. discriminate.
Qed.

Lemma insert_domain (m : Map) (key : Interval) (value : T) (makeHole : bool) :
  ordered m -> valid nbits key ->
  exists m',
    insert nbits policy_ m key value makeHole = Ok m'
    /\ ordered m'
    /\ if makeHole || Queries.isDistinct m key
       then forall s, Queries.mapped m' s
                      <-> Queries.mapped m s \/ least key <= s <= greatest key
       else m' = m.
Proof.
  intros Hm Hk. destruct (valid_cases key Hk) as [->|Hkey].
  { exists m. split; [reflexivity|]. split; [assumption|].
    destruct (makeHole || Queries.isDistinct m Empty); [|reflexivity].
    simpl. intros s. split; [tauto | intros [H|H]; [assumption | lia]]. }
  rewrite insert_unfold by assumption. unfold Queries.isDistinct.
  destruct makeHole; simpl orb.
  - destruct (erase_domain m key Hm Hk) as (m1 & Her & Hm1 & Hsem).
    destruct (erase_spec m key Hm Hkey) as (m1' & Her' & _ & Hsound).
    rewrite Her in Her'. injection Her' as <-.
    assert (Hap : forall n, In n m1 -> apart key n) by (intros n Hn; now apply Hsound).
    rewrite Her. simpl bind. eexists. split; [reflexivity|].
    split; [now apply insert_merging_spec|].
    intros s. rewrite insert_merging_mapped by assumption. rewrite Hsem.
    assert (D : least key <= s <= greatest key \/ ~ (least key <= s <= greatest key)) by lia.
    tauto.
  - destruct (Queries.isOverlapping m key) eqn:Eo; simpl negb.
    + exists m. auto.
    + pose proof (distinct_apart m key Hm Hkey Eo) as Hap.
      eexists. split; [reflexivity|]. split; [now apply insert_merging_spec|].
      intros s. now apply insert_merging_mapped.
Qed.

(** X18.  After [insert] the scalars of the key are mapped besides those
    that were; without [makeHole] nothing changes when a scalar of the key
    is mapped already. This holds whatever the policy. *)
Theorem insert_mapped (m : Map) (key : Interval) (value : T) (makeHole : bool) :
  ordered m -> valid nbits key ->
  exists m',
    insert nbits policy_ m key value makeHole = Ok m'
    /\ ordered m'
    /\ if makeHole || Queries.isDistinct m key
       then forall s, Queries.mapped m' s
                      <-> Queries.mapped m s \/ least key <= s <= greatest key
       else m' = m.
Proof. apply insert_domain. Qed.

(** *** Lookups after [erase] and [insert], for a plain policy *)

Lemma erase_maps_to (m : Map) (e : Interval) :
  Queries.plain policy_ -> ordered m -> valid nbits e ->
  exists m',
    erase nbits policy_ m e = Ok m'
    /\ ordered m'
    /\ (forall n, In n m' -> e = Empty \/ apart e n)
    /\ forall s v, Queries.maps_to m' s v
                   <-> Queries.maps_to m s v /\ ~ (least e <= s <= greatest e).
Proof.
  intros (Hsplit & Htrunc & _) Hm He. destruct (valid_cases e He) as [->|Hp].
  { exists m. split; [reflexivity|]. split; [assumption|]. split; [now left|].
    simpl. intros s v. split; [intros H; split; [assumption | lia] | tauto]. }
  pose proof (proper_bounds e Hp) as Heb.
  destruct (erase_spec m e Hm Hp) as (m' & Her & Hord & Hsound).
  exists m'. split; [assumption|]. split; [assumption|].
  split; [intros n Hn; right; now apply Hsound|].
  assert (Hlv : forall n, Map.value (left_remnant policy_ e n) = Map.value n).
  { intros n. unfold left_remnant, left_value. simpl.
    destruct (greatest e <? greatest (Map.key n)); rewrite ?Htrunc, ?Hsplit; reflexivity. }
  assert (Hrv : forall n, Map.value (right_remnant policy_ e n) = Map.value n).
  { intros n. unfold right_remnant, right_value. simpl. now rewrite Hsplit. }
  intros s v. unfold Queries.maps_to, Queries.covers. split.
  - intros (x & Hx & Hc & Hv). destruct (Hsound x Hx) as [Hap Hfrom].
    split; [|unfold apart in Hap; lia].
    destruct Hfrom as [Hxm|[(n & Hn & Hb & ->)|(n & Hn & Hb & ->)]].
    + now exists x.
    + exists n. split; [assumption|]. rewrite Hlv in Hv. simpl in Hc. split; [lia | assumption].
    + exists n. split; [assumption|]. rewrite Hrv in Hv. simpl in Hc. split; [lia | assumption].
  - intros [(n & Hn & Hc & Hv) Hout].
    destruct (erase_complete m m' e Hm Hp Her n Hn) as (Hkeep & Hleft & Hright).
    pose proof (proper_bounds _ (ordered_proper m n Hm Hn)) as Hnb.
    destruct (Z.lt_ge_cases (greatest (Map.key n)) (least e)) as [H1|H1].
    { exists n. split; [apply Hkeep; left; lia | auto]. }
    destruct (Z.lt_ge_cases (greatest e) (least (Map.key n))) as [H2|H2].
    { exists n. split; [apply Hkeep; right; lia | auto]. }
    destruct (Z.lt_ge_cases s (least e)) as [H3|H3].
    + exists (left_remnant policy_ e n). split; [apply Hleft; lia|].
      rewrite Hlv. simpl. split; [lia | assumption].
    + exists (right_remnant policy_ e n). split; [apply Hright; lia|].
      rewrite Hrv. simpl. split; [lia | assumption].
Qed.

Lemma lookup_from_maps_to (m' : Map) (f : Z -> option T) :
  ordered m' ->
  (forall s v, Queries.maps_to m' s v <-> f s = Some v) ->
  forall s, Queries.getOptional m' s = f s.
Proof.
  intros Hm' H s. destruct (f s) as [v|] eqn:E.
  - apply getOptional_some; [assumption|]. now apply H.
  - apply getOptional_none; [assumption|]. intros (n & Hn & Hc).
    assert (Hsome : f s = Some (Map.value n)) by (apply H; now exists n). congruence.
Qed.

Lemma in_interval_b (i : Interval) s :
  (least i <=? s) && (s <=? greatest i) = true <-> least i <= s <= greatest i.
Proof. rewrite andb_true_iff, !Z.leb_le. tauto. Qed.

Lemma erase_getOptional (m : Map) (e : Interval) :
  Queries.plain policy_ -> ordered m -> valid nbits e ->
  exists m',
    erase nbits policy_ m e = Ok m'
    /\ forall s, Queries.getOptional m' s
                 = if (least e <=? s) && (s <=? greatest e) then None
                   else Queries.getOptional m s.
Proof.
  intros Hplain Hm He.
  destruct (erase_maps_to m e Hplain Hm He) as (m' & Her & Hm' & _ & Hsem).
  exists m'. split; [assumption|].
  apply (lookup_from_maps_to m'); [assumption|].
  intros s v. rewrite Hsem. rewrite <- in_interval_b.
  destruct ((least e <=? s) && (s <=? greatest e)).
  - split; [intros [_ H]; now contradiction H | discriminate].
  - rewrite getOptional_some by assumption. split; [tauto|].
    intros H. split; [assumption | discriminate].
Qed.

(** X17.  For a plain policy, as the default one is, [erase] removes the
    values of the scalars of the erasure and leaves every other scalar with
    its value. *)
Theorem erase_lookup (m : Map) (e : Interval) :
  Queries.plain policy_ -> ordered m -> valid nbits e ->
  exists m',
    erase nbits policy_ m e = Ok m'
    /\ forall s, Queries.getOptional m' s
                 = if (least e <=? s) && (s <=? greatest e) then None
                   else Queries.getOptional m s.
Proof. apply erase_getOptional. Qed.

Lemma insert_getOptional (m : Map) (key : Interval) (value : T) (makeHole : bool) :
  Queries.plain policy_ -> ordered m -> valid nbits key ->
  exists m',
    insert nbits policy_ m key value makeHole = Ok m'
    /\ if makeHole || Queries.isDistinct m key
       then forall s, Queries.getOptional m' s
                      = if (least key <=? s) && (s <=? greatest key) then Some value
                        else Queries.getOptional m s
       else m' = m.
Proof.
  intros Hplain Hm Hk. destruct (valid_cases key Hk) as [->|Hkey].
  { exists m. split; [reflexivity|].
    destruct (makeHole || Queries.isDistinct m Empty); [|reflexivity].
    intros s. simpl. destruct (Z.leb_spec 1 s); [|reflexivity].
    destruct (Z.leb_spec s 0); [lia | reflexivity]. }
  rewrite insert_unfold by assumption. unfold Queries.isDistinct.
  assert (Hfinal : forall m1,
             ordered m1 -> (forall n, In n m1 -> apart key n) ->
             (forall s v, Queries.maps_to m1 s v
                          <-> Queries.maps_to m s v /\ ~ (least key <= s <= greatest key)) ->
             forall s, Queries.getOptional (insert_merging nbits policy_ m1 key value) s
                       = if (least key <=? s) && (s <=? greatest key) then Some value
                         else Queries.getOptional m s).
  { intros m1 Hm1 Hap Hsem.
    apply lookup_from_maps_to; [now apply insert_merging_spec|].
    intros s v. rewrite insert_merging_maps_to by assumption. rewrite Hsem.
    rewrite <- in_interval_b.
    destruct ((least key <=? s) && (s <=? greatest key)).
    - split; [intros [[_ H]|[_ ->]]; [now contradiction H | reflexivity]|].
      intros [= ->]. now right.
    - rewrite getOptional_some by assumption. split.
      + intros [[H _]|[H _]]; [assumption | discriminate].
      + intros H. left. split; [assumption | discriminate]. }
  destruct makeHole; simpl orb.
  - destruct (erase_maps_to m key Hplain Hm Hk) as (m1 & Her & Hm1 & Hap & Hsem).
    rewrite Her. simpl bind. eexists. split; [reflexivity|].
    apply Hfinal; auto.
    intros n Hn. destruct (Hap n Hn) as [->|H]; [contradiction | assumption].
  - destruct (Queries.isOverlapping m key) eqn:Eo; simpl negb.
    + exists m. auto.
    + pose proof (distinct_apart m key Hm Hkey Eo) as Hap.
      eexists. split; [reflexivity|]. apply Hfinal; auto.
      intros s v. split; [|tauto]. intros (n & Hn & Hc & Hv).
      split; [now exists n|]. specialize (Hap n Hn).
      unfold apart, Queries.covers in *. lia.
Qed.

(** X19.  For a plain policy, as the default one is, [insert] gives the
    value to the scalars of the key and leaves every other scalar with its
    value; without [makeHole] nothing changes when a scalar of the key is
    mapped already. *)
Theorem insert_lookup (m : Map) (key : Interval) (value : T) (makeHole : bool) :
  Queries.plain policy_ -> ordered m -> valid nbits key ->
  exists m',
    insert nbits policy_ m key value makeHole = Ok m'
    /\ if makeHole || Queries.isDistinct m key
       then forall s, Queries.getOptional m' s
                      = if (least key <=? s) && (s <=? greatest key) then Some value
                        else Queries.getOptional m s
       else m' = m.
Proof. apply insert_getOptional. Qed.

(** *** How the operations compose *)

(** X20.  After [erase] no node overlaps the erasure. *)
Theorem erase_isDistinct (m : Map) (e : Interval) :
  ordered m -> valid nbits e ->
  exists m',
    erase nbits policy_ m e = Ok m'
    /\ Queries.isOverlapping m' e = false
    /\ Queries.isDistinct m' e = true.
Proof.
  intros Hm He. destruct (erase_domain m e Hm He) as (m' & Her & Hm' & Hsem).
  exists m'. split; [assumption|].
  assert (Ho : Queries.isOverlapping m' e = false).
  { destruct (Queries.isOverlapping m' e) eqn:E; [|reflexivity].
    apply (isOverlapping_mapped m' e Hm' He) in E. destruct E as (s & Hs & Hmapped).
    apply Hsem in Hmapped. tauto. }
  split; [assumption|]. unfold Queries.isDistinct. now rewrite Ho.
Qed.

(** X21.  For a plain policy, inserting an interval and erasing it again
    leaves the lookups as erasing it at once does. *)
Theorem insert_erase_lookup (m : Map) (key : Interval) (value : T) :
  Queries.plain policy_ -> ordered m -> valid nbits key ->
  exists m1 m2 m3,
    insert nbits policy_ m key value true = Ok m1
    /\ erase nbits policy_ m1 key = Ok m2
    /\ erase nbits policy_ m key = Ok m3
    /\ forall s, Queries.getOptional m2 s = Queries.getOptional m3 s
                 /\ (least key <= s <= greatest key -> Queries.getOptional m2 s = None).
Proof.
  intros Hplain Hm Hk.
  destruct (insert_getOptional m key value true Hplain Hm Hk) as (m1 & Hins & H1).
  cbv beta iota delta [orb] in H1.
  destruct (insert_valid_spec m key value true Hm Hk) as (m1' & Hins' & Hm1 & _).
  rewrite Hins in Hins'. injection Hins' as <-.
  destruct (erase_getOptional m1 key Hplain Hm1 Hk) as (m2 & Her2 & H2).
  destruct (erase_getOptional m key Hplain Hm Hk) as (m3 & Her3 & H3).
  exists m1, m2, m3. repeat split; auto.
  - rewrite H2, H3, H1. now destruct ((least key <=? s) && (s <=? greatest key)).
  - intros Hs. rewrite H2. apply in_interval_b in Hs. now rewrite Hs.
Qed.

Lemma insert_own_node (m : Map) (n : Node) :
  ordered m -> In n m ->
  insert nbits policy_ m (Map.key n) (Map.value n) false = Ok m.
Proof.
  intros Hm Hn.
  pose proof (ordered_proper m n Hm Hn) as Hp.
  pose proof (proper_bounds _ Hp) as Hb.
  assert (Hov : Queries.isOverlapping m (Map.key n) = true).
  { apply isOverlapping_mapped; [assumption | now apply proper_valid|].
    exists (least (Map.key n)). split; [lia|].
    exists n. split; [assumption|]. unfold Queries.covers. lia. }
  destruct (insert_domain m (Map.key n) (Map.value n) false Hm (proper_valid _ Hp))
    as (m' & E & _ & Hsame).
  unfold Queries.isDistinct in Hsame. rewrite Hov in Hsame. simpl in Hsame.
  now rewrite E, Hsame.
Qed.

Lemma insertMultiple_loop_own (m : Map) nodes :
  ordered m -> (forall n, In n nodes -> In n m) ->
  insertMultiple_loop nbits policy_ m nodes false = Ok m.
Proof.
  intros Hm. induction nodes as [|oi nodes IH]; intros Hin; simpl; [reflexivity|].
  rewrite (insert_own_node m oi Hm) by (apply Hin; now left). simpl bind.
  apply IH. intros n Hn. apply Hin. now right.
Qed.

(** X22.  [eraseMultiple] and [insertMultiple] abort as soon as they are
    handed a container other than the one they work on, whatever the two
    hold; handed the container itself without [makeHole], [insertMultiple]
    returns and leaves every node as it was. *)
Theorem multiple_guard (m : Map) (nodes : list Node) (makeHole : bool) :
  ordered m ->
  eraseMultiple nbits policy_ m (Another nodes) = Fatal
  /\ IntervalMap.insertMultiple nbits policy_ m (Another nodes) makeHole = Fatal
  /\ IntervalMap.insertMultiple nbits policy_ m This false = Ok m.
Proof.
  intros Hm. split; [reflexivity|]. split; [reflexivity|].
  unfold IntervalMap.insertMultiple. simpl.
  apply insertMultiple_loop_own; auto.
Qed.


End Facts.

(** The default policy is stable. *)
Lemma MergePolicy_stable nbits (T : Type) (eqb : T -> T -> bool) :
  (forall x y, eqb x y = true <-> x = y) ->
  stable nbits (MergePolicy eqb).
Proof.
  intros Heqb.
  assert (Hmerge : forall i1 v1 i2 v2 merged,
             merge (MergePolicy eqb) i1 v1 i2 v2 = Some merged ->
             merged = v1 /\ v1 = v2).
  { simpl. intros i1 v1 i2 v2 merged. destruct (eqb v1 v2) eqn:E; [|discriminate].
    intros [= <-]. split; [reflexivity | now apply Heqb]. }
  split; intros.
  - match goal with H : merge _ _ _ _ _ = Some _ |- _ => apply Hmerge in H; destruct H as [-> _] end.
    reflexivity.
  - match goal with H : merge _ _ _ _ _ = Some _ |- _ => apply Hmerge in H; destruct H as [-> ->] end.
    reflexivity.
  - reflexivity.
  - reflexivity.
  - reflexivity.
Qed.

(** *** The theorems at concrete inputs *)

Lemma run_invariants_witness :
  run 8 (MergePolicy Z.eqb) []
      [OpInsert (Range 1 5) 7 true; OpInsert (Range 6 6) 7 true;
       OpInsertMultiple This false; OpErase (Range 2 3)]
  = Ok [(Range 1 1, 7); (Range 4 6, 7)]
  /\ (forall i j a b, i <> j ->
        nth_error [(Range 1 1, 7); (Range 4 6, 7)] i = Some a ->
        nth_error [(Range 1 1, 7); (Range 4 6, 7)] j = Some b ->
        isOverlapping (Map.key a) (Map.key b) = false)
  /\ (forall i j a b,
        nth_error [(Range 1 1, 7); (Range 4 6, 7)] i = Some a ->
        nth_error [(Range 1 1, 7); (Range 4 6, 7)] j = Some b ->
        greatest (Map.key a) + 1 = least (Map.key b) ->
        mergeable (MergePolicy Z.eqb) a b = false).
Proof.
  destruct (run_invariants 8 Z (MergePolicy Z.eqb)
              [OpInsert (Range 1 5) 7 true; OpInsert (Range 6 6) 7 true;
               OpInsertMultiple This false; OpErase (Range 2 3)]) as (Hinv & _ & _).
  - repeat constructor; simpl; lia.
  - destruct (Hinv [(Range 1 1, 7); (Range 4 6, 7)] eq_refl) as (H2 & H3).
    split; [reflexivity|]. split; [exact H2|].
    apply H3. apply MergePolicy_stable. intros x y. apply Z.eqb_eq.
Defined.

(** With a policy that is not stable the container comes to hold two
    adjacent nodes that the policy would merge. *)
Lemma parity_policy_counterexample :
  run 8 parity_policy []
      [OpInsert (Range 0 0) 1 true; OpInsert (Range 1 1) 2 true;
       OpInsert (Range 2 2) 4 true]
  = Ok [(Range 0 0, 1); (Range 1 2, 7)]
  /\ greatest (Range 0 0) + 1 = least (Range 1 2)
  /\ mergeable parity_policy (Range 0 0, 1) (Range 1 2, 7) = true.
Proof. repeat split. Qed.

Lemma insert_contains_witness :
  exists m',
    insert 8 (MergePolicy Z.eqb) [(Range 0 9, 1); (Range 20 29, 2)]
           (Range 5 24) 3 true = Ok m'
    /\ contains 8 m' (Range 5 24) = Ok true.
Proof.
  apply (insert_contains 8 Z (MergePolicy Z.eqb)).
  - simpl. repeat split; try lia.
    intros n' [<-|[]]. simpl. lia.
  - cbv [valid proper modulus]. lia.
Defined.

(** [insert] of the empty interval returns; it does not abort. *)
Lemma insert_empty_counterexample :
  insert 8 (MergePolicy Z.eqb) [(Range 0 9, 1)] Empty 2 true
  = Ok [(Range 0 9, 1)]
  /\ insert 8 (MergePolicy Z.eqb) [(Range 0 9, 1)] Empty 2 true <> Fatal.
Proof. split; [reflexivity | discriminate]. Qed.

Lemma bestFit_whole_domain_witness :
  bestFit 8 [(whole 8, 1)] 1 0 = end_ [(whole 8, 1)]
  /\ isLarge 8 (whole 8) 1 = true
  /\ firstFit 8 [(whole 8, 1)] 1 0 = 0%nat.
Proof. apply (bestFit_whole_domain 8 Z 1 1). lia. Defined.

(** *** The default policy is plain *)

Lemma MergePolicy_plain (T : Type) (eqb : T -> T -> bool) :
  (forall x y, eqb x y = true -> x = y) ->
  Queries.plain (MergePolicy eqb).
Proof.
  intros Heqb. split; [|split]; simpl; auto.
  intros _ v1 _ v2 merged. destruct (eqb v1 v2) eqn:E; [|discriminate].
  intros [= <-]. split; [now apply Heqb | reflexivity].
Qed.

(** *** Overlaps between two containers *)

Section PairOverlap.
Variable nbits : positive.
Variables T T2 : Type.
Variable m : IntervalMap.Map T.
Variable other : IntervalMap.Map T2.
Hypothesis Hm : ordered nbits m.
Hypothesis Hother : ordered nbits other.
Variables start1 start2 : nat.

Lemma findFirstOverlap_loop_cons endThis endOther a (rest : IntervalMap.Map T) i
      b (orest : IntervalMap.Map T2) j :
  Queries.findFirstOverlap_loop endThis endOther (a :: rest) i (b :: orest) j
  = if isOverlapping (Map.key a) (Map.key b) then (i, j)
    else if greatest (Map.key a) <? greatest (Map.key b)
         then Queries.findFirstOverlap_loop endThis endOther rest (S i) (b :: orest) j
         else Queries.findFirstOverlap_loop endThis endOther (a :: rest) i orest (S j).
Proof. reflexivity. Qed.

Lemma skipn_nil_length (A : Type) (l : list A) i : skipn i l = [] -> (length l <= i)%nat.
Proof.
  intros H. pose proof (length_skipn i l) as E. rewrite H in E. simpl in E. lia.
Qed.

Lemma nth_error_length (A : Type) (l : list A) i x :
  nth_error l i = Some x -> (i < length l)%nat.
Proof. intros H. apply nth_error_Some. congruence. Qed.

Lemma findFirstOverlap_loop_spec :
  forall rest i, skipn i m = rest -> (start1 <= i)%nat ->
  forall orest j, skipn j other = orest -> (start2 <= j)%nat ->
    (forall i' j' a b, (start1 <= i')%nat -> (start2 <= j')%nat ->
       (i' < i \/ j' < j)%nat ->
       nth_error m i' = Some a -> nth_error other j' = Some b ->
       isOverlapping (Map.key a) (Map.key b) = false) ->
    let r := Queries.findFirstOverlap_loop (end_ m) (end_ other) rest i orest j in
    (r = (end_ m, end_ other)
     /\ forall i' j' a b, (start1 <= i')%nat -> (start2 <= j')%nat ->
          nth_error m i' = Some a -> nth_error other j' = Some b ->
          isOverlapping (Map.key a) (Map.key b) = false)
    \/ (exists a b,
          nth_error m (fst r) = Some a /\ nth_error other (snd r) = Some b
          /\ (start1 <= fst r)%nat /\ (start2 <= snd r)%nat
          /\ isOverlapping (Map.key a) (Map.key b) = true
          /\ forall i' j' a' b', (start1 <= i')%nat -> (start2 <= j')%nat ->
               (i' < fst r \/ j' < snd r)%nat ->
               nth_error m i' = Some a' -> nth_error other j' = Some b' ->
               isOverlapping (Map.key a') (Map.key b') = false).
Proof.
  induction rest as [|a rest IHrest]; intros i Hrest Hi.
  - intros orest j Horest Hj Hinv. left. split; [reflexivity|].
    intros i' j' a b Hi' Hj' Ha Hb. apply (Hinv i' j'); auto.
    left. apply skipn_nil_length in Hrest. apply nth_error_length in Ha. lia.
  - pose proof (skipn_head T m i a rest Hrest) as Ha.
    pose proof (ordered_proper nbits T m a Hm (nth_error_In _ _ Ha)) as Hap.
    pose proof (proper_bounds nbits _ Hap) as Hab.
    induction orest as [|b orest IHorest]; intros j Horest Hj Hinv.
    + left. split; [reflexivity|].
      intros i' j' a' b' Hi' Hj' Ha' Hb'. apply (Hinv i' j'); auto.
      right. apply skipn_nil_length in Horest. apply nth_error_length in Hb'. lia.
    + pose proof (skipn_head T2 other j b orest Horest) as Hb.
      pose proof (ordered_proper nbits T2 other b Hother (nth_error_In _ _ Hb)) as Hbp.
      pose proof (proper_bounds nbits _ Hbp) as Hbb.
      rewrite findFirstOverlap_loop_cons.
      destruct (isOverlapping (Map.key a) (Map.key b)) eqn:Eo.
      * right. exists a, b. simpl. repeat split; auto.
      * rewrite (isOverlapping_proper nbits) in Eo by assumption.
        apply andb_false_iff in Eo. rewrite !Z.leb_gt in Eo.
        destruct (Z.ltb_spec (greatest (Map.key a)) (greatest (Map.key b))) as [Hlt|Hge].
        -- apply (IHrest (S i)); auto.
           { rewrite (skipn_nth_error T m i a Ha) in Hrest. congruence. }
           intros i' j' a' b' Hi' Hj' Hor Ha' Hb'.
           destruct (Nat.lt_ge_cases j' j) as [Hjj|Hjj]; [apply (Hinv i' j'); auto|].
           destruct (Nat.lt_ge_cases i' i) as [Hii|Hii]; [apply (Hinv i' j'); auto|].
           assert (i' = i) by lia. subst i'. assert (a' = a) by congruence. subst a'.
           pose proof (ordered_proper nbits T2 other b' Hother (nth_error_In _ _ Hb')) as Hb'p.
           pose proof (proper_bounds nbits _ Hb'p) as Hb'b.
           rewrite (isOverlapping_proper nbits) by assumption.
           assert (greatest (Map.key a) < least (Map.key b')).
           { destruct (Nat.eq_dec j' j) as [->|Hne].
             - assert (b' = b) by congruence. subst b'. lia.
             - assert (Hjlt : (j < j')%nat) by lia.
               pose proof (ordered_nth_lt nbits T2 other j j' b b' Hother Hjlt Hb Hb'). lia. }
           destruct (Z.leb_spec (least (Map.key b')) (greatest (Map.key a))); [lia|].
           apply andb_false_r.
        -- apply IHorest; auto.
           { rewrite (skipn_nth_error T2 other j b Hb) in Horest. congruence. }
           intros i' j' a' b' Hi' Hj' Hor Ha' Hb'.
           destruct (Nat.lt_ge_cases i' i) as [Hii|Hii]; [apply (Hinv i' j'); auto|].
           destruct (Nat.lt_ge_cases j' j) as [Hjj|Hjj]; [apply (Hinv i' j'); auto|].
           assert (j' = j) by lia. subst j'. assert (b' = b) by congruence. subst b'.
           pose proof (ordered_proper nbits T m a' Hm (nth_error_In _ _ Ha')) as Ha'p.
           pose proof (proper_bounds nbits _ Ha'p) as Ha'b.
           rewrite (isOverlapping_proper nbits) by assumption.
           assert (greatest (Map.key b) < least (Map.key a')).
           { destruct (Nat.eq_dec i' i) as [->|Hne].
             - assert (a' = a) by congruence. subst a'. lia.
             - assert (Hilt : (i < i')%nat) by lia.
               pose proof (ordered_nth_lt nbits T m i i' a a' Hm Hilt Ha Ha'). lia. }
           destruct (Z.leb_spec (least (Map.key a')) (greatest (Map.key b))); [lia|].
           reflexivity.
Qed.

(** X6.  The form of [findFirstOverlap] that walks two containers returns
    the first pair of overlapping nodes at or after the two starting points:
    no node before either of them overlaps a node of the other container; it
    returns the two end iterators when no two such nodes overlap. *)
Theorem findFirstOverlap_pair_spec :
  let r := Queries.findFirstOverlap_pair m start1 other start2 in
  (r = (end_ m, end_ other)
   /\ forall i' j' a b, (start1 <= i')%nat -> (start2 <= j')%nat ->
        nth_error m i' = Some a -> nth_error other j' = Some b ->
        isOverlapping (Map.key a) (Map.key b) = false)
  \/ (exists a b,
        nth_error m (fst r) = Some a /\ nth_error other (snd r) = Some b
        /\ (start1 <= fst r)%nat /\ (start2 <= snd r)%nat
        /\ isOverlapping (Map.key a) (Map.key b) = true
        /\ forall i' j' a' b', (start1 <= i')%nat -> (start2 <= j')%nat ->
             (i' < fst r \/ j' < snd r)%nat ->
             nth_error m i' = Some a' -> nth_error other j' = Some b' ->
             isOverlapping (Map.key a') (Map.key b') = false).
Proof.
  unfold Queries.findFirstOverlap_pair.
  apply findFirstOverlap_loop_spec; auto. intros; lia.
Qed.
End PairOverlap.

(** *** The theorems on queries at concrete inputs *)

Ltac ordered_example :=
  repeat (split;
          [ cbv [Interval.proper Interval.modulus Map.key fst]; lia
          | split;
            [ let Hin := fresh "Hin" in
              intros ? Hin; simpl in Hin;
              repeat (destruct Hin as [<-|Hin]; [simpl; lia|]); contradiction
            | ] ]);
  exact I.

Ltac valid_example := cbv [Interval.valid Interval.proper Interval.modulus]; lia.

Ltac plain_example :=
  apply MergePolicy_plain; intros x y Hxy; now apply Z.eqb_eq.

Lemma find_spec_witness :
  (forall n, nth_error [(Range 0 9, 1); (Range 20 29, 2)]
                       (find [(Range 0 9, 1); (Range 20 29, 2)] 25) = Some n ->
             Queries.covers n 25)
  /\ (forall n, In n [(Range 0 9, 1); (Range 20 29, 2)] -> Queries.covers n 25 ->
        nth_error [(Range 0 9, 1); (Range 20 29, 2)]
                  (find [(Range 0 9, 1); (Range 20 29, 2)] 25) = Some n)
  /\ (find [(Range 0 9, 1); (Range 20 29, 2)] 25 = end_ [(Range 0 9, 1); (Range 20 29, 2)]
      <-> ~ Queries.mapped [(Range 0 9, 1); (Range 20 29, 2)] 25).
Proof. apply (find_spec 8 Z). ordered_example. Defined.

Lemma lookup_spec_witness :
  (forall v, Queries.maps_to [(Range 0 9, 1); (Range 20 29, 2)] 25 v ->
     Queries.index [(Range 0 9, 1); (Range 20 29, 2)] 25 = Queries.Found v
     /\ Queries.getOptional [(Range 0 9, 1); (Range 20 29, 2)] 25 = Some v
     /\ Queries.getOrElse [(Range 0 9, 1); (Range 20 29, 2)] 25 7 = v
     /\ Queries.getOrDefault 7 [(Range 0 9, 1); (Range 20 29, 2)] 25 = v)
  /\ (~ Queries.mapped [(Range 0 9, 1); (Range 20 29, 2)] 25 ->
      Queries.index [(Range 0 9, 1); (Range 20 29, 2)] 25 = Queries.domain_error
      /\ Queries.getOptional [(Range 0 9, 1); (Range 20 29, 2)] 25 = None
      /\ Queries.getOrElse [(Range 0 9, 1); (Range 20 29, 2)] 25 7 = 7
      /\ Queries.getOrDefault 7 [(Range 0 9, 1); (Range 20 29, 2)] 25 = 7).
Proof. apply (lookup_spec 8 Z). ordered_example. Defined.

Lemma findPrior_spec_witness :
  (Queries.findPrior [(Range 0 9, 1); (Range 20 29, 2)] 15
   = end_ [(Range 0 9, 1); (Range 20 29, 2)]
   /\ forall n, In n [(Range 0 9, 1); (Range 20 29, 2)] -> 15 < least (Map.key n))
  \/ (exists n, nth_error [(Range 0 9, 1); (Range 20 29, 2)]
                          (Queries.findPrior [(Range 0 9, 1); (Range 20 29, 2)] 15) = Some n
                /\ least (Map.key n) <= 15
                /\ forall j n',
                     (Queries.findPrior [(Range 0 9, 1); (Range 20 29, 2)] 15 < j)%nat ->
                     nth_error [(Range 0 9, 1); (Range 20 29, 2)] j = Some n' ->
                     15 < least (Map.key n')).
Proof. apply (findPrior_spec 8 Z). ordered_example. Defined.

Lemma findFirstOverlap_spec_witness :
  (Queries.findFirstOverlap [(Range 0 9, 1); (Range 20 29, 2)] (Range 5 24)
   = end_ [(Range 0 9, 1); (Range 20 29, 2)]
   /\ forall n, In n [(Range 0 9, 1); (Range 20 29, 2)] ->
                isOverlapping (Range 5 24) (Map.key n) = false)
  \/ (exists n,
        nth_error [(Range 0 9, 1); (Range 20 29, 2)]
                  (Queries.findFirstOverlap [(Range 0 9, 1); (Range 20 29, 2)] (Range 5 24))
        = Some n
        /\ isOverlapping (Range 5 24) (Map.key n) = true
        /\ forall j n',
             (j < Queries.findFirstOverlap [(Range 0 9, 1); (Range 20 29, 2)] (Range 5 24))%nat ->
             nth_error [(Range 0 9, 1); (Range 20 29, 2)] j = Some n' ->
             isOverlapping (Range 5 24) (Map.key n') = false).
Proof. apply (findFirstOverlap_spec 8 Z); [ordered_example | valid_example]. Defined.

Lemma isOverlapping_spec_witness :
  (Queries.isOverlapping [(Range 0 9, 1); (Range 20 29, 2)] (Range 10 19) = true
   <-> exists s, least (Range 10 19) <= s <= greatest (Range 10 19)
                 /\ Queries.mapped [(Range 0 9, 1); (Range 20 29, 2)] s)
  /\ (Queries.isDistinct [(Range 0 9, 1); (Range 20 29, 2)] (Range 10 19) = true
      <-> forall s, least (Range 10 19) <= s <= greatest (Range 10 19) ->
                    ~ Queries.mapped [(Range 0 9, 1); (Range 20 29, 2)] s).
Proof. apply (isOverlapping_spec 8 Z); [ordered_example | valid_example]. Defined.

Lemma findFirstOverlap_pair_spec_witness :
  let r := Queries.findFirstOverlap_pair [(Range 0 9, 1); (Range 20 29, 2)] 0
                                         [(Range 10 15, true); (Range 29 40, false)] 0 in
  (r = (end_ [(Range 0 9, 1); (Range 20 29, 2)],
        end_ [(Range 10 15, true); (Range 29 40, false)])
   /\ forall i' j' a b, (0 <= i')%nat -> (0 <= j')%nat ->
        nth_error [(Range 0 9, 1); (Range 20 29, 2)] i' = Some a ->
        nth_error [(Range 10 15, true); (Range 29 40, false)] j' = Some b ->
        isOverlapping (Map.key a) (Map.key b) = false)
  \/ (exists a b,
        nth_error [(Range 0 9, 1); (Range 20 29, 2)] (fst r) = Some a
        /\ nth_error [(Range 10 15, true); (Range 29 40, false)] (snd r) = Some b
        /\ (0 <= fst r)%nat /\ (0 <= snd r)%nat
        /\ isOverlapping (Map.key a) (Map.key b) = true
        /\ forall i' j' a' b', (0 <= i')%nat -> (0 <= j')%nat ->
             (i' < fst r \/ j' < snd r)%nat ->
             nth_error [(Range 0 9, 1); (Range 20 29, 2)] i' = Some a' ->
             nth_error [(Range 10 15, true); (Range 29 40, false)] j' = Some b' ->
             isOverlapping (Map.key a') (Map.key b') = false).
Proof. apply (findFirstOverlap_pair_spec 8 Z bool); ordered_example. Defined.

Lemma firstFit_spec_witness :
  (firstFit 8 [(Range 0 9, 1); (Range 20 59, 2)] 20 0 = end_ [(Range 0 9, 1); (Range 20 59, 2)]
   /\ forall j n, (0 <= j)%nat ->
        nth_error [(Range 0 9, 1); (Range 20 59, 2)] j = Some n ->
        Queries.width (Map.key n) < 20)
  \/ (exists n,
        nth_error [(Range 0 9, 1); (Range 20 59, 2)]
                  (firstFit 8 [(Range 0 9, 1); (Range 20 59, 2)] 20 0) = Some n
        /\ (0 <= firstFit 8 [(Range 0 9, 1); (Range 20 59, 2)] 20 0)%nat
        /\ 20 <= Queries.width (Map.key n)
        /\ forall j n',
             (0 <= j < firstFit 8 [(Range 0 9, 1); (Range 20 59, 2)] 20 0)%nat ->
             nth_error [(Range 0 9, 1); (Range 20 59, 2)] j = Some n' ->
             Queries.width (Map.key n') < 20).
Proof.
  apply (firstFit_spec 8 Z); [ordered_example | cbv [Interval.modulus]; lia].
Defined.

Lemma size_spec_witness :
  0 <= Queries.count [(Range 0 127, 1); (Range 128 255, 2)] <= Interval.modulus 8
  /\ Queries.size 8 [(Range 0 127, 1); (Range 128 255, 2)]
     = if Queries.count [(Range 0 127, 1); (Range 128 255, 2)] =? Interval.modulus 8
       then 0 else Queries.count [(Range 0 127, 1); (Range 128 255, 2)].
Proof. apply (size_spec 8 Z). ordered_example. Defined.

Lemma least_greatest_spec_witness :
  ([(Range 3 9, 1); (Range 20 29, 2)] = [] ->
   Queries.least [(Range 3 9, 1); (Range 20 29, 2)] = Fatal
   /\ Queries.greatest [(Range 3 9, 1); (Range 20 29, 2)] = Fatal)
  /\ ([(Range 3 9, 1); (Range 20 29, 2)] <> [] ->
      exists lo hi,
        Queries.least [(Range 3 9, 1); (Range 20 29, 2)] = Ok lo
        /\ Queries.greatest [(Range 3 9, 1); (Range 20 29, 2)] = Ok hi
        /\ Queries.mapped [(Range 3 9, 1); (Range 20 29, 2)] lo
        /\ Queries.mapped [(Range 3 9, 1); (Range 20 29, 2)] hi
        /\ forall s, Queries.mapped [(Range 3 9, 1); (Range 20 29, 2)] s -> lo <= s <= hi).
Proof. apply (least_greatest_spec 8 Z). ordered_example. Defined.

Lemma hull_spec_witness :
  exists h,
    Queries.hull [(Range 3 9, 1); (Range 20 29, 2)] = Ok h
    /\ ([(Range 3 9, 1); (Range 20 29, 2)] = [] -> h = Empty)
    /\ ([(Range 3 9, 1); (Range 20 29, 2)] <> [] ->
        Interval.proper 8 h
        /\ Queries.mapped [(Range 3 9, 1); (Range 20 29, 2)] (least h)
        /\ Queries.mapped [(Range 3 9, 1); (Range 20 29, 2)] (greatest h)
        /\ forall s, Queries.mapped [(Range 3 9, 1); (Range 20 29, 2)] s ->
                     least h <= s <= greatest h).
Proof. apply (hull_spec 8 Z). ordered_example. Defined.

Lemma least_limited_spec_witness :
  match Queries.least_limited [(Range 3 9, 1); (Range 20 29, 2)] 12 with
  | Some r =>
      12 <= r /\ Queries.mapped [(Range 3 9, 1); (Range 20 29, 2)] r
      /\ forall s, 12 <= s < r -> ~ Queries.mapped [(Range 3 9, 1); (Range 20 29, 2)] s
  | None => forall s, 12 <= s -> ~ Queries.mapped [(Range 3 9, 1); (Range 20 29, 2)] s
  end.
Proof. apply (least_limited_spec 8 Z _ 12). ordered_example. Defined.

Lemma greatest_limited_spec_witness :
  match Queries.greatest_limited [(Range 3 9, 1); (Range 20 29, 2)] 12 with
  | Some r =>
      r <= 12 /\ Queries.mapped [(Range 3 9, 1); (Range 20 29, 2)] r
      /\ forall s, r < s <= 12 -> ~ Queries.mapped [(Range 3 9, 1); (Range 20 29, 2)] s
  | None => forall s, s <= 12 -> ~ Queries.mapped [(Range 3 9, 1); (Range 20 29, 2)] s
  end.
Proof. apply (greatest_limited_spec 8 Z _ 12). ordered_example. Defined.

Lemma leastUnmapped_spec_witness :
  match Queries.leastUnmapped 8 [(Range 3 9, 1); (Range 10 29, 2)] 5 with
  | Some r =>
      5 <= r < Interval.modulus 8
      /\ ~ Queries.mapped [(Range 3 9, 1); (Range 10 29, 2)] r
      /\ forall s, 5 <= s < r -> Queries.mapped [(Range 3 9, 1); (Range 10 29, 2)] s
  | None =>
      forall s, 5 <= s < Interval.modulus 8 ->
                Queries.mapped [(Range 3 9, 1); (Range 10 29, 2)] s
  end.
Proof.
  apply (leastUnmapped_spec 8 Z _ 5); [ordered_example | cbv [Interval.modulus]; lia].
Defined.

Lemma greatestUnmapped_spec_witness :
  match Queries.greatestUnmapped 8 [(Range 3 9, 1); (Range 10 29, 2)] 25 with
  | Some r =>
      0 <= r <= 25
      /\ ~ Queries.mapped [(Range 3 9, 1); (Range 10 29, 2)] r
      /\ forall s, r < s <= 25 -> Queries.mapped [(Range 3 9, 1); (Range 10 29, 2)] s
  | None =>
      forall s, 0 <= s <= 25 -> Queries.mapped [(Range 3 9, 1); (Range 10 29, 2)] s
  end.
Proof.
  apply (greatestUnmapped_spec 8 Z _ 25); [ordered_example | cbv [Interval.modulus]; lia].
Defined.

Lemma contains_spec_witness :
  exists b,
    contains 8 [(Range 3 9, 1); (Range 10 29, 2)] (Range 5 20) = Ok b
    /\ (b = true
        <-> forall s, least (Range 5 20) <= s <= greatest (Range 5 20) ->
                      Queries.mapped [(Range 3 9, 1); (Range 10 29, 2)] s).
Proof. apply (contains_spec 8 Z); [ordered_example | valid_example]. Defined.

Lemma erase_mapped_witness :
  exists m',
    erase 8 parity_policy [(Range 0 9, 1); (Range 20 29, 2)] (Range 5 24) = Ok m'
    /\ ordered 8 m'
    /\ forall s, Queries.mapped m' s
                 <-> Queries.mapped [(Range 0 9, 1); (Range 20 29, 2)] s
                     /\ ~ (least (Range 5 24) <= s <= greatest (Range 5 24)).
Proof. apply (erase_mapped 8 Z); [ordered_example | valid_example]. Defined.

Lemma erase_lookup_witness :
  exists m',
    erase 8 (MergePolicy Z.eqb) [(Range 0 9, 1); (Range 20 29, 2)] (Range 5 24) = Ok m'
    /\ forall s, Queries.getOptional m' s
                 = if (least (Range 5 24) <=? s) && (s <=? greatest (Range 5 24)) then None
                   else Queries.getOptional [(Range 0 9, 1); (Range 20 29, 2)] s.
Proof.
  apply (erase_lookup 8 Z); [plain_example | ordered_example | valid_example].
Defined.

Lemma insert_mapped_witness :
  exists m',
    insert 8 parity_policy [(Range 0 9, 1); (Range 20 29, 2)] (Range 5 24) 3 true = Ok m'
    /\ ordered 8 m'
    /\ if true || Queries.isDistinct [(Range 0 9, 1); (Range 20 29, 2)] (Range 5 24)
       then forall s, Queries.mapped m' s
                      <-> Queries.mapped [(Range 0 9, 1); (Range 20 29, 2)] s
                          \/ least (Range 5 24) <= s <= greatest (Range 5 24)
       else m' = [(Range 0 9, 1); (Range 20 29, 2)].
Proof. apply (insert_mapped 8 Z); [ordered_example | valid_example]. Defined.

Lemma insert_lookup_witness :
  exists m',
    insert 8 (MergePolicy Z.eqb) [(Range 0 9, 1); (Range 20 29, 2)] (Range 10 19) 1 false
    = Ok m'
    /\ if false || Queries.isDistinct [(Range 0 9, 1); (Range 20 29, 2)] (Range 10 19)
       then forall s, Queries.getOptional m' s
                      = if (least (Range 10 19) <=? s) && (s <=? greatest (Range 10 19))
                        then Some 1
                        else Queries.getOptional [(Range 0 9, 1); (Range 20 29, 2)] s
       else m' = [(Range 0 9, 1); (Range 20 29, 2)].
Proof.
  apply (insert_lookup 8 Z); [plain_example | ordered_example | valid_example].
Defined.

Lemma erase_isDistinct_witness :
  exists m',
    erase 8 (MergePolicy Z.eqb) [(Range 0 9, 1); (Range 20 29, 2)] (Range 5 24) = Ok m'
    /\ Queries.isOverlapping m' (Range 5 24) = false
    /\ Queries.isDistinct m' (Range 5 24) = true.
Proof. apply (erase_isDistinct 8 Z); [ordered_example | valid_example]. Defined.

Lemma insert_erase_lookup_witness :
  exists m1 m2 m3,
    insert 8 (MergePolicy Z.eqb) [(Range 0 9, 1); (Range 20 29, 2)] (Range 5 24) 3 true
    = Ok m1
    /\ erase 8 (MergePolicy Z.eqb) m1 (Range 5 24) = Ok m2
    /\ erase 8 (MergePolicy Z.eqb) [(Range 0 9, 1); (Range 20 29, 2)] (Range 5 24) = Ok m3
    /\ forall s, Queries.getOptional m2 s = Queries.getOptional m3 s
                 /\ (least (Range 5 24) <= s <= greatest (Range 5 24) ->
                     Queries.getOptional m2 s = None).
Proof.
  apply (insert_erase_lookup 8 Z); [plain_example | ordered_example | valid_example].
Defined.

Lemma multiple_guard_witness :
  eraseMultiple 8 (MergePolicy Z.eqb) [(Range 0 9, 1); (Range 20 29, 2)]
                (Another [(Range 5 6, 0); (Range 8 21, 0)]) = Fatal
  /\ IntervalMap.insertMultiple 8 (MergePolicy Z.eqb) [(Range 0 9, 1); (Range 20 29, 2)]
                                (Another [(Range 5 6, 0); (Range 8 21, 0)]) true = Fatal
  /\ IntervalMap.insertMultiple 8 (MergePolicy Z.eqb) [(Range 0 9, 1); (Range 20 29, 2)]
                                This false
     = Ok [(Range 0 9, 1); (Range 20 29, 2)].
Proof.
  apply (multiple_guard 8 Z). ordered_example.
Defined.


End IntervalMapFacts.

(** ** Facts about the symbolic policy *)

Module SymbolicFacts.
Import SymbolicSemantics.

(** *** Expression trees *)

Lemma TreeNode_ind (P : TreeNode -> Prop) :
  (forall nbits known ival, P (LeafNode nbits known ival)) ->
  (forall nbits op children, Forall P children -> P (InternalNode nbits op children)) ->
  forall e, P e.
Proof.
  intros Hleaf Hint. fix IH 1. intros [nbits op children|nbits known ival].
  - apply Hint. induction children as [|c children IHc]; constructor.
    + apply IH.
    + exact IHc.
  - apply Hleaf.
Qed.

Lemma Operator_beq_refl op : Operator_beq op op = true.
Proof. now destruct op. Qed.

Lemma equal_to_refl e : equal_to e e = true.
Proof.
  induction e as [nbits known ival|nbits op children IH] using TreeNode_ind; simpl.
  - now rewrite Z.eqb_refl, eqb_reflx, Z.eqb_refl.
  - rewrite Z.eqb_refl, Operator_beq_refl. simpl.
    induction IH as [|c children Hc _ IHl]; [reflexivity|].
    now rewrite Hc, IHl.
Qed.

(** Structural equality holds of identical trees only. *)
Lemma equal_to_eq a : forall b, equal_to a b = true -> a = b.
Proof.
  induction a as [n1 k1 v1|n1 o1 c1 IH] using TreeNode_ind;
    intros [n2 o2 c2|n2 k2 v2]; simpl; try discriminate.
  - intros H. apply andb_prop in H. destruct H as [H Hv].
    apply andb_prop in H. destruct H as [Hn Hk].
    apply Z.eqb_eq in Hn, Hv. apply eqb_prop in Hk. now subst.
  - intros H. apply andb_prop in H. destruct H as [H Hc].
    apply andb_prop in H. destruct H as [Hn Ho].
    apply Z.eqb_eq in Hn. apply internal_Operator_dec_bl in Ho. subst. f_equal.
    revert c2 Hc. induction IH as [|x c1 Hx _ IHl]; intros [|y c2] Hc; try discriminate.
    + reflexivity.
    + apply andb_prop in Hc. destruct Hc as [Hxy Hrest].
      f_equal; [now apply Hx | now apply IHl].
Qed.

Lemma equal_to_iff a b : equal_to a b = true <-> a = b.
Proof. split; [apply equal_to_eq | intros ->; apply equal_to_refl]. Qed.

(** *** Arithmetic on widths *)

Lemma pow2_pos n : 0 <= n -> 0 < 2 ^ n.
Proof. intros H. apply Z.pow_pos_nonneg; lia. Qed.

Lemma pow2_le n m : 0 <= n <= m -> 2 ^ n <= 2 ^ m.
Proof. intros H. apply Z.pow_le_mono_r; lia. Qed.

Lemma mod_mod_pow2 a n m : 0 <= n <= m -> (a mod 2 ^ m) mod 2 ^ n = a mod 2 ^ n.
Proof.
  intros H. apply Z.mod_mod_divide.
  exists (2 ^ (m - n)). rewrite <- Z.pow_add_r by lia. f_equal. lia.
Qed.

Lemma land_mask v n : 0 <= n -> Z.land (GenMask n) v = v mod 2 ^ n.
Proof. intros H. unfold GenMask. rewrite Z.land_comm. now apply Z.land_ones. Qed.

Lemma number_small nBits v :
  0 <= v < 2 ^ nBits -> number nBits v = LeafNode nBits true v.
Proof. intros H. unfold number, create_integer. now rewrite Z.mod_small. Qed.

(** *** [add] *)

Lemma valid_known nBits n v :
  valid_value nBits (LeafNode n true v) -> n = nBits /\ 0 <= v < 2 ^ nBits.
Proof. intros [Hn Hv]. simpl in *. auto. Qed.

Lemma add_known Len va vb :
  0 < Len <= 64 ->
  add Len (LeafNode Len true va) (LeafNode Len true vb)
  = LeafNode Len true ((va + vb) mod 2 ^ Len).
Proof.
  intros HLen. unfold add, create_integer, u64. cbn [is_known value].
  now rewrite mod_mod_pow2 by lia.
Qed.

(** C7.  Adding the known zero on either side returns a value structurally
    equal to the other operand, and two known constants fold into the known
    constant of their sum modulo 2^w. *)
Theorem add_laws (Len : Z) (a : ValueType) :
  0 < Len <= 64 -> valid_value Len a ->
  equal_to (add Len a (number Len 0)) a = true
  /\ equal_to (add Len (number Len 0) a) a = true
  /\ (forall b, valid_value Len b -> is_known a = true -> is_known b = true ->
        add Len a b = LeafNode Len true ((value a + value b) mod 2 ^ Len)).
Proof.
  intros HLen Ha.
  assert (H0 : number Len 0 = LeafNode Len true 0).
  { apply number_small. pose proof (pow2_pos Len). lia. }
  rewrite H0. split; [|split].
  - destruct a as [n o c|n [|] v].
    + apply equal_to_refl.
    + apply valid_known in Ha. destruct Ha as [-> Hv].
      rewrite add_known by assumption. rewrite Z.add_0_r, Z.mod_small by assumption.
      apply equal_to_refl.
    + apply equal_to_refl.
  - destruct a as [n o c|n [|] v].
    + apply equal_to_refl.
    + apply valid_known in Ha. destruct Ha as [-> Hv].
      rewrite add_known by assumption. rewrite Z.add_0_l, Z.mod_small by assumption.
      apply equal_to_refl.
    + apply equal_to_refl.
  - intros b Hb Hka Hkb.
    destruct a as [n o c|n [|] v]; try discriminate.
    destruct b as [n' o' c'|n' [|] v']; try discriminate.
    apply valid_known in Ha, Hb. destruct Ha as [-> _], Hb as [-> _].
    now apply add_known.
Qed.

(** *** What the arithmetic primitives denote *)

Section Eval.
Variable env : Z -> Z.
Variable rest : Operator -> Z -> list Z -> Z.

Lemma eval_range e : 0 <= get_nbits e -> 0 <= eval env rest e < 2 ^ get_nbits e.
Proof.
  destruct e as [nbits op children|nbits known ival]; simpl get_nbits; intros Hn;
    simpl; apply Z.mod_pos_bound; now apply pow2_pos.
Qed.

Lemma eval_valid nBits e :
  0 <= nBits -> valid_value nBits e -> 0 <= eval env rest e < 2 ^ nBits.
Proof. intros Hn [<- _]. now apply eval_range. Qed.

Lemma eval_known n v : eval env rest (LeafNode n true v) = v mod 2 ^ n.
Proof. reflexivity. Qed.

Lemma eval_create_integer n v :
  0 <= v < 2 ^ n -> eval env rest (create_integer n v) = v.
Proof.
  intros H. unfold create_integer. rewrite eval_known. now rewrite Zmod_mod, Z.mod_small.
Qed.

Lemma eval_number n v : eval env rest (number n v) = v mod 2 ^ n.
Proof.
  unfold number, create_integer. rewrite eval_known. now rewrite Zmod_mod.
Qed.

Lemma eval_valid_known nBits n v :
  valid_value nBits (LeafNode n true v) -> eval env rest (LeafNode n true v) = v.
Proof.
  intros Hv. apply valid_known in Hv. destruct Hv as [-> Hv].
  rewrite eval_known. now apply Z.mod_small.
Qed.

Lemma eval_binary nbits op a b :
  eval env rest (InternalNode nbits op [a; b])
  = eval_op rest nbits op [a; b] [eval env rest a; eval env rest b] mod 2 ^ nbits.
Proof. reflexivity. Qed.

Lemma eval_ternary nbits op a b c :
  eval env rest (InternalNode nbits op [a; b; c])
  = eval_op rest nbits op [a; b; c]
            [eval env rest a; eval env rest b; eval env rest c] mod 2 ^ nbits.
Proof. reflexivity. Qed.

Lemma eval_extract_node nbits lo hi x :
  0 <= lo < 2 ^ 32 -> 0 <= hi < 2 ^ 32 -> nbits = hi - lo ->
  eval env rest (InternalNode nbits OP_EXTRACT
                              [create_integer 32 lo; create_integer 32 hi; x])
  = Z.shiftr (eval env rest x) lo mod 2 ^ nbits.
Proof.
  intros Hlo Hhi ->. rewrite eval_ternary.
  rewrite !eval_create_integer by assumption.
  unfold create_integer, eval_op. now rewrite Z.eqb_refl.
Qed.

Lemma eval_extract_unknown BeginAt EndAt Len x :
  is_known x = false -> 0 < BeginAt < EndAt -> EndAt < 2 ^ 32 ->
  eval env rest (extract BeginAt EndAt Len x)
  = Z.shiftr (eval env rest x) BeginAt mod 2 ^ (EndAt - BeginAt).
Proof.
  intros Hk Hb He. unfold extract. rewrite Hk.
  destruct (Z.eqb_spec 0 BeginAt); [lia|].
  apply eval_extract_node; lia.
Qed.

Lemma valid_unsignedExtend FromLen ToLen a :
  valid_value FromLen a -> 0 <= ToLen ->
  valid_value ToLen (unsignedExtend FromLen ToLen a).
Proof.
  intros [Hn Hv] HTo. unfold unsignedExtend.
  destruct (is_known a) eqn:Hk.
  - split; [reflexivity|]. intros _. simpl. apply Z.mod_pos_bound. now apply pow2_pos.
  - destruct (Z.eqb_spec FromLen ToLen) as [<-|].
    + split; [assumption | congruence].
    + destruct (FromLen >? ToLen); (split; [reflexivity | discriminate]).
Qed.

Lemma eval_unsignedExtend FromLen ToLen a :
  valid_value FromLen a -> 0 <= FromLen -> 0 <= ToLen < 2 ^ 32 ->
  eval env rest (unsignedExtend FromLen ToLen a) = eval env rest a mod 2 ^ ToLen.
Proof.
  intros Ha HFrom HTo. unfold unsignedExtend.
  destruct (is_known a) eqn:Hk.
  - destruct a as [n o c|n [|] v]; try discriminate.
    rewrite (eval_valid_known FromLen) by assumption.
    cbn [value]. rewrite eval_number, land_mask by lia. now rewrite Zmod_mod.
  - destruct (Z.eqb_spec FromLen ToLen) as [<-|Hne].
    + symmetry. apply Z.mod_small. now apply eval_valid.
    + destruct (FromLen >? ToLen).
      * rewrite eval_extract_node by lia. now rewrite Z.shiftr_0_r.
      * rewrite eval_binary. reflexivity.
Qed.

Lemma valid_add Len a b :
  0 <= Len -> valid_value Len a -> valid_value Len b -> valid_value Len (add Len a b).
Proof.
  intros HLen Ha Hb. unfold add.
  assert (Hint : valid_value Len (InternalNode Len OP_ADD [a; b]))
    by (split; [reflexivity | discriminate]).
  destruct (is_known a).
  - destruct (is_known b).
    + split; [reflexivity|]. intros _. simpl. apply Z.mod_pos_bound. now apply pow2_pos.
    + destruct (0 =? value a); assumption.
  - destruct (is_known b && (0 =? value b)); assumption.
Qed.

Lemma eval_add Len a b :
  0 < Len <= 64 -> valid_value Len a -> valid_value Len b ->
  eval env rest (add Len a b) = (eval env rest a + eval env rest b) mod 2 ^ Len.
Proof.
  intros HLen Ha Hb.
  assert (HLen0 : 0 <= Len) by lia.
  pose proof (eval_valid Len a HLen0 Ha) as HAr.
  pose proof (eval_valid Len b HLen0 Hb) as HBr.
  assert (Hint : eval env rest (InternalNode Len OP_ADD [a; b])
                 = (eval env rest a + eval env rest b) mod 2 ^ Len)
    by (rewrite eval_binary; reflexivity).
  unfold add.
  destruct (is_known a) eqn:Hka.
  - destruct a as [n o c|n [|] va]; try discriminate.
    rewrite (eval_valid_known Len n va Ha) in *.
    destruct (is_known b) eqn:Hkb.
    + destruct b as [n' o c|n' [|] vb]; try discriminate.
      rewrite (eval_valid_known Len n' vb Hb) in *.
      cbn [value]. unfold create_integer, u64. rewrite eval_known, Zmod_mod.
      now rewrite mod_mod_pow2 by lia.
    + cbn [value]. destruct (Z.eqb_spec 0 va) as [<-|]; [|assumption].
      rewrite Z.add_0_l. symmetry. now apply Z.mod_small.
  - destruct (is_known b) eqn:Hkb; cbn [andb]; [|assumption].
    destruct b as [n' o c|n' [|] vb]; try discriminate.
    rewrite (eval_valid_known Len n' vb Hb) in *.
    cbn [value]. destruct (Z.eqb_spec 0 vb) as [<-|]; [|assumption].
    rewrite Z.add_0_r. symmetry. now apply Z.mod_small.
Qed.

Lemma eval_xor Len a b :
  eval env rest (xor_ Len a b)
  = Z.lxor (eval env rest a) (eval env rest b) mod 2 ^ Len.
Proof. unfold xor_. now rewrite eval_binary. Qed.

(** C5, as amended.  The sum denotes a + b + c modulo 2^w; bit [i] of the
    carries is the exclusive or of the bits [i + 1] of the operands and of
    their sum, all taken at w + 1 bits: the carry out of position [i].  This
    holds of all operands of these widths, whatever they are built from. *)
Theorem addWithCarries_spec (Len : Z) (a b c : ValueType) :
  0 < Len -> Len + 1 <= 64 ->
  valid_value Len a -> valid_value Len b -> valid_value 1 c ->
  eval env rest (fst (addWithCarries Len a b c))
  = (eval env rest a + eval env rest b + eval env rest c) mod 2 ^ Len
  /\ 0 <= eval env rest (snd (addWithCarries Len a b c)) < 2 ^ Len
  /\ forall i, 0 <= i < Len ->
       Z.testbit (eval env rest (snd (addWithCarries Len a b c))) i
       = xorb (xorb (Z.testbit (eval env rest a) (i + 1))
                    (Z.testbit (eval env rest b) (i + 1)))
              (Z.testbit (eval env rest a + eval env rest b + eval env rest c) (i + 1)).
Proof.
  intros HLen HLen64 Ha Hb Hc.
  set (A := eval env rest a). set (B := eval env rest b). set (C := eval env rest c).
  assert (H32 : 2 ^ 6 < 2 ^ 32) by (apply Z.pow_lt_mono_r; lia).
  assert (H64 : 64 < 2 ^ 32) by (change 64 with (2 ^ 6); exact H32).
  assert (HAr : 0 <= A < 2 ^ Len) by (apply eval_valid; [lia | assumption]).
  assert (HBr : 0 <= B < 2 ^ Len) by (apply eval_valid; [lia | assumption]).
  assert (HCr : 0 <= C < 2 ^ 1) by (apply eval_valid; [lia | assumption]).
  pose proof (pow2_le Len (Len + 1) ltac:(lia)) as Hle.
  assert (H2 : 2 ^ 1 <= 2 ^ (Len + 1)) by (apply pow2_le; lia).
  unfold addWithCarries. cbn [fst snd].
  set (aa := unsignedExtend Len (Len + 1) a).
  set (bb := unsignedExtend Len (Len + 1) b).
  set (cc := unsignedExtend 1 (Len + 1) c).
  assert (Haa : eval env rest aa = A).
  { unfold aa. rewrite eval_unsignedExtend by (auto; lia). apply Z.mod_small. lia. }
  assert (Hbb : eval env rest bb = B).
  { unfold bb. rewrite eval_unsignedExtend by (auto; lia). apply Z.mod_small. lia. }
  assert (Hcc : eval env rest cc = C).
  { unfold cc. rewrite eval_unsignedExtend by (auto; lia). apply Z.mod_small. lia. }
  assert (Hvaa : valid_value (Len + 1) aa) by (apply valid_unsignedExtend; auto; lia).
  assert (Hvbb : valid_value (Len + 1) bb) by (apply valid_unsignedExtend; auto; lia).
  assert (Hvcc : valid_value (Len + 1) cc) by (apply valid_unsignedExtend; auto; lia).
  set (sumco := add (Len + 1) aa (add (Len + 1) bb cc)).
  assert (Hsumco : eval env rest sumco = (A + B + C) mod 2 ^ (Len + 1)).
  { unfold sumco. rewrite eval_add; [|lia|assumption|apply valid_add; auto; lia].
    rewrite eval_add by (auto; lia). rewrite Haa, Hbb, Hcc.
    rewrite Zplus_mod_idemp_r. f_equal. lia. }
  set (X := Z.lxor A (Z.lxor B ((A + B + C) mod 2 ^ (Len + 1)) mod 2 ^ (Len + 1))
            mod 2 ^ (Len + 1)).
  assert (HX : eval env rest (xor_ (Len + 1) aa (xor_ (Len + 1) bb sumco)) = X).
  { rewrite !eval_xor. now rewrite Haa, Hbb, Hsumco. }
  assert (HK : eval env rest (extract 1 (Len + 1) (Len + 1)
                                      (xor_ (Len + 1) aa (xor_ (Len + 1) bb sumco)))
               = Z.shiftr X 1 mod 2 ^ Len).
  { rewrite eval_extract_unknown; [|reflexivity|lia|lia].
    rewrite HX. now rewrite Z.add_simpl_r. }
  rewrite HK. split; [|split].
  - assert (Hvc' : valid_value Len (unsignedExtend 1 Len c))
      by (apply valid_unsignedExtend; auto; lia).
    rewrite eval_add; [|lia|assumption|apply valid_add; auto; lia].
    rewrite eval_add by (auto; lia). rewrite eval_unsignedExtend by (auto; lia).
    fold A B C. rewrite Zplus_mod_idemp_r, Z.add_assoc, Zplus_mod_idemp_r. reflexivity.
  - apply Z.mod_pos_bound. apply pow2_pos. lia.
  - intros i Hi.
    rewrite Z.mod_pow2_bits_low by lia.
    rewrite Z.shiftr_spec by lia.
    unfold X. rewrite Z.mod_pow2_bits_low by lia.
    rewrite Z.lxor_spec, Z.mod_pow2_bits_low by lia.
    rewrite Z.lxor_spec, Z.mod_pow2_bits_low by lia.
    now rewrite xorb_assoc.
Qed.

End Eval.

(** *** Reading a value back *)

Lemma unsignedExtend_same Len a :
  0 <= Len -> valid_value Len a -> unsignedExtend Len Len a = a.
Proof.
  intros HLen Ha. unfold unsignedExtend.
  destruct a as [n o c|n [|] v]; cbn [is_known value].
  - now rewrite Z.eqb_refl.
  - apply valid_known in Ha. destruct Ha as [-> Hv].
    rewrite land_mask, Z.mod_small by assumption. now apply number_small.
  - now rewrite Z.eqb_refl.
Qed.

Lemma unsignedExtend_known FromLen ToLen v :
  0 <= ToLen -> 0 <= v < 2 ^ ToLen ->
  unsignedExtend FromLen ToLen (LeafNode FromLen true v) = LeafNode ToLen true v.
Proof.
  intros HTo Hv. unfold unsignedExtend. cbn [is_known value].
  rewrite land_mask, Z.mod_small by assumption. now apply number_small.
Qed.

Lemma read_back_32 data : valid_value 32 data -> read_back 32 data = data.
Proof.
  intros H. unfold read_back.
  rewrite (unsignedExtend_same 32 data) by (auto; lia).
  now rewrite (unsignedExtend_same 32 data) by (auto; lia).
Qed.

Lemma read_back_known Len data :
  0 < Len <= 32 -> valid_value Len data -> is_known data = true ->
  read_back Len data = data.
Proof.
  intros HLen Hv Hk. destruct data as [n o c|n [|] v]; try discriminate.
  apply valid_known in Hv. destruct Hv as [-> Hv].
  pose proof (pow2_le Len 32 ltac:(lia)).
  unfold read_back. rewrite unsignedExtend_known by lia.
  now rewrite unsignedExtend_known by lia.
Qed.

Lemma read_back_unknown Len data :
  Len < 32 -> is_known data = false ->
  read_back Len data
  = InternalNode Len OP_EXTRACT
      [create_integer 32 0; create_integer 32 Len;
       InternalNode 32 OP_UEXTEND [create_integer 32 32; data]].
Proof.
  intros HLen Hk. unfold read_back, unsignedExtend. rewrite Hk.
  destruct (Z.eqb_spec Len 32); [lia|].
  rewrite (Z.gtb_ltb Len 32). destruct (Z.ltb_spec 32 Len); [lia|].
  cbn [is_known].
  destruct (Z.eqb_spec 32 Len); [lia|].
  rewrite (Z.gtb_ltb 32 Len). destruct (Z.ltb_spec Len 32); [|lia].
  reflexivity.
Qed.

(** What comes back denotes what was written. *)
Lemma read_back_denotes env rest Len data :
  0 < Len <= 32 -> valid_value Len data ->
  eval env rest (read_back Len data) = eval env rest data.
Proof.
  intros HLen Hv.
  assert (H32 : 32 < 2 ^ 32) by (change 32 with (2 ^ 5) at 1; apply Z.pow_lt_mono_r; lia).
  pose proof (eval_valid env rest Len data ltac:(lia) Hv) as HDr.
  pose proof (pow2_le Len 32 ltac:(lia)) as Hle.
  unfold read_back.
  rewrite eval_unsignedExtend; [|apply valid_unsignedExtend; [assumption | lia]|lia|lia].
  rewrite eval_unsignedExtend; [|assumption|lia|lia].
  rewrite (Z.mod_small (eval env rest data) (2 ^ 32)) by lia. apply Z.mod_small. lia.
Qed.

(** A tree is not structurally equal to a tree it is a proper part of. *)
Lemma equal_to_depth a b : equal_to a b = true -> depth a = depth b.
Proof. intros H. apply equal_to_eq in H. now subst. Qed.

Lemma read_back_differs Len data :
  Len < 32 -> is_known data = false -> equal_to (read_back Len data) data = false.
Proof.
  intros HLen Hk. destruct (equal_to (read_back Len data) data) eqn:E; [|reflexivity].
  apply equal_to_depth in E. rewrite read_back_unknown in E by assumption.
  simpl in E. lia.
Qed.

(** *** The world *)

Lemma get_put_same r s w : get_state r (put_state r s w) = s.
Proof. now destruct r. Qed.

Lemma get_put_other r r' s w : r <> r' -> get_state r' (put_state r s w) = get_state r' w.
Proof. destruct r, r'; intros H; try reflexivity; contradiction. Qed.

Lemma put_get_id r w : put_state r (set_mem (get_state r w) (mem (get_state r w))) w = w.
Proof. destruct w as [n [] [] [] d], r; reflexivity. Qed.

Lemma get_bump r w : get_state r (bump w) = get_state r w.
Proof. now destruct r. Qed.

Lemma mem_push_same r c w : mem (get_state r (push_back r c w)) = mem (get_state r w) ++ [c].
Proof. unfold push_back. now rewrite get_put_same. Qed.

Lemma get_push_other r r' c w : r <> r' -> get_state r' (push_back r c w) = get_state r' w.
Proof. intros H. unfold push_back. now apply get_put_other. Qed.

Lemma is_orig_false r : r <> OrigState -> is_orig r = false.
Proof. destruct r; [contradiction | reflexivity | reflexivity]. Qed.

(** *** Scanning the cells *)

Lemma must_alias_ext p p' c :
  address p = address p' -> nbytes p = nbytes p' -> must_alias p c = must_alias p' c.
Proof. intros Ha Hn. unfold must_alias. now rewrite Ha, Hn. Qed.

Lemma first_alias_ext p p' cells c0 :
  address p = address p' -> nbytes p = nbytes p' ->
  first_alias p cells c0 -> first_alias p' cells c0.
Proof.
  intros Ha Hn (pre & post & E & Hpre & Hc0). exists pre, post. repeat split; auto.
  - intros c Hc. rewrite <- (must_alias_ext p p') by assumption. now apply Hpre.
  - now rewrite <- (must_alias_ext p p') by assumption.
Qed.

Lemma must_alias_self addr d d' n :
  must_alias (new_MemoryCell addr d n) (new_MemoryCell addr d' n) = true.
Proof. unfold must_alias. simpl. now rewrite equal_to_refl, Z.eqb_refl. Qed.

Lemma first_alias_last probe cells c0 :
  (forall c, In c cells -> must_alias probe c = false) ->
  must_alias probe c0 = true ->
  first_alias probe (cells ++ [c0]) c0.
Proof. intros Hpre Hc0. exists cells, []. auto. Qed.

Section Memory.
Variable may_alias : MemoryCell -> MemoryCell -> bool.

Lemma scan_hit probe cells c0 aliased :
  first_alias probe cells c0 -> clobbered c0 = false ->
  scan_state may_alias probe cells aliased = Returned (data c0) cells.
Proof.
  intros (pre & post & -> & Hpre & Hc0) Hclean. revert aliased.
  induction pre as [|c pre IH]; intros aliased; simpl.
  - now rewrite Hc0, Hclean.
  - rewrite (Hpre c) by now left.
    assert (IH' := IH (fun x Hx => Hpre x (or_intror Hx))).
    destruct (may_alias probe c && written c); now rewrite IH'.
Qed.

Lemma scan_returned probe cells aliased d mem' :
  scan_state may_alias probe cells aliased = Returned d mem' ->
  exists c0, first_alias probe mem' c0 /\ clobbered c0 = false /\ data c0 = d.
Proof.
  revert aliased mem'. induction cells as [|c cells IH]; intros aliased mem'; simpl.
  - discriminate.
  - destruct (must_alias probe c) eqn:Hc.
    + destruct (clobbered c) eqn:Hcl; intros [= Hd <-].
      * exists (mkCell (address c) (data probe) (nbytes c) false (written c)).
        split; [|split; [reflexivity | exact Hd]].
        exists [], cells. repeat split; auto. intros ? [].
      * exists c. split; [|split; auto].
        exists [], cells. repeat split; auto. intros ? [].
    + assert (Hstep : forall al, scan_cons c (scan_state may_alias probe cells al)
                                 = Returned d mem' ->
                exists c0, first_alias probe mem' c0 /\ clobbered c0 = false /\ data c0 = d).
      { intros al. destruct (scan_state may_alias probe cells al) as [d1 m1|] eqn:Es;
          simpl; [|discriminate].
        intros [= <- <-]. destruct (IH al m1 Es) as (c0 & (pre & post & -> & Hpre & Hc0) & H1 & H2).
        exists c0. split; [|split; assumption].
        exists (c :: pre), post. repeat split; auto.
        intros x [<-|Hx]; auto. }
      destruct (may_alias probe c && written c); apply Hstep.
Qed.

Lemma scan_finished probe cells aliased aliased' :
  scan_state may_alias probe cells aliased = Finished aliased' ->
  forall c, In c cells -> must_alias probe c = false.
Proof.
  revert aliased. induction cells as [|c cells IH]; intros aliased; simpl.
  - intros _ ? [].
  - destruct (must_alias probe c) eqn:Hc.
    + destruct (clobbered c); discriminate.
    + assert (Hstep : forall al, scan_cons c (scan_state may_alias probe cells al)
                                 = Finished aliased' ->
                forall x, c = x \/ In x cells -> must_alias probe x = false).
      { intros al. destruct (scan_state may_alias probe cells al) eqn:Es; simpl; [discriminate|].
        intros [= <-] x [<-|Hx]; [assumption|]. now apply (IH al). }
      destruct (may_alias probe c && written c); apply Hstep.
Qed.

Lemma scan_miss probe cells :
  (forall c, In c cells -> must_alias probe c = false) ->
  (forall c, In c cells -> may_alias probe c && written c = false) ->
  scan_state may_alias probe cells false = Finished false.
Proof.
  induction cells as [|c cells IH]; intros Hmust Hmay; simpl; [reflexivity|].
  rewrite (Hmust c), (Hmay c) by now left.
  rewrite IH; [reflexivity | |]; intros x Hx; [apply Hmust | apply Hmay]; now right.
Qed.

Lemma scan_orig_some probe cells mi :
  scan_orig probe cells = Ok (Some mi) ->
  must_alias probe mi = true /\ clobbered mi = false /\ written mi = false.
Proof.
  induction cells as [|c cells IH]; simpl; [discriminate|].
  destruct (must_alias probe c) eqn:Hc; [|assumption].
  destruct (clobbered c) eqn:Hcl; [discriminate|].
  destruct (written c) eqn:Hw; [discriminate|].
  intros [= <-]. auto.
Qed.

Lemma scan_orig_none probe cells :
  (forall c, In c cells -> must_alias probe c = false) ->
  scan_orig probe cells = Ok None.
Proof.
  induction cells as [|c cells IH]; intros Hmust; simpl; [reflexivity|].
  rewrite (Hmust c) by now left. apply IH. intros x Hx. apply Hmust. now right.
Qed.

Lemma scan_orig_clean probe cells :
  (forall c, In c cells -> clobbered c = false /\ written c = false) ->
  scan_orig probe cells <> Fatal.
Proof.
  induction cells as [|c cells IH]; intros Hclean; simpl; [discriminate|].
  destruct (Hclean c (or_introl eq_refl)) as [-> ->].
  destruct (must_alias probe c); [discriminate|].
  apply IH. intros x Hx. apply Hclean. now right.
Qed.

(** *** [mem_read] *)

Lemma mem_read_unfold Len r addr w :
  mem_read may_alias Len r addr w =
  let new_cell := new_MemoryCell addr (fresh w) (Len / 8) in
  match scan_state may_alias new_cell (mem (get_state r w)) false with
  | Returned d mem' =>
      Ok (unsignedExtend 32 Len d, put_state r (set_mem (get_state r w) mem') (bump w))
  | Finished aliased =>
      if negb aliased && negb (is_orig r) then
        match scan_orig new_cell (mem (orig_state w)) with
        | Fatal => Fatal
        | Ok (Some mi) => Ok (unsignedExtend 32 Len (data mi), push_back r mi (bump w))
        | Ok None =>
            Ok (unsignedExtend 32 Len (fresh w),
                push_back r new_cell (push_back OrigState new_cell (bump w)))
        end
      else Ok (unsignedExtend 32 Len (fresh w), push_back r new_cell (bump w))
  end.
Proof.
  unfold mem_read, mbind, create_variable, gets, modify, ret, abort. fold (bump w). fold (fresh w).
  rewrite get_bump. cbv zeta.
  destruct (scan_state may_alias _ _ false) as [d mem'|aliased].
  - now rewrite get_bump.
  - destruct (negb aliased && negb (is_orig r)); [|reflexivity].
    change (orig_state (bump w)) with (orig_state w).
    destruct (scan_orig _ _) as [[mi|]|]; reflexivity.
Qed.

Lemma mem_read_hit Len r addr w c0 :
  first_alias (new_MemoryCell addr (fresh w) (Len / 8)) (mem (get_state r w)) c0 ->
  clobbered c0 = false ->
  mem_read may_alias Len r addr w = Ok (unsignedExtend 32 Len (data c0), bump w).
Proof.
  intros Hfirst Hclean. rewrite mem_read_unfold. cbv zeta.
  rewrite (scan_hit _ _ c0) by assumption.
  rewrite <- (get_bump r w) at 1 2. now rewrite put_get_id.
Qed.

Lemma mem_read_post Len r addr w v w1 :
  mem_read may_alias Len r addr w = Ok (v, w1) ->
  exists c0,
    first_alias (new_MemoryCell addr (fresh w1) (Len / 8)) (mem (get_state r w1)) c0
    /\ clobbered c0 = false
    /\ v = unsignedExtend 32 Len (data c0).
Proof.
  rewrite mem_read_unfold. cbv zeta.
  set (probe := new_MemoryCell addr (fresh w) (Len / 8)).
  assert (Hext : forall cells c0, first_alias probe cells c0 ->
            first_alias (new_MemoryCell addr (fresh w1) (Len / 8)) cells c0).
  { intros cells c0. now apply first_alias_ext. }
  assert (Hself : must_alias probe probe = true) by apply must_alias_self.
  destruct (scan_state may_alias probe (mem (get_state r w)) false) as [d mem'|aliased] eqn:Es.
  - intros [= <- <-]. destruct (scan_returned _ _ _ _ _ Es) as (c0 & Hf & Hc & Hd).
    exists c0. rewrite get_put_same. simpl mem. subst d. auto.
  - pose proof (scan_finished _ _ _ _ Es) as Hnone.
    assert (Hpush : forall c w', mem (get_state r w') = mem (get_state r w) ->
              must_alias probe c = true -> clobbered c = false ->
              Ok (unsignedExtend 32 Len (data c), push_back r c w') = Ok (v, w1) ->
              exists c0,
                first_alias (new_MemoryCell addr (fresh w1) (Len / 8)) (mem (get_state r w1)) c0
                /\ clobbered c0 = false /\ v = unsignedExtend 32 Len (data c0)).
    { intros c w' Hmem Hc Hcl [= <- <-]. exists c. rewrite mem_push_same, Hmem.
      repeat split; auto. apply Hext. now apply first_alias_last. }
    destruct (negb aliased && negb (is_orig r)) eqn:Hbranch.
    + destruct (scan_orig probe (mem (orig_state w))) as [[mi|]|] eqn:Eo; [| |discriminate].
      * destruct (scan_orig_some _ _ _ Eo) as (Hmi & Hcl & _).
        apply Hpush; auto.
      * apply (Hpush probe); auto.
        apply andb_prop in Hbranch. destruct Hbranch as [_ Hr].
        rewrite get_push_other, get_bump; [reflexivity|].
        intros <-. discriminate.
    + apply (Hpush probe); auto.
Qed.

Lemma mem_read_clean Len r addr w :
  orig_clean w -> exists v1 w1, mem_read may_alias Len r addr w = Ok (v1, w1).
Proof.
  intros Hclean. rewrite mem_read_unfold. cbv zeta.
  destruct (scan_state may_alias _ _ false) as [d mem'|aliased]; [eauto|].
  destruct (negb aliased && negb (is_orig r)); [|eauto].
  pose proof (scan_orig_clean (new_MemoryCell addr (fresh w) (Len / 8)) _ Hclean) as Hok.
  destruct (scan_orig _ _) as [[mi|]|]; [eauto | eauto | contradiction].
Qed.

(** C9.  A read that finds no must-aliasing cell in the state or in the
    original state, and no written may-aliasing cell in the state, pushes
    one cell holding a fresh variable on both memories and returns the
    variable extended to the width read; a later read of the address from
    either state returns a structurally equal value. *)
Theorem mem_read_initial (Len : Z) (r : StateRef) (addr : ValueType) (w : World) :
  r <> OrigState ->
  (forall c, In c (mem (get_state r w)) ->
     must_alias (new_MemoryCell addr (fresh w) (Len / 8)) c = false) ->
  (forall c, In c (mem (get_state r w)) ->
     may_alias (new_MemoryCell addr (fresh w) (Len / 8)) c && written c = false) ->
  (forall c, In c (mem (orig_state w)) ->
     must_alias (new_MemoryCell addr (fresh w) (Len / 8)) c = false) ->
  exists w1,
    mem_read may_alias Len r addr w = Ok (unsignedExtend 32 Len (fresh w), w1)
    /\ mem (orig_state w1)
       = mem (orig_state w) ++ [new_MemoryCell addr (fresh w) (Len / 8)]
    /\ mem (get_state r w1)
       = mem (get_state r w) ++ [new_MemoryCell addr (fresh w) (Len / 8)]
    /\ (forall r', r' = r \/ r' = OrigState ->
          exists v2 w2,
            mem_read may_alias Len r' addr w1 = Ok (v2, w2)
            /\ equal_to v2 (unsignedExtend 32 Len (fresh w)) = true).
Proof.
  intros Hr Hmust Hmay Horig.
  set (probe := new_MemoryCell addr (fresh w) (Len / 8)) in *.
  exists (push_back r probe (push_back OrigState probe (bump w))).
  assert (Hmo : mem (orig_state (push_back r probe (push_back OrigState probe (bump w))))
                = mem (orig_state w) ++ [probe]).
  { change (orig_state ?x) with (get_state OrigState x).
    rewrite get_push_other by assumption. now rewrite mem_push_same. }
  assert (Hmr : mem (get_state r (push_back r probe (push_back OrigState probe (bump w))))
                = mem (get_state r w) ++ [probe]).
  { rewrite mem_push_same, get_push_other by congruence. now rewrite get_bump. }
  split; [|split; [exact Hmo | split; [exact Hmr|]]].
  - rewrite mem_read_unfold. cbv zeta. fold probe.
    rewrite scan_miss by assumption. rewrite is_orig_false by assumption. simpl andb.
    now rewrite scan_orig_none by assumption.
  - intros r' Hr'.
    exists (unsignedExtend 32 Len (data probe)). eexists. split; [|apply equal_to_refl].
    apply mem_read_hit; [|reflexivity].
    apply (first_alias_ext probe); [reflexivity | reflexivity |].
    destruct Hr' as [->| ->].
    + rewrite Hmr. apply first_alias_last; [assumption | apply must_alias_self].
    + change (get_state OrigState ?x) with (orig_state x). rewrite Hmo.
      apply first_alias_last; [assumption | apply must_alias_self].
Qed.

(** *** [mem_write] *)

Lemma must_alias_refl c : must_alias c c = true.
Proof. unfold must_alias. now rewrite equal_to_refl, Z.eqb_refl. Qed.

Lemma write_cells_first discard state new_mrt new_cell cells :
  forall saved cells' saved',
    write_cells may_alias discard state new_mrt new_cell cells saved = (cells', saved') ->
    (saved' = true /\ (saved = true \/ first_alias new_cell cells' new_cell))
    \/ (saved' = false /\ saved = false
        /\ forall c, In c cells' -> must_alias new_cell c = false).
Proof.
  induction cells as [|mi cells IH]; intros saved cells' saved'; simpl.
  - intros [= <- <-]. destruct saved; [left; auto | right; repeat split; auto; intros ? []].
  - destruct (must_alias new_cell mi) eqn:Hmi.
    + destruct (write_cells may_alias discard state new_mrt new_cell cells true)
        as [rest' s'] eqn:E.
      intros [= <- <-]. destruct (IH _ _ _ E) as [[-> _]|[_ [Hf _]]]; [|discriminate].
      left. split; [reflexivity|]. right. exists [], rest'.
      repeat split; auto; [intros ? [] | apply must_alias_refl].
    + assert (Hkeep : forall mi',
                 must_alias new_cell mi' = false ->
                 (let '(rest', saved'0) :=
                    write_cells may_alias discard state new_mrt new_cell cells saved in
                  (mi' :: rest', saved'0)) = (cells', saved') ->
                 (saved' = true /\ (saved = true \/ first_alias new_cell cells' new_cell))
                 \/ (saved' = false /\ saved = false
                     /\ forall c, In c cells' -> must_alias new_cell c = false)).
      { intros mi' Hmi'.
        destruct (write_cells may_alias discard state new_mrt new_cell cells saved)
          as [rest' s'] eqn:E.
        intros [= <- <-]. destruct (IH _ _ _ E) as [[-> [->|Hf]]|(-> & -> & Hnone)].
        - left. auto.
        - left. split; [reflexivity|]. right.
          destruct Hf as (pre & post & -> & Hpre & Hc0).
          exists (mi' :: pre), post. repeat split; auto.
          intros x [<-|Hx]; auto.
        - right. repeat split; auto. intros x [<-|Hx]; auto. }
      destruct (discard && negb (MemRefType_eqb new_mrt (memory_reference_type state (address mi)))).
      * now apply Hkeep.
      * destruct (may_alias new_cell mi); now apply Hkeep.
Qed.

Lemma write_cells_frame discard state new_mrt new_cell cells :
  forall saved cells' saved',
    write_cells may_alias discard state new_mrt new_cell cells saved = (cells', saved') ->
    length cells' = length cells
    /\ forall i c, nth_error cells i = Some c -> must_alias new_cell c = false ->
         exists c', nth_error cells' i = Some c'
                    /\ address c' = address c /\ data c' = data c
                    /\ nbytes c' = nbytes c /\ written c' = written c
                    /\ (clobbered c' = clobbered c \/ clobbered c' = true).
Proof.
  induction cells as [|mi cells IH]; intros saved cells' saved'; simpl.
  - intros [= <- <-]. split; [reflexivity|]. intros [|i] c; discriminate.
  - assert (Hstep : forall mi' s0,
               (must_alias new_cell mi = false ->
                address mi' = address mi /\ data mi' = data mi /\ nbytes mi' = nbytes mi
                /\ written mi' = written mi
                /\ (clobbered mi' = clobbered mi \/ clobbered mi' = true)) ->
               (let '(rest', saved'0) :=
                  write_cells may_alias discard state new_mrt new_cell cells s0 in
                (mi' :: rest', saved'0)) = (cells', saved') ->
               length cells' = S (length cells)
               /\ forall i c, nth_error (mi :: cells) i = Some c ->
                    must_alias new_cell c = false ->
                    exists c', nth_error cells' i = Some c'
                               /\ address c' = address c /\ data c' = data c
                               /\ nbytes c' = nbytes c /\ written c' = written c
                               /\ (clobbered c' = clobbered c \/ clobbered c' = true)).
    { intros mi' s0 Hmi'.
      destruct (write_cells may_alias discard state new_mrt new_cell cells s0)
        as [rest' s'] eqn:E.
      intros [= <- <-]. destruct (IH _ _ _ E) as [Hlen Hnth].
      split; [simpl; now rewrite Hlen|].
      intros [|i] c; simpl.
      - intros [= <-] Hc. exists mi'. split; [reflexivity | now apply Hmi']. 
      - apply Hnth. }
    destruct (must_alias new_cell mi) eqn:Hmi.
    + apply Hstep. discriminate.
    + destruct (discard && negb (MemRefType_eqb new_mrt (memory_reference_type state (address mi)))).
      * apply Hstep. intros _. repeat split; auto.
      * destruct (may_alias new_cell mi); apply Hstep; intros _; simpl; repeat split; auto.
Qed.

Lemma mem_write_unfold Len r addr data w :
  r <> OrigState ->
  mem_write may_alias Len r addr data w =
  let new_cell := set_written (new_MemoryCell addr (unsignedExtend Len 32 data) (Len / 8)) in
  let '(cells, saved) :=
    write_cells may_alias (p_discard_popped_memory w) (get_state r w)
                (memory_reference_type (get_state r w) addr) new_cell
                (mem (get_state r w)) false in
  let w1 := put_state r (set_mem (get_state r w) cells) w in
  Ok (tt, if saved then w1 else push_back r new_cell w1).
Proof.
  intros Hr. unfold mem_write. rewrite is_orig_false by assumption.
  unfold mbind, gets, modify, ret. cbv zeta.
  destruct (write_cells _ _ _ _ _ _ _) as [cells saved].
  destruct saved; reflexivity.
Qed.

(** After a write, the first cell that must-aliases the cell written is
    that cell. *)
Lemma mem_write_first Len r addr data w :
  r <> OrigState ->
  exists w1,
    mem_write may_alias Len r addr data w = Ok (tt, w1)
    /\ first_alias
         (set_written (new_MemoryCell addr (unsignedExtend Len 32 data) (Len / 8)))
         (mem (get_state r w1))
         (set_written (new_MemoryCell addr (unsignedExtend Len 32 data) (Len / 8))).
Proof.
  intros Hr. rewrite mem_write_unfold by assumption. cbv zeta.
  set (new_cell := set_written (new_MemoryCell addr (unsignedExtend Len 32 data) (Len / 8))).
  destruct (write_cells _ _ _ _ _ _ _) as [cells saved] eqn:E.
  eexists. split; [reflexivity|].
  destruct (write_cells_first _ _ _ _ _ _ _ _ E) as [[-> [Hs|Hf]]|(-> & _ & Hnone)].
  - discriminate.
  - now rewrite get_put_same.
  - rewrite mem_push_same, get_put_same. simpl mem.
    apply first_alias_last; [assumption | apply must_alias_refl].
Qed.

Lemma mem_write_orig Len addr data w :
  mem_write may_alias Len OrigState addr data w = Fatal.
Proof. reflexivity. Qed.

(** C10.  A write through a state other than the original one returns; it
    leaves the instruction pointer, the registers, the segment registers and
    the flags of the state as they were, and every cell that does not
    must-alias the cell written keeps its place, address, data, size and
    written flag, its clobbered flag being kept or set; the other states are
    unchanged. *)
Theorem mem_write_frame (Len : Z) (r : StateRef) (addr data : ValueType) (w : World) :
  r <> OrigState ->
  exists w1,
    mem_write may_alias Len r addr data w = Ok (tt, w1)
    /\ ip (get_state r w1) = ip (get_state r w)
    /\ gpr (get_state r w1) = gpr (get_state r w)
    /\ segreg (get_state r w1) = segreg (get_state r w)
    /\ flag (get_state r w1) = flag (get_state r w)
    /\ (forall i c,
          nth_error (mem (get_state r w)) i = Some c ->
          must_alias
            (set_written (new_MemoryCell addr (unsignedExtend Len 32 data) (Len / 8))) c
          = false ->
          exists c',
            nth_error (mem (get_state r w1)) i = Some c'
            /\ address c' = address c /\ SymbolicSemantics.data c' = SymbolicSemantics.data c
            /\ nbytes c' = nbytes c /\ written c' = written c
            /\ (clobbered c' = clobbered c \/ clobbered c' = true))
    /\ (forall r', r' <> r -> get_state r' w1 = get_state r' w).
Proof.
  intros Hr. rewrite mem_write_unfold by assumption. cbv zeta.
  set (new_cell := set_written (new_MemoryCell addr (unsignedExtend Len 32 data) (Len / 8))).
  destruct (write_cells _ _ _ _ _ _ _) as [cells saved] eqn:E.
  destruct (write_cells_frame _ _ _ _ _ _ _ _ E) as [Hlen Hnth].
  eexists. split; [reflexivity|].
  destruct saved.
  - rewrite get_put_same. simpl. repeat split; auto.
    intros r' Hr'. apply get_put_other. congruence.
  - unfold push_back. rewrite !get_put_same. simpl. repeat split; auto.
    + intros i c Hc Hmust. destruct (Hnth i c Hc Hmust) as (c' & Hc' & Hrest).
      exists c'. split; [|assumption].
      rewrite nth_error_app1; [assumption|]. apply nth_error_Some. congruence.
    + intros r' Hr'. rewrite !get_put_other by congruence. reflexivity.
Qed.

(** *** Runs of reads and writes *)

Lemma scan_state_clean probe cells :
  (forall c, In c cells -> clobbered c = false /\ written c = false) ->
  forall aliased d mem',
    scan_state may_alias probe cells aliased = Returned d mem' ->
    forall c, In c mem' -> clobbered c = false /\ written c = false.
Proof.
  induction cells as [|c cells IH]; intros Hclean aliased d mem'; simpl; [discriminate|].
  destruct (Hclean c (or_introl eq_refl)) as [Hcl Hw].
  destruct (must_alias probe c).
  - rewrite Hcl. intros [= _ <-]. exact Hclean.
  - assert (Hstep : forall al, scan_cons c (scan_state may_alias probe cells al)
                               = Returned d mem' ->
              forall x, In x mem' -> clobbered x = false /\ written x = false).
    { intros al. destruct (scan_state may_alias probe cells al) as [d1 m1|] eqn:Es;
        simpl; [|discriminate].
      intros [= _ <-] x [<-|Hx]; [auto|].
      apply (IH (fun y Hy => Hclean y (or_intror Hy)) al d1 m1 Es x Hx). }
    destruct (may_alias probe c && written c); apply Hstep.
Qed.

Lemma clean_push cells c :
  (forall x, In x cells -> clobbered x = false /\ written x = false) ->
  clobbered c = false -> written c = false ->
  forall x, In x (cells ++ [c]) -> clobbered x = false /\ written x = false.
Proof.
  intros Hclean Hc Hw x Hx. apply in_app_or in Hx.
  destruct Hx as [Hx|[<-|[]]]; auto.
Qed.

Lemma mem_read_keeps_clean Len r addr w v w1 :
  orig_clean w -> mem_read may_alias Len r addr w = Ok (v, w1) -> orig_clean w1.
Proof.
  intros Hclean. rewrite mem_read_unfold. cbv zeta. unfold orig_clean in *.
  set (probe := new_MemoryCell addr (fresh w) (Len / 8)).
  destruct (scan_state may_alias probe (mem (get_state r w)) false)
    as [d mem'|aliased] eqn:Es.
  - intros [= _ <-]. destruct r; simpl in *; auto.
    now apply (scan_state_clean probe _ Hclean false d mem' Es).
  - destruct (negb aliased && negb (is_orig r)) eqn:Hb.
    + apply andb_prop in Hb. destruct Hb as [_ Hr].
      destruct (scan_orig probe (mem (orig_state w))) as [[mi|]|]; [| |discriminate].
      * intros [= _ <-]. destruct r; simpl in *; auto; discriminate.
      * intros [= _ <-]. destruct r; simpl in *; try discriminate;
          now apply clean_push.
    + intros [= _ <-]. destruct r; simpl in *; auto. now apply clean_push.
Qed.

Lemma mem_write_keeps_orig Len r addr data w w1 :
  r <> OrigState -> mem_write may_alias Len r addr data w = Ok (tt, w1) ->
  orig_state w1 = orig_state w.
Proof.
  intros Hr. rewrite mem_write_unfold by assumption. cbv zeta.
  destruct (write_cells _ _ _ _ _ _ _) as [cells saved].
  intros [= <-]. destruct r; [contradiction | |]; destruct saved; reflexivity.
Qed.

Lemma mem_write_returns Len r addr data w :
  r <> OrigState -> exists w1, mem_write may_alias Len r addr data w = Ok (tt, w1).
Proof.
  intros Hr. rewrite mem_write_unfold by assumption. cbv zeta.
  destruct (write_cells _ _ _ _ _ _ _) as [cells saved]. eauto.
Qed.

Lemma mem_op_safe op w :
  orig_clean w -> safe_op op ->
  exists w1, mem_op may_alias op w = Ok (tt, w1) /\ orig_clean w1.
Proof.
  intros Hclean Hsafe. destruct op as [Len r addr|Len r addr data]; simpl in *.
  - destruct (mem_read_clean Len r addr w Hclean) as (v & w1 & Hread).
    exists w1. unfold mbind, ret. rewrite Hread. split; [reflexivity|].
    now apply (mem_read_keeps_clean Len r addr w v w1).
  - destruct (mem_write_returns Len r addr data w Hsafe) as (w1 & Hwrite).
    exists w1. split; [assumption|]. unfold orig_clean.
    now rewrite (mem_write_keeps_orig Len r addr data w w1 Hsafe Hwrite).
Qed.

(** X27.  From a world whose original state holds no clobbered and no
    written cell, as the world of a policy just constructed is, a run of
    reads and writes returns when no write names the original state, leaving
    such a world again; it aborts when a write names the original state. *)
Theorem run_mem_safe (ops : list MemOp) (w : World) :
  orig_clean w ->
  (Forall safe_op ops ->
   exists w', run_mem may_alias ops w = Ok (tt, w') /\ orig_clean w')
  /\ (Exists (fun op => ~ safe_op op) ops -> run_mem may_alias ops w = Fatal).
Proof.
  revert w. induction ops as [|op ops IH]; intros w Hclean.
  - split; [intros _; exists w; auto | intros H; inversion H].
  - assert (Hdec : safe_op op \/ ~ safe_op op).
    { destruct op as [Len r addr|Len r addr data]; simpl; [now left|].
      destruct r; [right; intros H; now apply H | left | left]; discriminate. }
    destruct Hdec as [Hsafe|Hunsafe].
    + destruct (mem_op_safe op w Hclean Hsafe) as (w1 & Hop & Hclean1).
      destruct (IH w1 Hclean1) as [IH1 IH2].
      assert (Hrun : run_mem may_alias (op :: ops) w = run_mem may_alias ops w1)
        by (simpl; unfold mbind; now rewrite Hop).
      rewrite Hrun. split.
      * intros Hall. inversion Hall; subst. now apply IH1.
      * intros Hex. inversion Hex; subst; [contradiction | now apply IH2].
    + assert (Hfatal : mem_op may_alias op w = Fatal).
      { destruct op as [Len r addr|Len r addr data]; simpl in *; [now destruct Hunsafe|].
        destruct r; try (exfalso; apply Hunsafe; discriminate). reflexivity. }
      assert (Hrun : run_mem may_alias (op :: ops) w = Fatal)
        by (simpl; unfold mbind; now rewrite Hfatal).
      rewrite Hrun. split; [|reflexivity].
      intros Hall. inversion Hall; subst. contradiction.
Qed.

(** *** When a read aborts *)

Lemma first_alias_nil probe c0 : ~ first_alias probe [] c0.
Proof. intros (pre & post & E & _). now destruct pre. Qed.

Lemma first_alias_cons probe c cells c0 :
  first_alias probe (c :: cells) c0
  <-> (must_alias probe c = true /\ c0 = c)
      \/ (must_alias probe c = false /\ first_alias probe cells c0).
Proof.
  split.
  - intros (pre & post & E & Hpre & Hc0). destruct pre as [|p pre]; simpl in E.
    + injection E as -> ->. now left.
    + injection E as -> ->. right. split; [apply Hpre; now left|].
      exists pre, post. repeat split; auto. intros x Hx. apply Hpre. now right.
  - intros [[Hc ->]|[Hc (pre & post & -> & Hpre & Hc0)]].
    + exists [], cells. repeat split; auto. intros ? [].
    + exists (c :: pre), post. repeat split; auto. intros x [<-|Hx]; auto.
Qed.

Lemma scan_orig_fatal probe cells :
  scan_orig probe cells = Fatal
  <-> exists c0, first_alias probe cells c0 /\ (clobbered c0 = true \/ written c0 = true).
Proof.
  induction cells as [|c cells IH]; simpl.
  - split; [discriminate | intros (c0 & H & _); now apply first_alias_nil in H].
  - destruct (must_alias probe c) eqn:Hc.
    + split.
      * intros H. exists c. split; [apply first_alias_cons; now left|].
        destruct (clobbered c); [now left|]. destruct (written c); [now right | discriminate].
      * intros (c0 & Hf & Hbad). apply first_alias_cons in Hf.
        destruct Hf as [[_ ->]|[Hf _]]; [|congruence].
        destruct (clobbered c); [reflexivity|].
        destruct (written c); [reflexivity|]. destruct Hbad; discriminate.
    + rewrite IH. split; intros (c0 & Hf & Hbad); exists c0; (split; [|assumption]).
      * apply first_alias_cons. now right.
      * apply first_alias_cons in Hf. destruct Hf as [[Hf _]|[_ Hf]]; [congruence | assumption].
Qed.

Lemma scan_finished_flag probe cells :
  forall aliased aliased',
    scan_state may_alias probe cells aliased = Finished aliased' ->
    (aliased' = false
     <-> aliased = false /\ forall c, In c cells -> may_alias probe c && written c = false).
Proof.
  induction cells as [|c cells IH]; intros aliased aliased'; simpl.
  - intros [= <-]. split; [intros ->; split; [reflexivity | intros ? []] | tauto].
  - destruct (must_alias probe c); [destruct (clobbered c); discriminate|].
    destruct (may_alias probe c && written c) eqn:Ea.
    + destruct (scan_state may_alias probe cells true) as [|a1] eqn:Es; simpl; [discriminate|].
      intros [= <-]. specialize (IH true a1 Es). split.
      * intros Ha. apply IH in Ha. destruct Ha; discriminate.
      * intros [_ H]. specialize (H c (or_introl eq_refl)). congruence.
    + destruct (scan_state may_alias probe cells aliased) as [|a1] eqn:Es; simpl; [discriminate|].
      intros [= <-]. specialize (IH aliased a1 Es). rewrite IH. split.
      * intros [Ha H]. split; [assumption|]. intros x [<-|Hx]; auto.
      * intros [Ha H]. split; [assumption|]. intros x Hx. apply H. now right.
Qed.

(** X28.  [mem_read] aborts in one case only: the state is not the original
    one, none of its cells must-aliases the address and none of its written
    cells may alias it, and the first cell of the original state that
    must-aliases the address is clobbered or written. *)
Theorem mem_read_fatal_iff (Len : Z) (r : StateRef) (addr : ValueType) (w : World) :
  mem_read may_alias Len r addr w = Fatal
  <-> r <> OrigState
      /\ (forall c, In c (mem (get_state r w)) ->
            must_alias (new_MemoryCell addr (fresh w) (Len / 8)) c = false
            /\ may_alias (new_MemoryCell addr (fresh w) (Len / 8)) c && written c = false)
      /\ exists c0,
           first_alias (new_MemoryCell addr (fresh w) (Len / 8)) (mem (orig_state w)) c0
           /\ (clobbered c0 = true \/ written c0 = true).
Proof.
  rewrite mem_read_unfold. cbv zeta.
  set (probe := new_MemoryCell addr (fresh w) (Len / 8)).
  rewrite <- scan_orig_fatal.
  destruct (scan_state may_alias probe (mem (get_state r w)) false)
    as [d mem'|aliased] eqn:Es.
  - split; [discriminate|]. intros (_ & Hnone & _).
    rewrite scan_miss in Es; [discriminate | |]; intros c Hc; now apply Hnone.
  - pose proof (scan_finished probe _ _ _ Es) as Hmust.
    pose proof (scan_finished_flag probe _ _ _ Es) as Hflag.
    destruct aliased; simpl negb; simpl andb.
    + split; [discriminate|]. intros (_ & Hnone & _).
      assert (true = false); [|discriminate].
      apply Hflag. split; [reflexivity|]. intros c Hc. now apply Hnone.
    + destruct r; simpl is_orig; simpl negb; cbv iota.
      * split; [discriminate | intros (H & _); now contradiction H].
      * destruct (scan_orig probe (mem (orig_state w))) as [[mi|]|].
        -- split; [discriminate | intros (_ & _ & H); discriminate].
        -- split; [discriminate | intros (_ & _ & H); discriminate].
        -- split; [|reflexivity].
           intros _. split; [discriminate|]. split; [|reflexivity].
           intros c Hc. split; [now apply Hmust|].
           destruct (proj1 Hflag eq_refl) as [_ Hmay]. now apply Hmay.
      * destruct (scan_orig probe (mem (orig_state w))) as [[mi|]|].
        -- split; [discriminate | intros (_ & _ & H); discriminate].
        -- split; [discriminate | intros (_ & _ & H); discriminate].
        -- split; [|reflexivity].
           intros _. split; [discriminate|]. split; [|reflexivity].
           intros c Hc. split; [now apply Hmust|].
           destruct (proj1 Hflag eq_refl) as [_ Hmay]. now apply Hmay.
Qed.

Lemma create_variable_frame nbits w :
  exists v w1,
    create_variable nbits w = Ok (v, w1)
    /\ orig_state w1 = orig_state w /\ cur_state w1 = cur_state w
    /\ other_state w1 = other_state w
    /\ p_discard_popped_memory w1 = p_discard_popped_memory w.
Proof. eexists. eexists. split; [reflexivity|]. simpl. auto. Qed.

Lemma fresh_values_frame nbits n :
  forall w,
  exists vs w1,
    fresh_values nbits n w = Ok (vs, w1)
    /\ orig_state w1 = orig_state w /\ cur_state w1 = cur_state w
    /\ other_state w1 = other_state w
    /\ p_discard_popped_memory w1 = p_discard_popped_memory w.
Proof.
  induction n as [|n IH]; intros w.
  - exists [], w. auto.
  - simpl. unfold mbind, ret.
    destruct (create_variable_frame nbits w) as (v0 & w0 & -> & Ho0 & Hc0 & Hx0 & Hp0).
    destruct (IH w0) as (vs & w1 & -> & Ho1 & Hc1 & Hx1 & Hp1).
    eexists. eexists. split; [reflexivity|]. repeat split; congruence.
Qed.

Lemma new_State_spec w :
  exists s w1,
    new_State w = Ok (s, w1)
    /\ mem s = []
    /\ orig_state w1 = orig_state w /\ cur_state w1 = cur_state w
    /\ other_state w1 = other_state w
    /\ p_discard_popped_memory w1 = p_discard_popped_memory w.
Proof.
  unfold new_State, mbind, ret.
  destruct (create_variable_frame 32 w) as (v0 & w0 & -> & Ho0 & Hc0 & Hx0 & Hp0).
  destruct (fresh_values_frame 32 8 w0) as (v1 & w1 & -> & Ho1 & Hc1 & Hx1 & Hp1).
  destruct (fresh_values_frame 16 6 w1) as (v2 & w2 & -> & Ho2 & Hc2 & Hx2 & Hp2).
  destruct (fresh_values_frame 1 16 w2) as (v3 & w3 & -> & Ho3 & Hc3 & Hx3 & Hp3).
  eexists. eexists. split; [reflexivity|]. simpl. repeat split; congruence.
Qed.

(** X29.  A write made before the first instruction is copied into the
    original state by the first [startInstruction]; once [interrupt] has
    emptied the memory of the current state, reading the address written
    aborts. *)
Theorem read_after_interrupt (p : Machine) (insn num Len seg : Z)
        (addr data cond : ValueType) :
  ninsns p = 0 ->
  exists w1 w3,
    writeMemory may_alias Len seg addr data cond (world p) = Ok (tt, w1)
    /\ interrupt num (world (startInstruction insn (mkMachine w1 (cur_insn p) (ninsns p))))
       = Ok (tt, w3)
    /\ readMemory may_alias Len seg addr cond w3 = Fatal.
Proof.
  intros Hn. unfold writeMemory, readMemory.
  destruct (mem_write_first Len CurState addr data (world p)) as (w1 & Hwrite & Hfirst);
    [discriminate|].
  exists w1.
  set (cur := set_ip (cur_state w1) (number 32 insn)).
  set (w2 := put_state OrigState cur (put_state CurState cur w1)).
  assert (Hw : world (startInstruction insn (mkMachine w1 (cur_insn p) (ninsns p))) = w2).
  { unfold startInstruction. cbn [world ninsns]. rewrite Hn. reflexivity. }
  rewrite Hw.
  destruct (new_State_spec w2) as (s & w2' & Hnew & Hmem & Horig & _).
  unfold interrupt, mbind, modify. rewrite Hnew.
  eexists. split; [exact Hwrite|]. split; [reflexivity|].
  apply mem_read_fatal_iff. split; [discriminate|]. split.
  - simpl. rewrite Hmem. intros c [].
  - exists (set_written (new_MemoryCell addr (unsignedExtend Len 32 data) (Len / 8))).
    split; [|now right].
    replace (mem (orig_state (put_state CurState s w2'))) with (mem (get_state CurState w1)).
    + revert Hfirst. now apply first_alias_ext.
    + simpl. rewrite Horig. reflexivity.
Qed.

(** *** Clobbering *)

Lemma equal_to_sym a b : equal_to a b = equal_to b a.
Proof.
  destruct (equal_to a b) eqn:E1, (equal_to b a) eqn:E2; try reflexivity.
  - apply equal_to_eq in E1. subst. rewrite equal_to_refl in E2. discriminate.
  - apply equal_to_eq in E2. subst. rewrite equal_to_refl in E1. discriminate.
Qed.

Lemma must_alias_sym a b : must_alias a b = must_alias b a.
Proof. unfold must_alias. now rewrite equal_to_sym, Z.eqb_sym. Qed.

Lemma must_alias_trans a b c :
  must_alias a b = true -> must_alias a c = must_alias b c.
Proof.
  unfold must_alias. intros H. apply andb_prop in H. destruct H as [Ha Hn].
  apply equal_to_eq in Ha. apply Z.eqb_eq in Hn. now rewrite Ha, Hn.
Qed.

Lemma write_cells_clobber discard state new_cell probe c0 :
  must_alias probe new_cell = false ->
  must_alias new_cell c0 = false -> may_alias new_cell c0 = true ->
  forall cells saved cells' saved',
    first_alias probe cells c0 ->
    write_cells may_alias discard state MRT_OTHER_PTR new_cell cells saved = (cells', saved') ->
    first_alias probe cells' (set_clobbered c0).
Proof.
  intros Hpn Hnc Hmay cells saved cells' saved' (pre & post & -> & Hpre & Hc0).
  revert saved cells' saved'.
  induction pre as [|c pre IH]; intros saved cells' saved'; simpl.
  - rewrite Hnc, Hmay, andb_false_r.
    destruct (write_cells _ _ _ _ _ post saved) as [rest' s'].
    intros [= <- _]. exists [], rest'.
    split; [reflexivity|]. split; [intros ? [] | exact Hc0].
  - assert (Hc : must_alias probe c = false) by (apply Hpre; now left).
    assert (IH' := IH (fun x Hx => Hpre x (or_intror Hx))).
    assert (Hcons : forall x rest' s0 s',
               write_cells may_alias discard state MRT_OTHER_PTR new_cell
                           (pre ++ c0 :: post) s0 = (rest', s') ->
               must_alias probe x = false ->
               first_alias probe (x :: rest') (set_clobbered c0)).
    { intros x rest' s0 s' Hw Hx. apply first_alias_cons. right. split; [assumption|].
      now apply (IH' s0 rest' s'). }
    rewrite andb_false_r.
    destruct (must_alias new_cell c).
    + destruct (write_cells _ _ _ _ _ _ true) as [rest' s'] eqn:Ew.
      intros [= <- _]. now apply (Hcons new_cell rest' true s').
    + destruct (may_alias new_cell c);
        destruct (write_cells _ _ _ _ _ _ saved) as [rest' s'] eqn:Ew;
        intros [= <- _]; now apply (Hcons _ rest' saved s').
Qed.

Lemma scan_hit_clobbered probe cells c0 :
  first_alias probe cells c0 -> clobbered c0 = true ->
  forall aliased,
  exists cells2,
    scan_state may_alias probe cells aliased = Returned (data probe) cells2
    /\ first_alias probe cells2
                   (mkCell (address c0) (data probe) (nbytes c0) false (written c0)).
Proof.
  intros (pre & post & -> & Hpre & Hc0) Hcl.
  induction pre as [|c pre IH]; intros aliased; simpl.
  - rewrite Hc0, Hcl. eexists. split; [reflexivity|].
    exists [], post. split; [reflexivity|]. split; [intros ? [] | exact Hc0].
  - rewrite (Hpre c) by now left.
    assert (IH' := IH (fun x Hx => Hpre x (or_intror Hx))).
    assert (Hstep : forall al, exists cells2,
               scan_cons c (scan_state may_alias probe (pre ++ c0 :: post) al)
               = Returned (data probe) cells2
               /\ first_alias probe cells2
                    (mkCell (address c0) (data probe) (nbytes c0) false (written c0))).
    { intros al. destruct (IH' al) as (cells2 & Hs & Hf). rewrite Hs. simpl.
      eexists. split; [reflexivity|]. apply first_alias_cons. right.
      split; [apply Hpre; now left | assumption]. }
    destruct (may_alias probe c && written c); apply Hstep.
Qed.

Lemma first_alias_app probe cells extra c0 :
  first_alias probe cells c0 -> first_alias probe (cells ++ extra) c0.
Proof.
  intros (pre & post & -> & Hpre & Hc0). exists pre, (post ++ extra).
  repeat split; auto. now rewrite <- app_assoc.
Qed.

(** X30.  A write clobbers the cells it may alias without being the same
    address: the next read of such a cell returns the variable made for the
    read, and the read after that returns that variable again. *)
Theorem write_clobbers (Len LenB : Z) (r : StateRef) (addr addrB dataB : ValueType)
        (w : World) (c0 : MemoryCell) :
  r <> OrigState ->
  first_alias (new_MemoryCell addr (fresh w) (Len / 8)) (mem (get_state r w)) c0 ->
  must_alias (set_written (new_MemoryCell addrB (unsignedExtend LenB 32 dataB) (LenB / 8))) c0
  = false ->
  may_alias (set_written (new_MemoryCell addrB (unsignedExtend LenB 32 dataB) (LenB / 8))) c0
  = true ->
  exists w1 w2 w3,
    mem_write may_alias LenB r addrB dataB w = Ok (tt, w1)
    /\ mem_read may_alias Len r addr w1 = Ok (unsignedExtend 32 Len (fresh w1), w2)
    /\ mem_read may_alias Len r addr w2 = Ok (unsignedExtend 32 Len (fresh w1), w3).
Proof.
  intros Hr Hfirst Hmust Hmay.
  set (newB := set_written (new_MemoryCell addrB (unsignedExtend LenB 32 dataB) (LenB / 8))) in *.
  set (probe := new_MemoryCell addr (fresh w) (Len / 8)) in *.
  assert (Hc0 : must_alias probe c0 = true) by (destruct Hfirst as (? & ? & _ & _ & H); exact H).
  assert (Hpn : must_alias probe newB = false).
  { rewrite (must_alias_trans probe c0 newB Hc0). now rewrite must_alias_sym. }
  rewrite mem_write_unfold by assumption. cbv zeta. fold newB.
  change (memory_reference_type (get_state r w) addrB) with MRT_OTHER_PTR.
  destruct (write_cells _ _ _ _ _ _ _) as [cells saved] eqn:Ew.
  pose proof (write_cells_clobber _ _ newB probe c0 Hpn Hmust Hmay _ _ _ _ Hfirst Ew) as Hf1.
  set (w1 := if saved then put_state r (set_mem (get_state r w) cells) w
             else push_back r newB (put_state r (set_mem (get_state r w) cells) w)).
  assert (Hf1' : first_alias (new_MemoryCell addr (fresh w1) (Len / 8))
                             (mem (get_state r w1)) (set_clobbered c0)).
  { apply (first_alias_ext probe); [reflexivity | reflexivity|].
    unfold w1. destruct saved.
    - now rewrite get_put_same.
    - rewrite mem_push_same, get_put_same. simpl mem. now apply first_alias_app. }
  destruct (scan_hit_clobbered _ _ _ Hf1' eq_refl false) as (cells2 & Hscan & Hf2).
  exists w1. eexists. eexists. split; [reflexivity|]. split.
  - rewrite mem_read_unfold. cbv zeta. rewrite Hscan. reflexivity.
  - set (w2 := put_state r (set_mem (get_state r w1) cells2) (bump w1)).
    rewrite (mem_read_hit Len r addr w2
               (mkCell (address c0) (fresh w1) (nbytes c0) false (written c0))).
    + reflexivity.
    + unfold w2. rewrite get_put_same. simpl mem.
      revert Hf2. now apply first_alias_ext.
    + reflexivity.
Qed.


(** *** What reads and writes leave in place *)

Lemma StateRef_cases (r r' : StateRef) : r = r' \/ r <> r'.
Proof. destruct r, r'; (now left) || (right; discriminate). Qed.

Lemma mem_push r r' c w :
  exists extra, mem (get_state r (push_back r' c w)) = mem (get_state r w) ++ extra.
Proof.
  destruct (StateRef_cases r r') as [<-|Hne].
  - exists [c]. apply mem_push_same.
  - exists []. rewrite get_push_other by congruence. now rewrite app_nil_r.
Qed.

Lemma holds_app r addr n d w w1 extra :
  mem (get_state r w1) = mem (get_state r w) ++ extra ->
  holds r addr n d w -> holds r addr n d w1.
Proof.
  intros E (c0 & Hf & Hc & Hd). exists c0. rewrite E.
  split; [now apply first_alias_app | auto].
Qed.

Lemma holds_bump r addr n d w : holds r addr n d w -> holds r addr n d (bump w).
Proof. unfold holds. now rewrite get_bump. Qed.

(** The first must-aliasing cell stays the first one when the cells that
    do not must-alias are replaced by cells that do not, and the cell
    itself is kept. *)
Lemma first_alias_Forall2 (R : MemoryCell -> MemoryCell -> Prop) probe c0 :
  (forall c c', R c c' -> must_alias probe c = false -> must_alias probe c' = false) ->
  (forall c', R c0 c' -> c' = c0) ->
  forall cells cells',
    Forall2 R cells cells' ->
    first_alias probe cells c0 -> first_alias probe cells' c0.
Proof.
  intros Hmiss Hhit cells cells' HR.
  induction HR as [|c c' cells cells' Hc HR IH].
  - intros H. now apply first_alias_nil in H.
  - rewrite !first_alias_cons. intros [[Hm E]|[Hm Hf]].
    + left. subst c. rewrite (Hhit c' Hc). auto.
    + right. split; [now apply (Hmiss c c') | now apply IH].
Qed.

Lemma must_alias_same_place probe c c' :
  address c' = address c -> nbytes c' = nbytes c ->
  must_alias probe c' = must_alias probe c.
Proof. intros Ha Hn. unfold must_alias. now rewrite Ha, Hn. Qed.

Lemma must_alias_place probe c :
  must_alias probe c = true -> address c = address probe /\ nbytes c = nbytes probe.
Proof.
  unfold must_alias. intros H. apply andb_prop in H. destruct H as [Ha Hn].
  apply equal_to_eq in Ha. apply Z.eqb_eq in Hn. auto.
Qed.

Lemma Forall2_same (A : Type) (R : A -> A -> Prop) (l : list A) :
  (forall x, R x x) -> Forall2 R l l.
Proof. intros HR. induction l; constructor; auto. Qed.

(** A read changes one cell at most, a clobbered one, and neither its
    address nor its size. *)
Lemma scan_returned_cells probe cells aliased d mem' :
  scan_state may_alias probe cells aliased = Returned d mem' ->
  Forall2 (fun c c' => c' = c
                       \/ (clobbered c = true /\ address c' = address c
                           /\ nbytes c' = nbytes c))
          cells mem'.
Proof.
  revert aliased mem'. induction cells as [|c cells IH]; intros aliased mem'; simpl.
  - discriminate.
  - destruct (must_alias probe c).
    + destruct (clobbered c) eqn:Hcl; intros [= _ <-].
      * constructor; [right; auto | apply Forall2_same; now left].
      * constructor; [now left | apply Forall2_same; now left].
    + assert (Hstep : forall al,
                 scan_cons c (scan_state may_alias probe cells al) = Returned d mem' ->
                 Forall2 (fun c c' => c' = c
                                      \/ (clobbered c = true /\ address c' = address c
                                          /\ nbytes c' = nbytes c))
                         (c :: cells) mem').
      { intros al. destruct (scan_state may_alias probe cells al) as [d1 m1|] eqn:Es;
          simpl; [|discriminate].
        intros [= <- <-]. constructor; [now left | now apply (IH al)]. }
      destruct (may_alias probe c && written c); apply Hstep.
Qed.

(** A write replaces the cells that must-alias its cell and clobbers those
    that may alias it; it leaves the others as they are. *)
Lemma write_cells_cells discard state new_mrt new_cell cells :
  forall saved cells' saved',
    write_cells may_alias discard state new_mrt new_cell cells saved = (cells', saved') ->
    Forall2 (fun c c' =>
               (must_alias new_cell c = true /\ c' = new_cell)
               \/ (must_alias new_cell c = false
                   /\ (c' = c \/ (may_alias new_cell c = true /\ c' = set_clobbered c))))
            cells cells'.
Proof.
  induction cells as [|mi cells IH]; intros saved cells' saved'; simpl.
  - intros [= <- _]. constructor.
  - destruct (must_alias new_cell mi) eqn:Hmi.
    + destruct (write_cells may_alias discard state new_mrt new_cell cells true)
        as [rest' s'] eqn:E.
      intros [= <- _]. constructor; [now left | now apply (IH true rest' s')].
    + destruct (discard && negb (MemRefType_eqb new_mrt (memory_reference_type state (address mi)))).
      * destruct (write_cells may_alias discard state new_mrt new_cell cells saved)
          as [rest' s'] eqn:E.
        intros [= <- _]. constructor; [right; auto | now apply (IH saved rest' s')].
      * destruct (may_alias new_cell mi) eqn:Hmay;
          destruct (write_cells may_alias discard state new_mrt new_cell cells saved)
            as [rest' s'] eqn:E;
          intros [= <- _]; (constructor; [right; auto | now apply (IH saved rest' s')]).
Qed.

(** No read takes away what a state holds at an address. *)
Lemma holds_mem_read Len' r' addr' w v' w1 r addr n d :
  mem_read may_alias Len' r' addr' w = Ok (v', w1) ->
  holds r addr n d w -> holds r addr n d w1.
Proof.
  rewrite mem_read_unfold. cbv zeta.
  set (probe' := new_MemoryCell addr' (fresh w) (Len' / 8)).
  intros Hread Hh. pose proof (holds_bump _ _ _ _ _ Hh) as Hb.
  destruct (scan_state may_alias probe' (mem (get_state r' w)) false)
    as [d' mem'|aliased] eqn:Es.
  - injection Hread as _ <-.
    destruct (StateRef_cases r r') as [<-|Hne].
    + destruct Hh as (c0 & Hf & Hc & Hd). exists c0. rewrite get_put_same. simpl mem.
      split; [|auto].
      revert Hf. apply (first_alias_Forall2 _ _ c0) with (3 := scan_returned_cells _ _ _ _ _ Es).
      * intros c c' [->|(_ & Ha & Hn)] Hm; [assumption|].
        now rewrite (must_alias_same_place _ c c').
      * intros c' [->|(Hcl & _)]; [reflexivity | congruence].
    + unfold holds. rewrite get_put_other by congruence. exact Hb.
  - destruct (negb aliased && negb (is_orig r')).
    + destruct (scan_orig probe' (mem (orig_state w))) as [[mi|]|]; [| |discriminate].
      * injection Hread as _ <-.
        destruct (mem_push r r' mi (bump w)) as (extra & E).
        now apply (holds_app r addr n d (bump w) _ extra).
      * injection Hread as _ <-.
        destruct (mem_push r OrigState probe' (bump w)) as (e1 & E1).
        destruct (mem_push r r' probe' (push_back OrigState probe' (bump w))) as (e2 & E2).
        apply (holds_app r addr n d _ _ e2 E2).
        now apply (holds_app r addr n d (bump w) _ e1).
    + injection Hread as _ <-.
      destruct (mem_push r r' probe' (bump w)) as (extra & E).
      now apply (holds_app r addr n d (bump w) _ extra).
Qed.

(** Nor does a write whose cell aliases no cell of that address and size. *)
Lemma holds_mem_write Len' r' addr' data' w w1 r addr n d :
  mem_write may_alias Len' r' addr' data' w = Ok (tt, w1) ->
  (r' = r ->
   forall c, address c = addr -> nbytes c = n ->
     must_alias (written_cell Len' addr' data') c = false
     /\ may_alias (written_cell Len' addr' data') c = false) ->
  holds r addr n d w -> holds r addr n d w1.
Proof.
  intros Hwrite Hapart Hh.
  assert (Hr' : r' <> OrigState) by (intros ->; discriminate Hwrite).
  rewrite mem_write_unfold in Hwrite by assumption. cbv zeta in Hwrite.
  fold (written_cell Len' addr' data') in Hwrite.
  destruct (write_cells _ _ _ _ _ _ _) as [cells saved] eqn:Ew.
  injection Hwrite as <-.
  destruct (StateRef_cases r r') as [<-|Hne].
  - specialize (Hapart eq_refl). destruct Hh as (c0 & Hf & Hc & Hd).
    assert (Hc0 : must_alias (new_MemoryCell addr d n) c0 = true)
      by (destruct Hf as (? & ? & _ & _ & H); exact H).
    apply must_alias_place in Hc0. simpl in Hc0. destruct Hc0 as [Ha0 Hn0].
    assert (Hf' : first_alias (new_MemoryCell addr d n) cells c0).
    { revert Hf.
      apply (first_alias_Forall2 _ _ c0) with (3 := write_cells_cells _ _ _ _ _ _ _ _ Ew).
      - intros c c' [[_ ->]|[_ [->|[_ ->]]]] Hm.
        + rewrite must_alias_sym. now apply (Hapart (new_MemoryCell addr d n)).
        + assumption.
        + exact Hm.
      - intros c' [[Hm _]|[_ [->|[Hmay _]]]].
        + destruct (Hapart c0 Ha0 Hn0). congruence.
        + reflexivity.
        + destruct (Hapart c0 Ha0 Hn0). congruence. }
    exists c0. split; [|auto]. destruct saved.
    + now rewrite get_put_same.
    + rewrite mem_push_same, get_put_same. simpl mem. now apply first_alias_app.
  - unfold holds.
    destruct saved; [|rewrite get_push_other by congruence];
      rewrite get_put_other by congruence; exact Hh.
Qed.

Lemma holds_run r addr n d ops : forall w w',
  Forall (apart_from may_alias r addr n) ops ->
  run_mem may_alias ops w = Ok (tt, w') ->
  holds r addr n d w -> holds r addr n d w'.
Proof.
  induction ops as [|op ops IH]; intros w w' Hall; simpl.
  - unfold ret. intros [= <-]. auto.
  - inversion Hall as [|? ? Hop Hops]; subst. unfold mbind.
    destruct (mem_op may_alias op w) as [[[] w1]|] eqn:Eop; [|discriminate].
    intros Hrun Hh. apply (IH w1 w' Hops Hrun).
    destruct op as [Len' r' addr'|Len' r' addr' data']; simpl in Eop, Hop.
    + unfold mbind, ret in Eop.
      destruct (mem_read may_alias Len' r' addr' w) as [[v' w1']|] eqn:Er; [|discriminate].
      injection Eop as <-. now apply (holds_mem_read Len' r' addr' w v' w1').
    + now apply (holds_mem_write Len' r' addr' data' w w1).
Qed.

Lemma holds_read Len r addr d w :
  holds r addr (Len / 8) d w ->
  mem_read may_alias Len r addr w = Ok (unsignedExtend 32 Len d, bump w).
Proof.
  intros (c0 & Hf & Hc & <-). apply mem_read_hit; [|assumption].
  revert Hf. now apply first_alias_ext.
Qed.

Lemma mem_read_holds Len r addr w v w1 :
  mem_read may_alias Len r addr w = Ok (v, w1) ->
  exists d, holds r addr (Len / 8) d w1 /\ v = unsignedExtend 32 Len d.
Proof.
  intros Hread. destruct (mem_read_post _ _ _ _ _ _ Hread) as (c0 & Hf & Hc & Hv).
  exists (data c0). split; [|assumption]. exists c0. split; [|auto].
  revert Hf. now apply first_alias_ext.
Qed.

Lemma mem_write_holds Len r addr data w :
  r <> OrigState ->
  exists w1,
    mem_write may_alias Len r addr data w = Ok (tt, w1)
    /\ holds r addr (Len / 8) (unsignedExtend Len 32 data) w1.
Proof.
  intros Hr. destruct (mem_write_first Len r addr data w Hr) as (w1 & Hwrite & Hf).
  exists w1. split; [assumption|].
  exists (set_written (new_MemoryCell addr (unsignedExtend Len 32 data) (Len / 8))).
  split; [|auto]. revert Hf. now apply first_alias_ext.
Qed.

(** C3.  A read returns whenever no cell of the original state is clobbered
    or written.  When a read returns, and reads and writes follow that
    return, none of them a write through the state to an address that
    must-aliases or may alias the address read, then a read of a
    structurally equal address at the same width returns a structurally
    equal value. *)
Theorem mem_read_twice (Len : Z) (r : StateRef) (addr : ValueType) (w : World) :
  (orig_clean w -> exists v1 w1, mem_read may_alias Len r addr w = Ok (v1, w1))
  /\ (forall v1 w1 ops w2 addr',
        mem_read may_alias Len r addr w = Ok (v1, w1) ->
        Forall (apart_from may_alias r addr (Len / 8)) ops ->
        run_mem may_alias ops w1 = Ok (tt, w2) ->
        equal_to addr' addr = true ->
        exists v2 w3,
          mem_read may_alias Len r addr' w2 = Ok (v2, w3)
          /\ equal_to v2 v1 = true).
Proof.
  split; [apply mem_read_clean|].
  intros v1 w1 ops w2 addr' Hread Hops Hrun Heq. apply equal_to_eq in Heq. subst addr'.
  destruct (mem_read_holds _ _ _ _ _ _ Hread) as (d & Hh & ->).
  pose proof (holds_run _ _ _ _ _ _ _ Hops Hrun Hh) as Hh2.
  exists (unsignedExtend 32 Len d), (bump w2). split.
  - now apply holds_read.
  - apply equal_to_refl.
Qed.

(** C2, as amended.  A write through a state other than the original one
    returns; after it, and after any reads and any writes that are not
    through the state to an address that must-aliases or may alias the
    address written, a read of a structurally equal address at the same
    width returns the data extended to 32 bits and back.  That value is
    structurally equal to the data at width 32 and for known constants; for
    other data at a narrower width it is an extraction from an extension,
    which is not structurally equal to the data; it denotes what the data
    denotes. *)
Theorem write_then_read (Len : Z) (r : StateRef) (addr addr' data : ValueType)
        (w : World) :
  r <> OrigState -> equal_to addr' addr = true ->
  exists w1,
    mem_write may_alias Len r addr data w = Ok (tt, w1)
    /\ (forall ops w2,
          Forall (apart_from may_alias r addr (Len / 8)) ops ->
          run_mem may_alias ops w1 = Ok (tt, w2) ->
          exists w3, mem_read may_alias Len r addr' w2 = Ok (read_back Len data, w3))
    /\ (0 < Len <= 32 -> valid_value Len data ->
        Len = 32 \/ is_known data = true ->
        equal_to (read_back Len data) data = true)
    /\ (Len < 32 -> is_known data = false ->
        read_back Len data
        = InternalNode Len OP_EXTRACT
            [create_integer 32 0; create_integer 32 Len;
             InternalNode 32 OP_UEXTEND [create_integer 32 32; data]]
        /\ equal_to (read_back Len data) data = false)
    /\ (forall env rest, 0 < Len <= 32 -> valid_value Len data ->
          eval env rest (read_back Len data) = eval env rest data).
Proof.
  intros Hr Heq. apply equal_to_eq in Heq. subst addr'.
  destruct (mem_write_holds Len r addr data w Hr) as (w1 & Hwrite & Hh).
  exists w1. split; [assumption|]. split; [|split; [|split]];
    [| | | intros env rest; apply read_back_denotes].
  - intros ops w2 Hops Hrun.
    pose proof (holds_run _ _ _ _ _ _ _ Hops Hrun Hh) as Hh2.
    exists (bump w2). unfold read_back. now apply holds_read.
  - intros HLen Hv [->|Hk].
    + rewrite read_back_32 by assumption. apply equal_to_refl.
    + rewrite read_back_known by assumption. apply equal_to_refl.
  - intros HLen Hk. split; [now apply read_back_unknown | now apply read_back_differs].
Qed.

End Memory.


(** *** The arithmetic primitives one by one *)

Lemma width_lt_2_32 n : 0 <= n <= 64 -> 0 <= n < 2 ^ 32.
Proof. intros H. assert (64 < 2 ^ 32) by reflexivity. lia. Qed.

(** X23.  [unsignedExtend] gives a value of the new width that denotes the
    operand modulo two to the new width, the operand itself when the value
    is not made narrower, whatever the operand is built from. *)
Theorem unsignedExtend_spec (env : Z -> Z) (rest : Operator -> Z -> list Z -> Z)
        (FromLen ToLen : Z) (a : ValueType) :
  0 < FromLen <= 64 -> 0 < ToLen <= 64 -> valid_value FromLen a ->
  valid_value ToLen (unsignedExtend FromLen ToLen a)
  /\ eval env rest (unsignedExtend FromLen ToLen a) = eval env rest a mod 2 ^ ToLen
  /\ (FromLen <= ToLen ->
      eval env rest (unsignedExtend FromLen ToLen a) = eval env rest a).
Proof.
  intros HFrom HTo Hv.
  pose proof (eval_unsignedExtend env rest FromLen ToLen a Hv ltac:(lia)
                (width_lt_2_32 ToLen ltac:(lia))) as He.
  split; [apply valid_unsignedExtend; [assumption | lia]|].
  split; [assumption|]. intros Hle. rewrite He. apply Z.mod_small.
  pose proof (eval_valid env rest FromLen a ltac:(lia) Hv).
  pose proof (pow2_le FromLen ToLen ltac:(lia)). lia.
Qed.

(** X24.  [extract] denotes the bits from [BeginAt] up to [EndAt] of its
    operand, whatever the operand is built from, except for a known
    constant with [BeginAt] above zero: there it gives the low-order bits of
    the constant, which are not shifted down. *)
Theorem extract_spec (env : Z -> Z) (rest : Operator -> Z -> list Z -> Z)
        (BeginAt EndAt Len : Z) (a : ValueType) :
  0 <= BeginAt < EndAt -> EndAt <= Len <= 64 -> valid_value Len a ->
  eval env rest (extract BeginAt EndAt Len a)
  = if (0 <? BeginAt) && is_known a
    then eval env rest a mod 2 ^ (EndAt - BeginAt)
    else Z.shiftr (eval env rest a) BeginAt mod 2 ^ (EndAt - BeginAt).
Proof.
  intros HB HE Hv.
  destruct (Z.ltb_spec 0 BeginAt) as [Hpos|Hzero]; simpl andb.
  - destruct (is_known a) eqn:Hk.
    + unfold extract. destruct (Z.eqb_spec 0 BeginAt) as [|_]; [lia|]. rewrite Hk.
      destruct a as [n o c|n [|] v]; try discriminate.
      rewrite (eval_valid_known env rest Len n v Hv).
      cbn [value]. now rewrite eval_number.
    + apply eval_extract_unknown; [assumption | lia|].
      pose proof (width_lt_2_32 EndAt ltac:(lia)). lia.
  - assert (BeginAt = 0) by lia. subst BeginAt.
    unfold extract. simpl Z.eqb. cbv iota.
    assert (HLen : 0 <= Len) by lia.
    assert (HTo : 0 <= EndAt - 0 < 2 ^ 32) by (apply width_lt_2_32; lia).
    rewrite (eval_unsignedExtend env rest Len (EndAt - 0) a Hv HLen HTo).
    now rewrite Z.shiftr_0_r.
Qed.

(** X25.  [add] gives a value of the width of its operands that denotes
    their sum modulo two to the width, whichever of its four cases applies
    and whatever the operands are built from. *)
Theorem add_spec (env : Z -> Z) (rest : Operator -> Z -> list Z -> Z)
        (Len : Z) (a b : ValueType) :
  0 < Len <= 64 -> valid_value Len a -> valid_value Len b ->
  valid_value Len (add Len a b)
  /\ eval env rest (add Len a b) = (eval env rest a + eval env rest b) mod 2 ^ Len.
Proof.
  intros HLen Ha Hb. split.
  - apply valid_add; [lia | assumption | assumption].
  - now apply eval_add.
Qed.

Lemma lnot_mod v Len :
  0 < Len <= 64 -> 0 <= v < 2 ^ Len ->
  u64 (Z.lnot v) mod 2 ^ Len = 2 ^ Len - 1 - v.
Proof.
  intros HLen Hv. unfold u64. rewrite mod_mod_pow2 by lia.
  unfold Z.lnot. replace (Z.pred (- v)) with (2 ^ Len - 1 - v + (-1) * 2 ^ Len) by lia.
  rewrite Z.mod_add by lia. apply Z.mod_small. lia.
Qed.

(** X26.  [invert] of a known constant is the constant with its bits
    flipped, and inverting twice gives the constant back; of any other value
    it is an INVERT node, and inverting twice does not give the value back. *)
Theorem invert_spec (Len : Z) (a : ValueType) :
  0 < Len <= 64 -> valid_value Len a ->
  (is_known a = true ->
   invert Len a = LeafNode Len true (2 ^ Len - 1 - value a)
   /\ invert Len (invert Len a) = a)
  /\ (is_known a = false ->
      invert Len a = InternalNode Len OP_INVERT [a]
      /\ equal_to (invert Len (invert Len a)) a = false).
Proof.
  intros HLen Hv. split; intros Hk.
  - destruct a as [n o c|n [|] v]; try discriminate.
    apply valid_known in Hv. destruct Hv as [-> Hv]. cbn [value].
    assert (E : invert Len (LeafNode Len true v) = LeafNode Len true (2 ^ Len - 1 - v)).
    { unfold invert, create_integer. cbn [is_known value]. now rewrite lnot_mod. }
    split; [assumption|]. rewrite E.
    unfold invert, create_integer. cbn [is_known value].
    rewrite lnot_mod by lia. f_equal. lia.
  - assert (E : invert Len a = InternalNode Len OP_INVERT [a])
      by (unfold invert; now rewrite Hk).
    split; [assumption|]. rewrite E. unfold invert. cbn [is_known].
    destruct (equal_to _ a) eqn:Eq; [|reflexivity].
    apply equal_to_depth in Eq. simpl in Eq. lia.
Qed.
(** *** The theorems at concrete inputs *)

Lemma add_laws_witness :
  equal_to (add 32 (number 32 5) (number 32 0)) (number 32 5) = true
  /\ equal_to (add 32 (number 32 0) (number 32 5)) (number 32 5) = true
  /\ (forall b, valid_value 32 b -> is_known (number 32 5) = true -> is_known b = true ->
        add 32 (number 32 5) b
        = LeafNode 32 true ((value (number 32 5) + value b) mod 2 ^ 32)).
Proof.
  apply (add_laws 32 (number 32 5)).
  - lia.
  - split; [reflexivity|]. intros _. vm_compute. split; [discriminate | reflexivity].
Defined.

Lemma addWithCarries_spec_witness :
  eval (fun _ => 3) (fun _ _ _ => 0)
       (fst (addWithCarries 8 (number 8 54) (invert 8 (LeafNode 8 false 1)) false_))
  = (eval (fun _ => 3) (fun _ _ _ => 0) (number 8 54)
     + eval (fun _ => 3) (fun _ _ _ => 0) (invert 8 (LeafNode 8 false 1))
     + eval (fun _ => 3) (fun _ _ _ => 0) false_) mod 2 ^ 8
  /\ 0 <= eval (fun _ => 3) (fun _ _ _ => 0)
               (snd (addWithCarries 8 (number 8 54) (invert 8 (LeafNode 8 false 1)) false_))
        < 2 ^ 8
  /\ forall i, 0 <= i < 8 ->
       Z.testbit (eval (fun _ => 3) (fun _ _ _ => 0)
                       (snd (addWithCarries 8 (number 8 54) (invert 8 (LeafNode 8 false 1))
                                            false_))) i
       = xorb (xorb (Z.testbit (eval (fun _ => 3) (fun _ _ _ => 0) (number 8 54)) (i + 1))
                    (Z.testbit (eval (fun _ => 3) (fun _ _ _ => 0)
                                     (invert 8 (LeafNode 8 false 1))) (i + 1)))
              (Z.testbit (eval (fun _ => 3) (fun _ _ _ => 0) (number 8 54)
                          + eval (fun _ => 3) (fun _ _ _ => 0) (invert 8 (LeafNode 8 false 1))
                          + eval (fun _ => 3) (fun _ _ _ => 0) false_) (i + 1)).
Proof.
  apply (addWithCarries_spec (fun _ => 3) (fun _ _ _ => 0) 8 (number 8 54)
                             (invert 8 (LeafNode 8 false 1)) false_); try lia.
  - split; [reflexivity|]. intros _. vm_compute. split; [discriminate | reflexivity].
  - split; [reflexivity | discriminate].
  - split; [reflexivity|]. intros _. vm_compute. split; [discriminate | reflexivity].
Defined.

(** Bit 0 of the carries of 1 + 1 is set, while the exclusive or of the
    bits 0 of the operands and of the sum is not. *)
Lemma carry_formula_counterexample :
  eval (fun _ => 0) (fun _ _ _ => 0)
       (fst (addWithCarries 8 (number 8 1) (number 8 1) false_)) = 2
  /\ eval (fun _ => 0) (fun _ _ _ => 0)
          (snd (addWithCarries 8 (number 8 1) (number 8 1) false_)) = 1
  /\ Z.testbit (eval (fun _ => 0) (fun _ _ _ => 0)
                     (snd (addWithCarries 8 (number 8 1) (number 8 1) false_))) 0
     <> xorb (xorb (Z.testbit (eval (fun _ => 0) (fun _ _ _ => 0) (number 8 1)) 0)
                   (Z.testbit (eval (fun _ => 0) (fun _ _ _ => 0) (number 8 1)) 0))
             (Z.testbit (eval (fun _ => 0) (fun _ _ _ => 0)
                              (fst (addWithCarries 8 (number 8 1) (number 8 1) false_))) 0).
Proof.
  split; [reflexivity|]. split; [reflexivity|]. vm_compute. discriminate.
Qed.

Lemma write_then_read_witness :
  exists w1 w2 w3,
    writeMemory may_alias_any 32 0 (number 32 4096) (number 32 57005) true_ policy_world
    = Ok (tt, w1)
    /\ run_mem may_alias_any [MemRead 16 CurState (number 32 8192);
                              MemRead 32 OrigState (number 32 4096)] w1 = Ok (tt, w2)
    /\ readMemory may_alias_any 32 0 (number 32 4096) true_ w2
       = Ok (read_back 32 (number 32 57005), w3)
    /\ equal_to (read_back 32 (number 32 57005)) (number 32 57005) = true.
Proof.
  destruct (write_then_read may_alias_any 32 CurState (number 32 4096) (number 32 4096)
              (number 32 57005) policy_world) as (w1 & H1 & H2 & H3 & _ & _).
  - discriminate.
  - reflexivity.
  - assert (E : mem_write may_alias_any 32 CurState (number 32 4096) (number 32 57005)
                          policy_world = Ok (tt, written_world))
      by (vm_compute; reflexivity).
    assert (Hw1 : w1 = written_world) by congruence. subst w1.
    pose (ops := [MemRead 16 CurState (number 32 8192);
                  MemRead 32 OrigState (number 32 4096)]).
    pose (w2 := match run_mem may_alias_any ops written_world with
                | Ok (_, w) => w
                | Fatal => written_world
                end).
    assert (Hrun : run_mem may_alias_any ops written_world = Ok (tt, w2))
      by (vm_compute; reflexivity).
    destruct (H2 ops w2) as (w3 & H4); [repeat constructor | exact Hrun |].
    exists written_world, w2, w3. split; [exact E|]. split; [exact Hrun|].
    split; [exact H4|].
    apply H3; [lia | | now left].
    split; [reflexivity|]. intros _. vm_compute. split; [discriminate | reflexivity].
Defined.

(** A variable of 8 bits written and read back at width 8 comes back as an
    extraction from an extension, not as the variable. *)
Lemma narrow_write_counterexample :
  exists w1 w2 v,
    mem_write may_alias_any 8 CurState (number 32 4096) (LeafNode 8 false 77) policy_world
    = Ok (tt, w1)
    /\ mem_read may_alias_any 8 CurState (number 32 4096) w1 = Ok (v, w2)
    /\ equal_to v (LeafNode 8 false 77) = false.
Proof.
  do 3 eexists. split; [vm_compute; reflexivity|].
  split; vm_compute; reflexivity.
Qed.

Lemma mem_read_twice_witness :
  exists v1 w1 w2 v2 w3,
    mem_read may_alias_same 32 CurState (number 32 4096) policy_world = Ok (v1, w1)
    /\ run_mem may_alias_same
               [MemWrite 32 CurState (number 32 8192) (number 32 7);
                MemRead 8 CurState (number 32 8192);
                MemWrite 16 OtherState (number 32 4096) (number 16 9)] w1 = Ok (tt, w2)
    /\ mem_read may_alias_same 32 CurState (number 32 4096) w2 = Ok (v2, w3)
    /\ equal_to v2 v1 = true.
Proof.
  destruct (mem_read_twice may_alias_same 32 CurState (number 32 4096) policy_world)
    as [_ H2].
  pose (r1 := mem_read may_alias_same 32 CurState (number 32 4096) policy_world).
  pose (v1 := match r1 with Ok (v, _) => v | Fatal => true_ end).
  pose (w1 := match r1 with Ok (_, w) => w | Fatal => policy_world end).
  assert (E1 : mem_read may_alias_same 32 CurState (number 32 4096) policy_world
               = Ok (v1, w1)) by (vm_compute; reflexivity).
  pose (ops := [MemWrite 32 CurState (number 32 8192) (number 32 7);
                MemRead 8 CurState (number 32 8192);
                MemWrite 16 OtherState (number 32 4096) (number 16 9)]).
  pose (w2 := match run_mem may_alias_same ops w1 with
              | Ok (_, w) => w
              | Fatal => w1
              end).
  assert (Hrun : run_mem may_alias_same ops w1 = Ok (tt, w2)) by (vm_compute; reflexivity).
  destruct (H2 v1 w1 ops w2 (number 32 4096) E1) as (v2 & w3 & E2 & Heq).
  - constructor; [|constructor; [exact I|constructor; [discriminate | constructor]]].
    intros _ c Ha Hn. unfold must_alias, may_alias_same, written_cell. simpl.
    rewrite Ha. split; reflexivity.
  - exact Hrun.
  - reflexivity.
  - exists v1, w1, w2, v2, w3. auto.
Defined.

Lemma mem_read_initial_witness :
  exists w1,
    mem_read may_alias_any 32 CurState (number 32 4096) policy_world
    = Ok (unsignedExtend 32 32 (fresh policy_world), w1)
    /\ mem (orig_state w1)
       = mem (orig_state policy_world)
         ++ [new_MemoryCell (number 32 4096) (fresh policy_world) (32 / 8)]
    /\ mem (get_state CurState w1)
       = mem (get_state CurState policy_world)
         ++ [new_MemoryCell (number 32 4096) (fresh policy_world) (32 / 8)]
    /\ (forall r', r' = CurState \/ r' = OrigState ->
          exists v2 w2,
            mem_read may_alias_any 32 r' (number 32 4096) w1 = Ok (v2, w2)
            /\ equal_to v2 (unsignedExtend 32 32 (fresh policy_world)) = true).
Proof.
  apply (mem_read_initial may_alias_any 32 CurState (number 32 4096) policy_world).
  - discriminate.
  - intros c Hc. vm_compute in Hc. contradiction.
  - intros c Hc. vm_compute in Hc. contradiction.
  - intros c Hc. vm_compute in Hc. contradiction.
Defined.

Lemma mem_write_frame_witness :
  exists w1,
    mem_write may_alias_any 32 CurState (LeafNode 32 false 34) (number 32 48879)
              written_world = Ok (tt, w1)
    /\ ip (get_state CurState w1) = ip (get_state CurState written_world)
    /\ gpr (get_state CurState w1) = gpr (get_state CurState written_world)
    /\ segreg (get_state CurState w1) = segreg (get_state CurState written_world)
    /\ flag (get_state CurState w1) = flag (get_state CurState written_world)
    /\ (forall i c,
          nth_error (mem (get_state CurState written_world)) i = Some c ->
          must_alias
            (set_written (new_MemoryCell (LeafNode 32 false 34)
                                         (unsignedExtend 32 32 (number 32 48879))
                                         (32 / 8))) c
          = false ->
          exists c',
            nth_error (mem (get_state CurState w1)) i = Some c'
            /\ address c' = address c /\ data c' = data c
            /\ nbytes c' = nbytes c /\ written c' = written c
            /\ (clobbered c' = clobbered c \/ clobbered c' = true))
    /\ (forall r', r' <> CurState -> get_state r' w1 = get_state r' written_world).
Proof.
  apply (mem_write_frame may_alias_any 32 CurState (LeafNode 32 false 34)
                         (number 32 48879) written_world).
  discriminate.
Defined.

Lemma unsignedExtend_spec_witness :
  valid_value 16 (unsignedExtend 8 16 (invert 8 (LeafNode 8 false 3)))
  /\ eval (fun _ => 200) (fun _ _ _ => 77) (unsignedExtend 8 16 (invert 8 (LeafNode 8 false 3)))
     = eval (fun _ => 200) (fun _ _ _ => 77) (invert 8 (LeafNode 8 false 3)) mod 2 ^ 16
  /\ (8 <= 16 ->
      eval (fun _ => 200) (fun _ _ _ => 77) (unsignedExtend 8 16 (invert 8 (LeafNode 8 false 3)))
      = eval (fun _ => 200) (fun _ _ _ => 77) (invert 8 (LeafNode 8 false 3))).
Proof.
  apply (unsignedExtend_spec (fun _ => 200) (fun _ _ _ => 77) 8 16
                             (invert 8 (LeafNode 8 false 3))); try lia.
  split; [reflexivity | discriminate].
Defined.

Lemma extract_spec_witness :
  eval (fun _ => 0) (fun _ _ _ => 0) (extract 8 16 16 (number 16 4660))
  = if (0 <? 8) && is_known (number 16 4660)
    then eval (fun _ => 0) (fun _ _ _ => 0) (number 16 4660) mod 2 ^ (16 - 8)
    else Z.shiftr (eval (fun _ => 0) (fun _ _ _ => 0) (number 16 4660)) 8 mod 2 ^ (16 - 8).
Proof.
  apply (extract_spec (fun _ => 0) (fun _ _ _ => 0) 8 16 16 (number 16 4660)); try lia.
  split; [reflexivity|]. intros _. vm_compute. split; [discriminate | reflexivity].
Defined.

Lemma add_spec_witness :
  valid_value 8 (add 8 (invert 8 (LeafNode 8 false 1)) (number 8 5))
  /\ eval (fun _ => 250) (fun _ _ _ => 77) (add 8 (invert 8 (LeafNode 8 false 1)) (number 8 5))
     = (eval (fun _ => 250) (fun _ _ _ => 77) (invert 8 (LeafNode 8 false 1))
        + eval (fun _ => 250) (fun _ _ _ => 77) (number 8 5)) mod 2 ^ 8.
Proof.
  apply (add_spec (fun _ => 250) (fun _ _ _ => 77) 8 (invert 8 (LeafNode 8 false 1))
                  (number 8 5)); try lia.
  - split; [reflexivity | discriminate].
  - split; [reflexivity|]. intros _. vm_compute. split; [discriminate | reflexivity].
Defined.

Lemma invert_spec_witness :
  (is_known (number 8 54) = true ->
   invert 8 (number 8 54) = LeafNode 8 true (2 ^ 8 - 1 - value (number 8 54))
   /\ invert 8 (invert 8 (number 8 54)) = number 8 54)
  /\ (is_known (number 8 54) = false ->
      invert 8 (number 8 54) = InternalNode 8 OP_INVERT [number 8 54]
      /\ equal_to (invert 8 (invert 8 (number 8 54))) (number 8 54) = false).
Proof.
  apply (invert_spec 8 (number 8 54)); try lia.
  split; [reflexivity|]. intros _. vm_compute. split; [discriminate | reflexivity].
Defined.

Lemma run_mem_safe_witness :
  (Forall safe_op [MemWrite 32 CurState (number 32 4096) (number 32 57005);
                   MemRead 32 CurState (number 32 4096)] ->
   exists w',
     run_mem may_alias_any
             [MemWrite 32 CurState (number 32 4096) (number 32 57005);
              MemRead 32 CurState (number 32 4096)] policy_world = Ok (tt, w')
     /\ orig_clean w')
  /\ (Exists (fun op => ~ safe_op op)
             [MemWrite 32 CurState (number 32 4096) (number 32 57005);
              MemRead 32 CurState (number 32 4096)] ->
      run_mem may_alias_any
              [MemWrite 32 CurState (number 32 4096) (number 32 57005);
               MemRead 32 CurState (number 32 4096)] policy_world = Fatal).
Proof.
  apply (run_mem_safe may_alias_any).
  intros c Hc. vm_compute in Hc. contradiction.
Defined.

Lemma read_after_interrupt_witness :
  exists w1 w3,
    writeMemory may_alias_any 32 0 (number 32 4096) (number 32 57005) true_
                (world (mkMachine policy_world None 0)) = Ok (tt, w1)
    /\ interrupt 3 (world (startInstruction 134512640
                             (mkMachine w1 (cur_insn (mkMachine policy_world None 0))
                                        (ninsns (mkMachine policy_world None 0)))))
       = Ok (tt, w3)
    /\ readMemory may_alias_any 32 0 (number 32 4096) true_ w3 = Fatal.
Proof.
  apply (read_after_interrupt may_alias_any (mkMachine policy_world None 0)).
  reflexivity.
Defined.

Lemma write_clobbers_witness :
  exists w1 w2 w3,
    mem_write may_alias_any 32 CurState (LeafNode 32 false 34) (number 32 48879)
              written_world = Ok (tt, w1)
    /\ mem_read may_alias_any 32 CurState (number 32 4096) w1
       = Ok (unsignedExtend 32 32 (fresh w1), w2)
    /\ mem_read may_alias_any 32 CurState (number 32 4096) w2
       = Ok (unsignedExtend 32 32 (fresh w1), w3).
Proof.
  apply (write_clobbers may_alias_any 32 32 CurState (number 32 4096) (LeafNode 32 false 34)
                        (number 32 48879) written_world
                        (set_written (new_MemoryCell (number 32 4096)
                                                     (unsignedExtend 32 32 (number 32 57005))
                                                     (32 / 8)))).
  - discriminate.
  - exists [], []. split; [reflexivity|]. split; [intros ? [] | reflexivity].
  - reflexivity.
  - reflexivity.
Defined.


End SymbolicFacts.
